(** * Graphs, trees and point-graphs of [menpo/shape/graph.py]

    A shallow embedding of the graph classes ([Graph], [UndirectedGraph],
    [DirectedGraph], [Tree], [PointUndirectedGraph], [PointDirectedGraph],
    [PointTree]) and of the module-level helpers ([_unique_array_rows],
    [_check_n_points], [_correct_tree_edges], [_has_cycles]).

    Conventions.
    - Python integers and the entries of the integer [ndarray]s are [Z].
    - A raised exception is a value of [exn]; a function that can raise
      returns in the monad [res].  Recursive Python functions and [while]
      loops are structural on an explicit bound, given with each of them;
      exhausting the bound is the third outcome [OutOfFuel], and a theorem
      that states a result shows that the result is reached within the
      bound.
    - Python objects are records of attributes; an attribute an instance may
      lack is an [option], and reading it when absent raises
      [AttributeError]. *)

From stdpp Require Import gmap list sorting.
From Stdlib Require Import ZArith Lia.

Local Open Scope Z_scope.

(* ================================================================== *)
(** ** Exceptions and the result monad *)

(** The [ValueError]s of the module, by message. *)
Inductive value_error :=
  | NoEdges              (* 'You must provide at least one edge.' *)
  | BadShape             (* 'Adjacency list must ... have shape (n_edges, 2).' *)
  | NotZeroBased         (* 'The vertices must be numbered starting from 0.' *)
  | BadVertex            (* 'The vertex must be between 0 and {}.' *)
  | NotATree             (* 'The provided edges do not represent a tree.' *)
  | BadNPoints           (* 'A point for each graph vertex needs to be passed...' *)
  | BadMask              (* 'Mask must be a 1D boolean array of the same number...' *)
  | MaskDeletesAllEdges  (* 'The provided mask deletes all edges.' *)
  | NotConnected         (* 'Vertices {} and {} are not connected with an edge.' *)
  | ZeroSizeReduction    (* numpy: reduction of a zero-size array *)
  | NotInList.           (* list.remove(x) / tuple.index(x): x not present *)

Inductive exn :=
  | ValueError (why : value_error)
  | IndexError
  | TypeError
  | AttributeError.

Inductive res (A : Type) :=
  | Ret (a : A)
  | Raise (e : exn)
  | OutOfFuel.
Arguments Ret {A} a.
Arguments Raise {A} e.
Arguments OutOfFuel {A}.

#[global] Instance res_ret : MRet res := @Ret.
#[global] Instance res_bind : MBind res := fun A B f m =>
  match m with
  | Ret a => f a
  | Raise e => Raise e
  | OutOfFuel => OutOfFuel
  end.
#[global] Instance res_fmap : FMap res := fun A B f m =>
  match m with
  | Ret a => Ret (f a)
  | Raise e => Raise e
  | OutOfFuel => OutOfFuel
  end.

(** [for x in l: s = body(s, x)] *)
Fixpoint for_each {A S : Type} (body : S -> A -> res S) (l : list A) (s : S)
  : res S :=
  match l with
  | [] => Ret s
  | x :: l' => s' ← body s x; for_each body l' s'
  end.

(** [range(n)] for a Python integer [n]. *)
Definition range (n : Z) : list Z := Z.of_nat <$> seq 0 (Z.to_nat n).

(** [l[i]] on a Python list: negative indices count from the end. *)
Definition py_norm_index (len : nat) (i : Z) : option nat :=
  if bool_decide (0 <= i) then
    (if bool_decide (i < Z.of_nat len) then Some (Z.to_nat i) else None)
  else
    (if bool_decide (0 <= i + Z.of_nat len)
     then Some (Z.to_nat (i + Z.of_nat len)) else None).

Definition py_getitem {A} (l : list A) (i : Z) : res A :=
  match py_norm_index (length l) i with
  | Some k => match l !! k with Some x => Ret x | None => Raise IndexError end
  | None => Raise IndexError
  end.

(** [l[i].append(x)] on a list of lists. *)
Definition py_append_at (l : list (list Z)) (i : Z) (x : Z)
  : res (list (list Z)) :=
  match py_norm_index (length l) i with
  | Some k => Ret (alter (fun inner => inner ++ [x]) k l)
  | None => Raise IndexError
  end.

(** [l[i] = x] on a list. *)
Definition py_setitem {A} (l : list A) (i : Z) (x : A) : res (list A) :=
  match py_norm_index (length l) i with
  | Some k => Ret (<[k := x]> l)
  | None => Raise IndexError
  end.

(* ================================================================== *)
(** ** Two-dimensional integer arrays *)

(** An [ndarray] of shape [(length rows, shape1)].  The array is
    well formed when every row has [shape1] entries. *)
Record ndarray := NdArray { shape1 : nat; rows : list (list Z) }.

Definition nd_wf (a : ndarray) : Prop :=
  Forall (fun r => length r = shape1 a) (rows a).

Definition shape0 (a : ndarray) : nat := length (rows a).
Definition nd_size (a : ndarray) : nat := (shape0 a * shape1 a)%nat.
Definition ravel (a : ndarray) : list Z := concat (rows a).

(** [np.array(list_of_pairs)] *)
Definition np_array_of_pairs (l : list (Z * Z)) : ndarray :=
  NdArray 2 ((fun e => [e.1; e.2]) <$> l).

(** [a.min()], [a.max()] *)
Definition nd_min (a : ndarray) : res Z :=
  match ravel a with
  | [] => Raise (ValueError ZeroSizeReduction)
  | x :: l => Ret (foldl Z.min x l)
  end.
Definition nd_max (a : ndarray) : res Z :=
  match ravel a with
  | [] => Raise (ValueError ZeroSizeReduction)
  | x :: l => Ret (foldl Z.max x l)
  end.

(** [a[e, c]] with non-negative indices. *)
Definition nd_get (a : ndarray) (e c : nat) : res Z :=
  match rows a !! e with
  | Some r => match r !! c with Some x => Ret x | None => Raise IndexError end
  | None => Raise IndexError
  end.

(** [a[idx]] for an index array [idx]: the rows at those positions. *)
Definition nd_take (a : ndarray) (idx : list nat) : res ndarray :=
  rs ← mapM (fun i => match rows a !! i with
                      | Some r => Ret r
                      | None => Raise IndexError
                      end) idx;
  Ret (NdArray (shape1 a) rs).

(* ------------------------------------------------------------------ *)
(** *** [_unique_array_rows] *)

(** The order of the opaque row keys [np.unique] sorts by.  numpy compares
    the raw bytes of a row; the lexicographic order on the entries stands
    for it here ([_unique_array_rows] re-sorts the indices, so its result
    does not depend on the order of the keys). *)
Fixpoint key_leb (k1 k2 : list Z) : bool :=
  match k1, k2 with
  | [], _ => true
  | _ :: _, [] => false
  | x :: k1', y :: k2' =>
      if bool_decide (x < y) then true
      else if bool_decide (y < x) then false
      else key_leb k1' k2'
  end.
Definition key_le (k1 k2 : list Z) : Prop := key_leb k1 k2 = true.
#[global] Instance key_le_dec k1 k2 : Decision (key_le k1 k2).
Proof. unfold key_le. apply _. Defined.

(** The least index at which [k] occurs in [keys] ([0] if it does not). *)
Fixpoint first_index (keys : list (list Z)) (k : list Z) : nat :=
  match keys with
  | [] => 0%nat
  | k' :: keys' => if decide (k' = k) then 0%nat else S (first_index keys' k)
  end.

(** [np.unique(keys, return_index=True)], by its contract: the sorted unique
    keys, and for each of them the index of its first occurrence. *)
Definition np_unique_return_index (keys : list (list Z))
  : list (list Z) * list nat :=
  let u := merge_sort key_le (remove_dups keys) in
  (u, first_index keys <$> u).

(** [np.sort] of an index array. *)
Definition np_sort (idx : list nat) : list nat := merge_sort le idx.

Definition _unique_array_rows (array : ndarray) : res ndarray :=
  let tmp := rows array in
  let '(_, unique_idx) := np_unique_return_index tmp in
  nd_take array (np_sort unique_idx).

(** The rows of a list without the later repetitions, as the specification
    words it: each row is kept where it is first seen. *)
Fixpoint first_seen_from (seen : list (list Z)) (l : list (list Z))
  : list (list Z) :=
  match l with
  | [] => []
  | r :: l' =>
      if decide (r ∈ seen) then first_seen_from seen l'
      else r :: first_seen_from (r :: seen) l'
  end.
Definition first_seen (l : list (list Z)) : list (list Z) :=
  first_seen_from [] l.

(* ================================================================== *)
(** ** Graph objects *)

(** The class of a graph instance; [Tree] is a subclass of
    [DirectedGraph]. *)
Inductive klass := UndirectedGraph | DirectedGraph | Tree.

(** The second argument the class passes to [_has_cycles], and whether its
    [_get_adjacency_list] is the one of [DirectedGraph]. *)
Definition directed (c : klass) : bool :=
  match c with UndirectedGraph => false | _ => true end.

(** The attributes of a graph instance.  [root_vertex] and
    [predecessors_list] are set by [Tree.__init__] only. *)
Record graph := Graph {
  cls : klass;
  adjacency_array : ndarray;
  adjacency_list : list (list Z);
  root_vertex : option Z;
  predecessors_list : option (list (option Z))
}.

(** [Graph.n_edges] and [Graph.n_vertices], first as functions of the
    array they read. *)
Definition n_edges_of (a : ndarray) : nat := shape0 a.
Definition n_vertices_of (a : ndarray) : res Z := m ← nd_max a; Ret (m + 1).

Definition n_edges (g : graph) : nat := n_edges_of (adjacency_array g).
Definition n_vertices (g : graph) : res Z := n_vertices_of (adjacency_array g).

(** [UndirectedGraph._get_adjacency_list] and
    [DirectedGraph._get_adjacency_list] *)
Definition _get_adjacency_list (c : klass) (a : ndarray)
  : res (list (list Z)) :=
  n ← n_vertices_of a;
  for_each (fun adj e =>
      v1 ← nd_get a e 0;
      v2 ← nd_get a e 1;
      adj ← py_append_at adj v1 v2;
      if directed c then Ret adj else py_append_at adj v2 v1)
    (seq 0 (n_edges_of a))
    (replicate (Z.to_nat n) []).

(** [Graph.__init__].  [copy] only decides whether the stored array shares
    its buffer with the argument; the values are the same. *)
Definition Graph_init (c : klass) (array : ndarray) : res graph :=
  if bool_decide (nd_size array = 0%nat) then
    Raise (ValueError NoEdges)
  else if bool_decide (shape1 array ≠ 2%nat) then
    Raise (ValueError BadShape)
  else
    m ← nd_min array;
    if bool_decide (m ≠ 0) then Raise (ValueError NotZeroBased)
    else
      a ← _unique_array_rows array;
      adj ← _get_adjacency_list c a;
      Ret (Graph c a adj None None).

(** [Graph._check_vertex] *)
Definition _check_vertex (g : graph) (vertex : Z) : res unit :=
  n ← n_vertices g;
  if bool_decide (vertex > n - 1 ∨ vertex < 0)
  then Raise (ValueError BadVertex) else Ret ().

(* ================================================================== *)
(** ** Path search *)

(** Truth value of a returned path: [None] and the empty list are false. *)
Definition truthy (p : option (list Z)) : bool :=
  match p with Some (_ :: _) => true | _ => false end.

(** The [for v in self.adjacency_list[start]] loop of [find_path];
    [rec v] is the recursive call [self.find_path(v, end, path)]. *)
Fixpoint find_path_loop (rec : Z -> res (option (list Z)))
    (path : list Z) (vs : list Z) : res (option (list Z)) :=
  match vs with
  | [] => Ret None
  | v :: vs' =>
      if decide (v ∈ path) then find_path_loop rec path vs'
      else
        newpath ← rec v;
        if truthy newpath then Ret newpath
        else find_path_loop rec path vs'
  end.

Fixpoint find_path_rec (fuel : nat) (g : graph) (start end_ : Z)
    (path : list Z) : res (option (list Z)) :=
  match fuel with
  | O => OutOfFuel
  | S fuel' =>
      let path := path ++ [start] in
      if bool_decide (start = end_) then Ret (Some path)
      else
        n ← n_vertices g;
        if bool_decide (start > n - 1 ∨ start < 0) then Ret None
        else
          vs ← py_getitem (adjacency_list g) start;
          find_path_loop (fun v => find_path_rec fuel' g v end_ path) path vs
  end.

(** The loop of [find_all_paths]; [paths] accumulates. *)
Fixpoint find_all_paths_loop (rec : Z -> res (list (list Z)))
    (path : list Z) (vs : list Z) (paths : list (list Z))
  : res (list (list Z)) :=
  match vs with
  | [] => Ret paths
  | v :: vs' =>
      if decide (v ∈ path) then find_all_paths_loop rec path vs' paths
      else
        newpaths ← rec v;
        find_all_paths_loop rec path vs' (paths ++ newpaths)
  end.

Fixpoint find_all_paths_rec (fuel : nat) (g : graph) (start end_ : Z)
    (path : list Z) : res (list (list Z)) :=
  match fuel with
  | O => OutOfFuel
  | S fuel' =>
      let path := path ++ [start] in
      if bool_decide (start = end_) then Ret [path]
      else
        n ← n_vertices g;
        if bool_decide (start > n - 1 ∨ start < 0) then Ret []
        else
          vs ← py_getitem (adjacency_list g) start;
          find_all_paths_loop
            (fun v => find_all_paths_rec fuel' g v end_ path) path vs []
  end.

(** The loop of [find_shortest_path]; [shortest] is the best so far. *)
Fixpoint find_shortest_path_loop (rec : Z -> res (option (list Z)))
    (path : list Z) (vs : list Z) (shortest : option (list Z))
  : res (option (list Z)) :=
  match vs with
  | [] => Ret shortest
  | v :: vs' =>
      if decide (v ∈ path) then find_shortest_path_loop rec path vs' shortest
      else
        newpath ← rec v;
        if truthy newpath then
          if negb (truthy shortest)
             || bool_decide (length (default [] newpath)
                             < length (default [] shortest))%nat
          then find_shortest_path_loop rec path vs' newpath
          else find_shortest_path_loop rec path vs' shortest
        else find_shortest_path_loop rec path vs' shortest
  end.

Fixpoint find_shortest_path_rec (fuel : nat) (g : graph) (start end_ : Z)
    (path : list Z) : res (option (list Z)) :=
  match fuel with
  | O => OutOfFuel
  | S fuel' =>
      let path := path ++ [start] in
      if bool_decide (start = end_) then Ret (Some path)
      else
        n ← n_vertices g;
        if bool_decide (start > n - 1 ∨ start < 0) then Ret None
        else
          vs ← py_getitem (adjacency_list g) start;
          find_shortest_path_loop
            (fun v => find_shortest_path_rec fuel' g v end_ path) path vs None
  end.

(** The recursion adds a vertex of the graph to [path] at every level, so
    its depth is at most the number of vertices plus one. *)
Definition search_fuel (g : graph) : nat := S (length (adjacency_list g)).

(** [g.find_path(start, end)], [g.find_all_paths(start, end)],
    [g.n_paths(start, end)], [g.find_shortest_path(start, end)] *)
Definition find_path (g : graph) (start end_ : Z) : res (option (list Z)) :=
  find_path_rec (search_fuel g) g start end_ [].
Definition find_all_paths (g : graph) (start end_ : Z)
  : res (list (list Z)) :=
  find_all_paths_rec (search_fuel g) g start end_ [].
Definition n_paths (g : graph) (start end_ : Z) : res nat :=
  paths ← find_all_paths g start end_; Ret (length paths).
Definition find_shortest_path (g : graph) (start end_ : Z)
  : res (option (list Z)) :=
  find_shortest_path_rec (search_fuel g) g start end_ [].

(* ================================================================== *)
(** ** Cycle detection *)

(** The four mutable collections threaded through [dfs]. *)
Record dfs_state := DfsState {
  entered : gset Z;
  exited : gset Z;
  tree_edges : gmap Z Z;
  back_edges : gmap Z (gset Z)
}.

Definition dfs_empty : dfs_state := DfsState ∅ ∅ ∅ ∅.

(** The classification of the edge [node -> y] in the body of the loop. *)
Definition dfs_classify (directed : bool) (node y : Z) (st : dfs_state)
  : dfs_state :=
  if bool_decide (y ∉ entered st) then
    DfsState (entered st) (exited st)
             (<[y := node]> (tree_edges st)) (back_edges st)
  else if (negb directed && bool_decide (tree_edges st !! node ≠ Some y))
          || (directed && bool_decide (y ∉ exited st)) then
    DfsState (entered st) (exited st) (tree_edges st)
             (<[y := {[node]} ∪ default ∅ (back_edges st !! y)]>
                (back_edges st))
  else st.

Fixpoint dfs (fuel : nat) (adjacency_list : list (list Z)) (directed : bool)
    (node : Z) (st : dfs_state) : res dfs_state :=
  match fuel with
  | O => OutOfFuel
  | S fuel' =>
      if bool_decide (node ∉ entered st) then
        let st := DfsState ({[node]} ∪ entered st) (exited st)
                           (tree_edges st) (back_edges st) in
        ys ← py_getitem adjacency_list node;
        st ← for_each (fun st y =>
                 dfs fuel' adjacency_list directed y
                     (dfs_classify directed node y st)) ys st;
        Ret (DfsState (entered st) ({[node]} ∪ exited st)
                      (tree_edges st) (back_edges st))
      else Ret st
  end.

(** The [for x in range(len(adjacency_list))] loop of [_has_cycles]. *)
Fixpoint _has_cycles_loop (fuel : nat) (adjacency_list : list (list Z))
    (directed : bool) (xs : list Z) : res bool :=
  match xs with
  | [] => Ret false
  | x :: xs' =>
      st ← dfs fuel adjacency_list directed x dfs_empty;
      if bool_decide (back_edges st ≠ ∅) then Ret true
      else _has_cycles_loop fuel adjacency_list directed xs'
  end.

(** Every level of [dfs] that goes on enters a new vertex, so the depth is
    at most the number of vertices plus one. *)
Definition _has_cycles (adjacency_list : list (list Z)) (directed : bool)
  : res bool :=
  _has_cycles_loop (S (length adjacency_list)) adjacency_list directed
                   (range (Z.of_nat (length adjacency_list))).

(** [UndirectedGraph.has_cycles], [DirectedGraph.has_cycles] *)
Definition has_cycles (g : graph) : res bool :=
  _has_cycles (adjacency_list g) (directed (cls g)).

(** [Graph.is_tree] *)
Definition is_tree (g : graph) : res bool :=
  c ← has_cycles g;
  if negb c then
    n ← n_vertices g; Ret (bool_decide (Z.of_nat (n_edges g) = n - 1))
  else Ret false.

(* ================================================================== *)
(** ** Trees *)

(** [Tree._get_predecessors_list] *)
Definition _get_predecessors_list (a : ndarray) : res (list (option Z)) :=
  n ← n_vertices_of a;
  for_each (fun preds e =>
      parent ← nd_get a e 0;
      child ← nd_get a e 1;
      py_setitem preds child (Some parent))
    (seq 0 (n_edges_of a))
    (replicate (Z.to_nat n) None).

(** [Tree.__init__] *)
Definition Tree_init (array : ndarray) (root : Z) : res graph :=
  g ← Graph_init Tree array;
  t ← is_tree g;
  ok ← (if t : bool then
          n ← n_vertices g; Ret (bool_decide (Z.of_nat (n_edges g) = n - 1))
        else Ret false);
  if negb ok then Raise (ValueError NotATree)
  else
    _check_vertex g root;;
    preds ← _get_predecessors_list (adjacency_array g);
    Ret (Graph Tree (adjacency_array g) (adjacency_list g)
               (Some root) (Some preds)).

(** Reading the attributes only trees have. *)
Definition get_root_vertex (g : graph) : res Z :=
  match root_vertex g with Some r => Ret r | None => Raise AttributeError end.
Definition get_predecessors_list (g : graph) : res (list (option Z)) :=
  match predecessors_list g with
  | Some p => Ret p
  | None => Raise AttributeError
  end.

(** The [while not parent == self.root_vertex] loop of [depth_of_vertex];
    [parent] is [None] when the Python variable holds [None]. *)
Fixpoint depth_loop (fuel : nat) (root : Z) (preds : list (option Z))
    (parent : option Z) (depth : Z) : res Z :=
  if decide (parent = Some root) then Ret depth
  else
    match fuel with
    | O => OutOfFuel
    | S fuel' =>
        match parent with
        | None => Raise TypeError
        | Some current =>
            p ← py_getitem preds current;
            depth_loop fuel' root preds p (depth + 1)
        end
    end.

(** [Tree.depth_of_vertex].  Both attributes are read at the start; a tree
    has them.  A walk that reaches the root passes each vertex once, so it
    has fewer turns than there are entries in [predecessors_list]. *)
Definition depth_of_vertex (t : graph) (vertex : Z) : res Z :=
  _check_vertex t vertex;;
  root ← get_root_vertex t;
  preds ← get_predecessors_list t;
  depth_loop (S (length preds)) root preds (Some vertex) 0.

(** [Tree.parent]; [None] is the root's entry. *)
Definition parent (t : graph) (vertex : Z) : res (option Z) :=
  _check_vertex t vertex;;
  preds ← get_predecessors_list t;
  py_getitem preds vertex.

(* ================================================================== *)
(** ** Conversion of the spanning edges into a rooted tree *)

(** [current_vertex in item] for a pair. *)
Definition in_pair (v : Z) (item : Z * Z) : bool :=
  bool_decide (v = item.1) || bool_decide (v = item.2).

(** [m.index(p)] on a pair. *)
Definition pair_index (m : Z * Z) (p : Z) : res nat :=
  if bool_decide (m.1 = p) then Ret 0%nat
  else if bool_decide (m.2 = p) then Ret 1%nat
  else Raise (ValueError NotInList).

(** [edges.remove(e)]: drops the first element equal to [e]. *)
Fixpoint list_remove (edges : list (Z * Z)) (e : Z * Z)
  : res (list (Z * Z)) :=
  match edges with
  | [] => Raise (ValueError NotInList)
  | x :: edges' =>
      if decide (x = e) then Ret edges'
      else r ← list_remove edges' e; Ret (x :: r)
  end.

(** The inner function [_get_children(p, e)]. *)
Definition _get_children (p : Z) (e : list (Z * Z)) : res (list Z) :=
  for_each (fun c m =>
      i ← pair_index m p;
      if bool_decide (i = 0%nat) then Ret (c ++ [m.2]) else Ret (c ++ [m.1]))
    e [].

(** The [while len(vertices_to_visit) > 0] loop; the state is the pool
    [edges], the queue [vertices_to_visit] and [output_edges]. *)
Fixpoint _correct_tree_edges_loop (fuel : nat) (edges : list (Z * Z))
    (vertices_to_visit : list Z) (output_edges : list (Z * Z))
  : res (list (Z * Z)) :=
  match vertices_to_visit with
  | [] => Ret output_edges
  | current_vertex :: vertices_to_visit =>
      match fuel with
      | O => OutOfFuel
      | S fuel' =>
          let current_edges := filter (fun item => in_pair current_vertex item)
                                      edges in
          edges ← for_each list_remove current_edges edges;
          children ← _get_children current_vertex current_edges;
          let '(output_edges, vertices_to_visit) :=
            foldl (fun '(out, queue) child =>
                     (out ++ [(current_vertex, child)], queue ++ [child]))
                  (output_edges, vertices_to_visit) children in
          _correct_tree_edges_loop fuel' edges vertices_to_visit output_edges
      end
  end.

(** Every turn of the loop pops one vertex and pushes one vertex per edge
    it takes out of the pool, so there are at most [1 + len(edges)] turns. *)
Definition _correct_tree_edges (edges : list (Z * Z)) (root_vertex : Z)
  : res (list (Z * Z)) :=
  _correct_tree_edges_loop (S (length edges)) edges [root_vertex] [].

Section MinimumSpanningTree.
(** The solver of [menpo.external.PADS.MinimumSpanningTree] and the type
    of its weight matrix are outside this module. *)
Variable weights : Type.
Variable MinimumSpanningTree : graph -> weights -> res (list (Z * Z)).

(** [UndirectedGraph.minimum_spanning_tree] *)
Definition minimum_spanning_tree (g : graph) (w : weights) (root : Z)
  : res graph :=
  tree_edges ← MinimumSpanningTree g w;
  tree_edges ← _correct_tree_edges tree_edges root;
  Tree_init (np_array_of_pairs tree_edges) root.
End MinimumSpanningTree.

(* ================================================================== *)
(** ** Point-graphs *)

Section PointGraphs.
(** A row of the coordinate array. *)
Variable point : Type.

(** The helpers imported from [.adjacency]; their code is outside this
    module, so [from_mask] takes them as they come. *)
Variable mask_adjacency_array : list bool -> ndarray -> res ndarray.
Variable mask_adjacency_array_tree :
  list bool -> ndarray -> list (list Z) -> list (option Z) -> Z ->
  res ndarray.
Variable reindex_adjacency_array : ndarray -> res ndarray.

(** A point-graph instance: the attributes of its graph class and the
    [points] of [PointCloud].  The class is [Point<cls>]. *)
Record pointgraph := PointGraph { base : graph; points : list point }.

(** [PointCloud.n_points]: the number of rows of [points]. *)
Definition n_points (pg : pointgraph) : nat := length (points pg).

(** [_check_n_points] *)
Definition _check_n_points (pts : list point) (array : ndarray)
  : res unit :=
  m ← nd_max array;
  if bool_decide (Z.of_nat (length pts) ≠ m + 1)
  then Raise (ValueError BadNPoints) else Ret ().

(** [PointUndirectedGraph.__init__], [PointDirectedGraph.__init__] *)
Definition PointGraph_init (c : klass) (pts : list point) (array : ndarray)
  : res pointgraph :=
  _check_n_points pts array;;
  g ← Graph_init c array;
  Ret (PointGraph g pts).

(** [PointTree.__init__] *)
Definition PointTree_init (pts : list point) (array : ndarray) (root : Z)
  : res pointgraph :=
  _check_n_points pts array;;
  t ← Tree_init array root;
  Ret (PointGraph t pts).

(** [points[mask, :]] *)
Fixpoint select_rows (pts : list point) (mask : list bool) : list point :=
  match pts, mask with
  | p :: pts', b :: mask' =>
      if b then p :: select_rows pts' mask' else select_rows pts' mask'
  | _, _ => []
  end.

(** [np.all(mask)] *)
Definition np_all (mask : list bool) : bool := forallb id mask.

(** *** The store of instances

    [from_mask] works on [self.copy()] and assigns to the attributes of
    the copy, so instances live in a store and are named by their
    location. *)
Definition loc := nat.

(** Modelled from the spec: [PointCloud.copy] is not in this module; the
    point-cloud collaborator "supports copy", and masking "produces a
    new, independently validated instance", so [copy] allocates a new
    instance with the same attribute values. *)
Definition obj_copy (self : loc) (h : gmap loc pointgraph)
  : res loc * gmap loc pointgraph :=
  match h !! self with
  | Some o => let l := fresh (dom h) in (Ret l, <[l := o]> h)
  | None => (Raise AttributeError, h)
  end.

(** Attribute assignment on the instance at [l]. *)
Definition set_adjacency_array (l : loc) (a : ndarray)
    (h : gmap loc pointgraph) : gmap loc pointgraph :=
  alter (fun o => PointGraph
           (Graph (cls (base o)) a (adjacency_list (base o))
                  (root_vertex (base o)) (predecessors_list (base o)))
           (points o)) l h.
Definition set_adjacency_list (l : loc) (adj : list (list Z))
    (h : gmap loc pointgraph) : gmap loc pointgraph :=
  alter (fun o => PointGraph
           (Graph (cls (base o)) (adjacency_array (base o)) adj
                  (root_vertex (base o)) (predecessors_list (base o)))
           (points o)) l h.
Definition set_predecessors_list (l : loc) (preds : list (option Z))
    (h : gmap loc pointgraph) : gmap loc pointgraph :=
  alter (fun o => PointGraph
           (Graph (cls (base o)) (adjacency_array (base o))
                  (adjacency_list (base o))
                  (root_vertex (base o)) (Some preds))
           (points o)) l h.
Definition set_points (l : loc) (pts : list point)
    (h : gmap loc pointgraph) : gmap loc pointgraph :=
  alter (fun o => PointGraph (base o) pts) l h.

(** Reading the instance at [l]. *)
Definition deref (l : loc) (h : gmap loc pointgraph) : res pointgraph :=
  match h !! l with Some o => Ret o | None => Raise AttributeError end.

(** Running a computation that can raise inside a store-passing
    function: on an exception the store is returned as it is then. *)
Definition try_ {A B} (h : gmap loc pointgraph) (m : res A)
    (k : A -> res B * gmap loc pointgraph) : res B * gmap loc pointgraph :=
  match m with
  | Ret a => k a
  | Raise e => (Raise e, h)
  | OutOfFuel => (OutOfFuel, h)
  end.

(** [PointUndirectedGraph.from_mask] *)
Definition PointUndirectedGraph_from_mask (self : loc) (mask : list bool)
    (h : gmap loc pointgraph) : res loc * gmap loc pointgraph :=
  try_ h (deref self h) (fun o =>
  if bool_decide (length mask ≠ n_points o) then
    (Raise (ValueError BadMask), h)
  else
    let '(r, h) := obj_copy self h in
    try_ h r (fun pg =>
    if np_all mask then (Ret pg, h)
    else
      try_ h (deref pg h) (fun o =>
      try_ h (mask_adjacency_array mask (adjacency_array (base o)))
        (fun masked_adj =>
      if bool_decide (shape0 masked_adj = 0%nat) then
        (Raise (ValueError MaskDeletesAllEdges), h)
      else
        try_ h (reindex_adjacency_array masked_adj) (fun a =>
        let h := set_adjacency_array pg a h in
        try_ h (_get_adjacency_list UndirectedGraph a) (fun adj =>
        let h := set_adjacency_list pg adj h in
        let h := set_points pg (select_rows (points o) mask) h in
        (Ret pg, h))))))).

(** The body shared, line for line, by [PointDirectedGraph.from_mask] and
    [PointTree.from_mask]. *)
Definition directed_from_mask (self : loc) (mask : list bool)
    (h : gmap loc pointgraph) : res loc * gmap loc pointgraph :=
  try_ h (deref self h) (fun o =>
  if bool_decide (length mask ≠ n_points o) then
    (Raise (ValueError BadMask), h)
  else
    let '(r, h) := obj_copy self h in
    try_ h r (fun pt =>
    if np_all mask then (Ret pt, h)
    else
      try_ h (deref pt h) (fun o =>
      (* the arguments of the call, left to right *)
      try_ h (get_predecessors_list (base o)) (fun preds =>
      try_ h (get_root_vertex (base o)) (fun root =>
      try_ h (mask_adjacency_array_tree mask (adjacency_array (base o))
                (adjacency_list (base o)) preds root)
        (fun masked_adj =>
      if bool_decide (shape0 masked_adj = 0%nat) then
        (Raise (ValueError MaskDeletesAllEdges), h)
      else
        try_ h (reindex_adjacency_array masked_adj) (fun a =>
        let h := set_adjacency_array pt a h in
        let h := set_points pt (select_rows (points o) mask) h in
        try_ h (_get_adjacency_list (cls (base o)) a) (fun adj =>
        let h := set_adjacency_list pt adj h in
        try_ h (_get_predecessors_list a) (fun preds' =>
        let h := set_predecessors_list pt preds' h in
        (Ret pt, h)))))))))).

Definition PointDirectedGraph_from_mask := directed_from_mask.
Definition PointTree_from_mask := directed_from_mask.

(** [pg.from_mask(mask)], by the class of the instance. *)
Definition from_mask (self : loc) (mask : list bool)
    (h : gmap loc pointgraph) : res loc * gmap loc pointgraph :=
  match h !! self with
  | Some o =>
      match cls (base o) with
      | UndirectedGraph => PointUndirectedGraph_from_mask self mask h
      | DirectedGraph => PointDirectedGraph_from_mask self mask h
      | Tree => PointTree_from_mask self mask h
      end
  | None => (Raise AttributeError, h)
  end.
End PointGraphs.

(* ================================================================== *)
(** ** Queries on vertices and edges *)

(** [UndirectedGraph.neighbours] and [UndirectedGraph.n_neighbours] *)
Definition neighbours (g : graph) (vertex : Z) : res (list Z) :=
  _check_vertex g vertex;;
  py_getitem (adjacency_list g) vertex.
Definition n_neighbours (g : graph) (vertex : Z) : res nat :=
  _check_vertex g vertex;;
  l ← neighbours g vertex; Ret (length l).

(** [DirectedGraph.children] and [DirectedGraph.n_children] *)
Definition children (g : graph) (vertex : Z) : res (list Z) :=
  _check_vertex g vertex;;
  py_getitem (adjacency_list g) vertex.
Definition n_children (g : graph) (vertex : Z) : res nat :=
  _check_vertex g vertex;;
  l ← children g vertex; Ret (length l).

(** [UndirectedGraph.is_edge]; [or] evaluates its second operand only when
    the first is false. *)
Definition UndirectedGraph_is_edge (g : graph) (vertex_1 vertex_2 : Z)
  : res bool :=
  _check_vertex g vertex_1;;
  _check_vertex g vertex_2;;
  l2 ← py_getitem (adjacency_list g) vertex_2;
  if bool_decide (vertex_1 ∈ l2) then Ret true
  else
    l1 ← py_getitem (adjacency_list g) vertex_1;
    Ret (bool_decide (vertex_2 ∈ l1)).

(** [DirectedGraph.is_edge] *)
Definition DirectedGraph_is_edge (g : graph) (parent child : Z) : res bool :=
  _check_vertex g parent;;
  _check_vertex g child;;
  l ← py_getitem (adjacency_list g) parent;
  Ret (bool_decide (child ∈ l)).

(** [adjacency_mat[i, j] = True] on a boolean matrix; an index of numpy
    counts from the end when it is negative. *)
Definition mat_set (mat : list (list bool)) (i j : Z) : res (list (list bool)) :=
  match py_norm_index (length mat) i with
  | Some r =>
      match mat !! r with
      | Some row =>
          match py_norm_index (length row) j with
          | Some c => Ret (<[r := <[c := true]> row]> mat)
          | None => Raise IndexError
          end
      | None => Raise IndexError
      end
  | None => Raise IndexError
  end.

(** [UndirectedGraph.get_adjacency_matrix] and
    [DirectedGraph.get_adjacency_matrix] *)
Definition get_adjacency_matrix (g : graph) : res (list (list bool)) :=
  n ← n_vertices g;
  for_each (fun mat e =>
      v1 ← nd_get (adjacency_array g) e 0;
      v2 ← nd_get (adjacency_array g) e 1;
      mat ← mat_set mat v1 v2;
      if directed (cls g) then Ret mat else mat_set mat v2 v1)
    (seq 0 (n_edges g))
    (replicate (Z.to_nat n) (replicate (Z.to_nat n) false)).

(** [np.where(column)[0]]: the positions of the true entries. *)
Fixpoint np_where_from (i : Z) (column : list bool) : list Z :=
  match column with
  | [] => []
  | b :: column' =>
      if b then i :: np_where_from (i + 1) column'
      else np_where_from (i + 1) column'
  end.
Definition np_where (column : list bool) : list Z := np_where_from 0 column.

(** [DirectedGraph.parent]: the column [adj[:, vertex]] of the adjacency
    matrix, and the rows where it is true. *)
Definition DirectedGraph_parent (g : graph) (vertex : Z) : res (list Z) :=
  _check_vertex g vertex;;
  adj ← get_adjacency_matrix g;
  column ← mapM (fun row => py_getitem row vertex) adj;
  Ret (np_where column).

(** [DirectedGraph.n_parent], which [Tree] inherits: it takes [len] of
    [self.parent(vertex)].  On a tree [self.parent] is [Tree.parent], and
    [len] of an integer or of [None] raises [TypeError]. *)
Definition n_parent (g : graph) (vertex : Z) : res nat :=
  _check_vertex g vertex;;
  match cls g with
  | Tree => _ ← parent g vertex; Raise TypeError
  | _ => l ← DirectedGraph_parent g vertex; Ret (length l)
  end.

(** [Graph.tojson]: the dictionary with the one key ['adjacency_array'],
    whose value is [adjacency_array.tolist()]. *)
Record graph_json := GraphJson { json_adjacency_array : list (list Z) }.
Definition tojson (g : graph) : graph_json :=
  GraphJson (rows (adjacency_array g)).

(** [np.array(l)] for a list of lists of the same length. *)
Definition np_array (l : list (list Z)) : ndarray :=
  NdArray (length (default [] (head l))) l.

(* ================================================================== *)
(** ** Queries on trees *)

(** [Tree.is_leaf] *)
Definition is_leaf (t : graph) (vertex : Z) : res bool :=
  _check_vertex t vertex;;
  l ← children t vertex; Ret (bool_decide (length l = 0%nat)).

(** [Tree.leaves] and [Tree.n_leaves] *)
Definition leaves (t : graph) : res (list Z) :=
  n ← n_vertices t;
  for_each (fun leaves v =>
      b ← is_leaf t v;
      if b : bool then Ret (leaves ++ [v]) else Ret leaves)
    (range n) [].
Definition n_leaves (t : graph) : res Z :=
  n ← n_vertices t;
  for_each (fun n_leaves v =>
      b ← is_leaf t v;
      if b : bool then Ret (n_leaves + 1) else Ret n_leaves)
    (range n) 0.

(** [Tree.vertices_at_depth] and [Tree.n_vertices_at_depth] *)
Definition vertices_at_depth (t : graph) (depth : Z) : res (list Z) :=
  n ← n_vertices t;
  for_each (fun ver v =>
      d ← depth_of_vertex t v;
      if bool_decide (d = depth) then Ret (ver ++ [v]) else Ret ver)
    (range n) [].
Definition n_vertices_at_depth (t : graph) (depth : Z) : res Z :=
  n ← n_vertices t;
  for_each (fun n_ver v =>
      d ← depth_of_vertex t v;
      if bool_decide (d = depth) then Ret (n_ver + 1) else Ret n_ver)
    (range n) 0.

(** [np.max] of a list. *)
Definition np_max (l : list Z) : res Z :=
  match l with
  | [] => Raise (ValueError ZeroSizeReduction)
  | x :: l' => Ret (foldl Z.max x l')
  end.

(** [Tree.maximum_depth] *)
Definition maximum_depth (t : graph) : res Z :=
  n ← n_vertices t;
  all_depths ← mapM (depth_of_vertex t) (range n);
  np_max all_depths.

(* ================================================================== *)
(** ** Relative locations in a directed point-graph *)

Section RelativeLocations.
Variable point : Type.
(** The difference of two rows of the coordinate array. *)
Variable point_sub : point -> point -> point.

(** [PointDirectedGraph.relative_location_edge] *)
Definition relative_location_edge (pg : pointgraph point)
    (parent child : Z) : res point :=
  b ← DirectedGraph_is_edge (base point pg) parent child;
  if negb b then Raise (ValueError NotConnected)
  else
    c ← py_getitem (points point pg) child;
    p ← py_getitem (points point pg) parent;
    Ret (point_sub c p).

(** [PointDirectedGraph.relative_locations]; [self.points[children]]
    takes one row of [points] for every entry of [children]. *)
Definition relative_locations (pg : pointgraph point) : res (list point) :=
  let array := rows (adjacency_array (base point pg)) in
  parents ← mapM (fun p => py_getitem p 0) array;
  children ← mapM (fun p => py_getitem p 1) array;
  cs ← mapM (py_getitem (points point pg)) children;
  ps ← mapM (py_getitem (points point pg)) parents;
  Ret (zip_with point_sub cs ps).
End RelativeLocations.

(* ################################################################## *)
(** * The vocabulary of the properties *)

(** ** Arrays and adjacency lists *)

(** [m] is the largest (smallest) entry of [l]. *)
Definition is_max (m : Z) (l : list Z) : Prop :=
  m ∈ l /\ forall y, y ∈ l -> y <= m.
Definition is_min (m : Z) (l : list Z) : Prop :=
  m ∈ l /\ forall y, y ∈ l -> m <= y.

(** [v] is a vertex of a graph with [n] vertices. *)
Definition in_range (n v : Z) : Prop := 0 <= v < n.

(** An adjacency list for [n] vertices: [n] lists that hold vertices of
    the graph only. *)
Definition adjacency_ok (adj : list (list Z)) (n : Z) : Prop :=
  0 <= n /\ length adj = Z.to_nat n /\
  Forall (Forall (fun v => 0 <= v < n)) adj.

(** The graph [g] has [n] vertices and an adjacency list for them. *)
Definition graph_ok (g : graph) (n : Z) : Prop :=
  n_vertices g = Ret n /\ adjacency_ok (adjacency_list g) n.

(** A predecessors list for [n] vertices: [n] entries, each [None] or a
    vertex. *)
Definition preds_ok (preds : list (option Z)) (n : Z) : Prop :=
  length preds = Z.to_nat n /\
  Forall (fun o => forall p, o = Some p -> 0 <= p < n) preds.

(** ** Connection *)

(** Two vertices joined by a walk along the edges, in either direction. *)
Inductive linked (E : list (Z * Z)) : Z -> Z -> Prop :=
  | linked_refl v : linked E v v
  | linked_step u v w :
      linked E u v -> (v, w) ∈ E \/ (w, v) ∈ E -> linked E u w.

(** The edge list [T] is a spanning tree of the vertices [0 .. V-1]: it has
    [V - 1] edges between these vertices, and joins any two of them. *)
Definition spanning_tree (V : Z) (T : list (Z * Z)) : Prop :=
  Z.of_nat (length T) = V - 1 /\
  (forall e, e ∈ T -> in_range V e.1 /\ in_range V e.2) /\
  (forall u v, in_range V u -> in_range V v -> linked T u v).

(** ** The examples of the specification *)

Definition example_edges : list (Z * Z) :=
  [(0, 1); (0, 2); (1, 2); (1, 3); (2, 4); (3, 4); (3, 5)].

Definition dag_edges : list (Z * Z) := [(0, 1); (0, 2); (1, 2); (3, 4)].

(** ** Measures and invariants of the traversals *)

(** The number of vertices of the graph that are not on [path]: the bound
    on the depth of the path searches. *)
Definition free_vertices (n : Z) (path : list Z) : nat :=
  length (filter (fun v => v ∉ path) (range n)).

(** The walk of [depth_of_vertex] from a vertex up to the root, with the
    number of its steps. *)
Inductive walk (root : Z) (preds : list (option Z))
  : option Z -> nat -> Prop :=
  | walk_root : walk root preds (Some root) 0
  | walk_step x y m :
      x ≠ root -> py_getitem preds x = Ret y -> walk root preds y m ->
      walk root preds (Some x) (S m).

(** The instances of the store [h] are in [h'] as they were. *)
Definition preserves {A : Type} (h h' : gmap loc A) : Prop :=
  forall l o, h !! l = Some o -> h' !! l = Some o.

(** The end of the edge [m] that is not [u]. *)
Definition other (u : Z) (m : Z * Z) : Z :=
  if bool_decide (m.1 = u) then m.2 else m.1.

(** The edges of the pool at [u], and the pool without them. *)
Definition edges_at (u : Z) (E : list (Z * Z)) : list (Z * Z) :=
  filter (fun item => in_pair u item) E.
Definition edges_off (u : Z) (E : list (Z * Z)) : list (Z * Z) :=
  filter (fun item => ~ in_pair u item) E.

(** The state of the loop of [_correct_tree_edges], started on the edges
    [T] with [root]: the pool [E], the queue [Q], the output [O], and the
    vertices [P] popped so far. *)
Record bfs_inv (T : list (Z * Z)) (root : Z) (P : list Z)
    (E : list (Z * Z)) (Q : list Z) (O : list (Z * Z)) : Prop := BfsInv {
  inv_length : (length E + length O = length T)%nat;
  inv_pool : forall e, e ∈ E -> e ∈ T;
  inv_taken : forall e, e ∈ T -> e ∈ E \/ e ∈ O \/ (e.2, e.1) ∈ O;
  inv_output : forall p c, (p, c) ∈ O -> ((p, c) ∈ T \/ (c, p) ∈ T) /\ p ∈ P;
  inv_popped : forall e v, e ∈ E -> v ∈ P -> ~ in_pair v e;
  inv_reached : forall v, v = root \/ v ∈ O.*2 -> v ∈ P \/ v ∈ Q;
  inv_known : forall v, v ∈ P \/ v ∈ Q -> v = root \/ v ∈ O.*2;
  inv_ordered : forall i p c,
    O !! i = Some (p, c) ->
    p = root \/ exists j p', (j < i)%nat /\ O !! j = Some (p', p)
}.

(** The least position of [v] in [l]. *)
Fixpoint index_of (l : list Z) (v : Z) : nat :=
  match l with
  | [] => 0%nat
  | x :: l' => if decide (x = v) then 0%nat else S (index_of l' v)
  end.

(** The rank of a vertex in the output [O]: 0 for the root, and one more
    than the position of the edge that reaches it otherwise. *)
Definition bfs_rank (root : Z) (O : list (Z * Z)) (v : Z) : nat :=
  if decide (v = root) then 0%nat else S (index_of (O.*2) v).

(** The number of vertices of [[0, n)] that [dfs] has not entered: the
    bound on the depth of [dfs]. *)
Definition unentered (n : Z) (st : dfs_state) : nat :=
  length (filter (fun v => v ∉ entered st) (range n)).

(** What [dfs] keeps at a vertex of rank [r]: no back edge, and the
    vertices entered and not exited are of a rank below [r]. *)
Definition dfs_ok (rank : Z -> nat) (r : nat) (st : dfs_state) : Prop :=
  back_edges st = ∅ /\
  forall z, z ∈ entered st -> z ∉ exited st -> (rank z < r)%nat.

(** From [st] to [st'] more vertices are entered, and no more are entered
    and not exited. *)
Definition dfs_grows (st st' : dfs_state) : Prop :=
  entered st ⊆ entered st' /\
  forall z, z ∈ entered st' -> z ∉ exited st' ->
            z ∈ entered st /\ z ∉ exited st.

(** ** Edges and degrees *)

(** [[p, c]] is a row of the edge array [a]. *)
Definition has_edge (a : ndarray) (p c : Z) : Prop :=
  exists e, nd_get a e 0 = Ret p /\ nd_get a e 1 = Ret c.

(** The number of entries of an adjacency list. *)
Definition total_degree (adj : list (list Z)) : nat :=
  sum_list (length <$> adj).

(** The entry [mat[i, j]] of a boolean matrix, [false] outside it. *)
Definition mat_at (mat : list (list bool)) (i j : nat) : bool :=
  default false (mat !! i ≫= fun row => row !! j).

(** A matrix of [n] rows of [n] entries. *)
Definition square (n : nat) (mat : list (list bool)) : Prop :=
  length mat = n /\ Forall (fun row => length row = n) mat.

(** ** Cycles *)

(** The adjacency list [adj] has the arc [u -> y]. *)
Definition arc (adj : list (list Z)) (u y : Z) : Prop :=
  0 <= u /\ exists ys, adj !! Z.to_nat u = Some ys /\ y ∈ ys.

(** A directed cycle: a vertex that reaches itself along one arc or more. *)
Definition cyclic (adj : list (list Z)) : Prop :=
  exists x, tc (arc adj) x x.

(** The vertices [dfs] has entered and not exited. *)
Definition active (st : dfs_state) (z : Z) : Prop :=
  z ∈ entered st /\ z ∉ exited st.

(** The set [X] holds the end of every arc that starts in it, and none of
    its vertices is on a cycle. *)
Definition dag_on (adj : list (list Z)) (X : gset Z) : Prop :=
  (forall u y, u ∈ X -> arc adj u y -> y ∈ X) /\
  (forall u, u ∈ X -> ~ tc (arc adj) u u).

(** What a run of [dfs] from [st] to [st'] keeps, at one vertex or over the
    list of the children of [node]. *)
Definition dfs_run (adj : list (list Z)) (d : bool) (node : Z)
    (st st' : dfs_state) : Prop :=
  entered st ⊆ entered st' /\
  exited st ⊆ exited st' /\
  exited st' ⊆ entered st' /\
  (forall z, z ∈ exited st' -> z ∈ entered st -> z ∈ exited st) /\
  (forall z, active st' z -> active st z) /\
  (back_edges st ≠ ∅ -> back_edges st' ≠ ∅) /\
  (d = true -> (forall z, active st z -> rtc (arc adj) z node) ->
   back_edges st' ≠ ∅ -> back_edges st ≠ ∅ \/ cyclic adj).

(** ** Paths *)

(** The vertices [u] and [y] are joined in a graph of class [c] on the edge
    array [a]: by the row [[u, y]], or in an undirected graph by [[y, u]]. *)
Definition joined (c : klass) (a : ndarray) (u y : Z) : Prop :=
  has_edge a u y \/ (directed c = false /\ has_edge a y u).

(** [u :: q] is a walk along [R] that ends at [e]. *)
Fixpoint chain (R : Z -> Z -> Prop) (u : Z) (q : list Z) (e : Z) : Prop :=
  match q with
  | [] => u = e
  | y :: q' => R u y /\ chain R y q' e
  end.

(** A path without repeated vertices from [s] to [e]. *)
Definition simple_path (R : Z -> Z -> Prop) (s e : Z) (p : list Z) : Prop :=
  exists q, p = s :: q /\ chain R s q e /\ NoDup p.

(** The first of the shortest lists of [ps]. *)
Definition pick (best : option (list Z)) (p : list Z) : option (list Z) :=
  match best with
  | None => Some p
  | Some b => if decide (length p < length b)%nat then Some p else Some b
  end.
Definition first_shortest (ps : list (list Z)) : option (list Z) :=
  foldl pick None ps.

(** The update of [shortest] by [newpath] in the loop of
    [find_shortest_path]. *)
Definition keep_shorter (shortest newpath : option (list Z))
  : option (list Z) :=
  if truthy newpath then
    if negb (truthy shortest)
       || bool_decide (length (default [] newpath)
                       < length (default [] shortest))%nat
    then newpath else shortest
  else shortest.

(* ################################################################## *)
(** * Properties *)

(* ================================================================== *)
(** ** The result monad *)

Lemma bind_Ret_inv {A B} (m : res A) (k : A -> res B) (b : B) :
  (m ≫= k) = Ret b -> exists a, m = Ret a /\ k a = Ret b.
Proof. destruct m; simpl; intros; eauto; discriminate. Qed.

Tactic Notation "inv_bind" hyp(H) :=
  let x := fresh "x" in
  let Hx := fresh "Hx" in
  apply bind_Ret_inv in H as (x & Hx & H).

Tactic Notation "inv_bind" hyp(H) "as" ident(x) ident(Hx) :=
  apply bind_Ret_inv in H as (x & Hx & H).

(** An invariant of a loop that does not raise. *)
Lemma for_each_invariant {A S} (I : S -> Prop) (body : S -> A -> res S)
    (P : A -> Prop) l s s' :
  (forall s x s', P x -> I s -> body s x = Ret s' -> I s') ->
  Forall P l -> I s -> for_each body l s = Ret s' -> I s'.
Proof.
  intros Hbody. revert s. induction l as [|x l IH]; simpl; intros s HP Hs H.
  - by injection H as <-.
  - inv_bind H. inversion HP; subst. apply (IH x0); eauto.
Qed.

(* ================================================================== *)
(** ** Maximum and minimum of an array *)

Lemma foldl_max_is_max x l : is_max (foldl Z.max x l) (x :: l).
Proof.
  revert x; induction l as [|y l IH]; intros x; simpl.
  - split; [left|]. intros z Hz. apply list_elem_of_singleton in Hz. lia.
  - destruct (IH (Z.max x y)) as [Hin Hle]. split.
    + apply elem_of_cons in Hin as [Hin|Hin].
      * rewrite Hin. destruct (Z.max_spec x y) as [[_ ->]|[_ ->]];
          [right; left | left].
      * right; by right.
    + intros z Hz. apply elem_of_cons in Hz as [->|Hz].
      * specialize (Hle (Z.max x y)). pose proof (Hle ltac:(left)). lia.
      * apply elem_of_cons in Hz as [->|Hz].
        -- pose proof (Hle (Z.max x y) ltac:(left)). lia.
        -- apply Hle. by right.
Qed.

Lemma foldl_min_is_min x l : is_min (foldl Z.min x l) (x :: l).
Proof.
  revert x; induction l as [|y l IH]; intros x; simpl.
  - split; [left|]. intros z Hz. apply list_elem_of_singleton in Hz. lia.
  - destruct (IH (Z.min x y)) as [Hin Hle]. split.
    + apply elem_of_cons in Hin as [Hin|Hin].
      * rewrite Hin. destruct (Z.min_spec x y) as [[_ ->]|[_ ->]];
          [left | right; left].
      * right; by right.
    + intros z Hz. apply elem_of_cons in Hz as [->|Hz].
      * pose proof (Hle (Z.min x y) ltac:(left)). lia.
      * apply elem_of_cons in Hz as [->|Hz].
        -- pose proof (Hle (Z.min x y) ltac:(left)). lia.
        -- apply Hle. by right.
Qed.

Lemma nd_max_Ret a m : nd_max a = Ret m <-> is_max m (ravel a).
Proof.
  unfold nd_max. destruct (ravel a) as [|x l] eqn:E.
  - split; [discriminate|]. intros [H _]. by apply elem_of_nil in H.
  - pose proof (foldl_max_is_max x l) as [H1 H2]. split.
    + intros [= <-]. by split.
    + intros [H3 H4]. f_equal.
      pose proof (H2 _ H3). pose proof (H4 _ H1). lia.
Qed.

Lemma nd_min_Ret a m : nd_min a = Ret m <-> is_min m (ravel a).
Proof.
  unfold nd_min. destruct (ravel a) as [|x l] eqn:E.
  - split; [discriminate|]. intros [H _]. by apply elem_of_nil in H.
  - pose proof (foldl_min_is_min x l) as [H1 H2]. split.
    + intros [= <-]. by split.
    + intros [H3 H4]. f_equal.
      pose proof (H2 _ H3). pose proof (H4 _ H1). lia.
Qed.

Lemma is_max_ext m l1 l2 :
  (forall x, x ∈ l1 <-> x ∈ l2) -> is_max m l1 -> is_max m l2.
Proof. intros H [H1 H2]. split; [by apply H|]. intros y Hy. by apply H2, H. Qed.

(* ================================================================== *)
(** ** [_unique_array_rows] keeps the rows where they are first seen *)

Lemma first_seen_from_elem seen l r :
  r ∈ first_seen_from seen l <-> r ∈ l /\ r ∉ seen.
Proof.
  revert seen; induction l as [|x l IH]; intros seen; simpl.
  - split; [intros H; by apply elem_of_nil in H|intros [H _]; by apply elem_of_nil in H].
  - destruct (decide (x ∈ seen)) as [Hx|Hx].
    + rewrite IH, elem_of_cons. split; [tauto|].
      intros [[->|H] Hn]; [done|auto].
    + rewrite elem_of_cons, IH, !elem_of_cons.
      destruct (decide (r = x)) as [->|Hne]; [tauto|]. tauto.
Qed.

Lemma first_seen_from_NoDup seen l : NoDup (first_seen_from seen l).
Proof.
  revert seen; induction l as [|x l IH]; intros seen; simpl; [constructor|].
  destruct (decide (x ∈ seen)); [apply IH|].
  constructor; [|apply IH].
  rewrite first_seen_from_elem. intros [_ H]. apply H. left.
Qed.

Lemma first_seen_elem l r : r ∈ first_seen l <-> r ∈ l.
Proof.
  unfold first_seen. rewrite first_seen_from_elem. split; [tauto|].
  intros H; split; [done|]. apply not_elem_of_nil.
Qed.

Lemma first_seen_NoDup l : NoDup (first_seen l).
Proof. apply first_seen_from_NoDup. Qed.

Lemma first_seen_from_sublist seen l : sublist (first_seen_from seen l) l.
Proof.
  revert seen; induction l as [|x l IH]; intros seen; simpl; [constructor|].
  destruct (decide (x ∈ seen)); [apply sublist_cons|apply sublist_skip]; apply IH.
Qed.

Lemma first_index_app_notin p k l :
  k ∉ p -> first_index (p ++ k :: l) k = length p.
Proof.
  induction p as [|x p IH]; simpl; intros Hk.
  - by rewrite decide_True.
  - rewrite decide_False by (intros ->; apply Hk; left).
    f_equal. apply IH. intros H. apply Hk. by right.
Qed.

Lemma first_index_lookup keys k :
  k ∈ keys -> keys !! first_index keys k = Some k.
Proof.
  induction keys as [|x keys IH]; simpl; intros H.
  - by apply elem_of_nil in H.
  - destruct (decide (x = k)) as [->|Hne]; [done|]. simpl.
    apply elem_of_cons in H as [->|H]; [done|auto].
Qed.

(** No earlier position holds the key found at its first index. *)
Lemma first_index_least keys k j :
  (j < first_index keys k)%nat -> keys !! j ≠ Some k.
Proof.
  revert j; induction keys as [|x keys IH]; simpl; intros j Hj; [lia|].
  destruct (decide (x = k)) as [->|Hne]; [lia|].
  destruct j as [|j]; simpl; [congruence|]. apply IH. lia.
Qed.

Lemma first_seen_from_indices p seen l :
  (forall x, x ∈ seen <-> x ∈ p) ->
  StronglySorted lt (first_index (p ++ l) <$> first_seen_from seen l) /\
  Forall (fun i => length p <= i)%nat
         (first_index (p ++ l) <$> first_seen_from seen l).
Proof.
  revert p seen; induction l as [|r l IH]; intros p seen Hseen; simpl.
  - split; constructor.
  - destruct (decide (r ∈ seen)) as [Hr|Hr].
    + destruct (IH (p ++ [r]) seen) as [H1 H2].
      { intros x. rewrite elem_of_app, list_elem_of_singleton, Hseen.
        split; [auto|]. intros [?| ->]; [done|]. by apply Hseen. }
      rewrite <- app_assoc in H1, H2. simpl in H1, H2. split; [done|].
      eapply Forall_impl; [exact H2|]. intros i. rewrite length_app. simpl. lia.
    + destruct (IH (p ++ [r]) (r :: seen)) as [H1 H2].
      { intros x. rewrite elem_of_app, list_elem_of_singleton, elem_of_cons, Hseen.
        tauto. }
      rewrite <- app_assoc in H1, H2. simpl in H1, H2.
      rewrite fmap_cons, first_index_app_notin by (by rewrite <- Hseen).
      split.
      * constructor; [done|].
        eapply Forall_impl; [exact H2|]. intros i. rewrite length_app. simpl. lia.
      * constructor; [lia|].
        eapply Forall_impl; [exact H2|]. intros i. rewrite length_app. simpl. lia.
Qed.

Lemma first_seen_indices_sorted keys :
  StronglySorted lt (first_index keys <$> first_seen keys).
Proof. by apply (first_seen_from_indices [] [] keys). Qed.

Lemma mapM_res_cons {A B} (f : A -> res B) x l :
  mapM f (x :: l) = (y ← f x; k ← mapM f l; Ret (y :: k)).
Proof. done. Qed.

Lemma mapM_res_lookup_first_index keys (l : list (list Z)) :
  Forall (fun k => k ∈ keys) l ->
  mapM (fun i => match keys !! i with
                 | Some r => Ret r
                 | None => Raise IndexError
                 end) (first_index keys <$> l) = Ret l.
Proof.
  induction 1 as [|k l Hk _ IH]; [done|].
  rewrite fmap_cons, mapM_res_cons, first_index_lookup, IH by done. done.
Qed.

Lemma StronglySorted_weaken {A} (R R' : relation A) l :
  (forall x y, R x y -> R' x y) -> StronglySorted R l -> StronglySorted R' l.
Proof.
  intros HR. induction 1 as [|x l _ IH Hx]; constructor; [done|].
  eapply Forall_impl; [exact Hx|]. auto.
Qed.

Lemma np_sort_unique_idx keys :
  np_sort (np_unique_return_index keys).2 = first_index keys <$> first_seen keys.
Proof.
  unfold np_sort, np_unique_return_index. simpl.
  apply (Sorted_unique le).
  - apply Sorted_merge_sort. apply _.
  - apply StronglySorted_Sorted.
    eapply StronglySorted_weaken; [|apply first_seen_indices_sorted].
    intros; lia.
  - rewrite merge_sort_Permutation. apply fmap_Permutation.
    rewrite merge_sort_Permutation.
    apply NoDup_Permutation.
    + apply NoDup_remove_dups.
    + apply first_seen_NoDup.
    + intros x. by rewrite elem_of_remove_dups, first_seen_elem.
Qed.

Lemma _unique_array_rows_spec a :
  _unique_array_rows a = Ret (NdArray (shape1 a) (first_seen (rows a))).
Proof.
  unfold _unique_array_rows.
  pose proof (np_sort_unique_idx (rows a)) as H.
  destruct (np_unique_return_index (rows a)) as [u idx]. simpl in H.
  unfold nd_take. rewrite H, mapM_res_lookup_first_index; [done|].
  apply Forall_forall. intros k. by rewrite first_seen_elem.
Qed.

(* ================================================================== *)
(** ** What [Graph.__init__] establishes *)

Lemma ravel_elem a x : x ∈ ravel a <-> exists r, r ∈ rows a /\ x ∈ r.
Proof.
  unfold ravel. induction (rows a) as [|r l IH]; simpl.
  - split; [intros H; by apply elem_of_nil in H|].
    intros (r & H & _). by apply elem_of_nil in H.
  - rewrite elem_of_app, IH. setoid_rewrite elem_of_cons. split.
    + intros [Hx|(r' & Hr' & Hx)]; eauto.
    + intros (r' & [->|Hr'] & Hx); eauto.
Qed.

Lemma nd_get_elem a e c x : nd_get a e c = Ret x -> x ∈ ravel a.
Proof.
  unfold nd_get. destruct (rows a !! e) as [r|] eqn:Hr; [|discriminate].
  destruct (r !! c) as [y|] eqn:Hy; [|discriminate]. intros [= <-].
  apply ravel_elem. exists r. split; eapply list_elem_of_lookup_2; eauto.
Qed.

Lemma py_norm_index_in_range len i :
  0 <= i < Z.of_nat len -> py_norm_index len i = Some (Z.to_nat i).
Proof.
  unfold py_norm_index. intros Hi. by rewrite !bool_decide_true by lia.
Qed.

Lemma py_getitem_in_range {A} (l : list A) i :
  0 <= i < Z.of_nat (length l) ->
  exists x, py_getitem l i = Ret x /\ l !! Z.to_nat i = Some x.
Proof.
  intros Hi. unfold py_getitem. rewrite py_norm_index_in_range by done.
  destruct (lookup_lt_is_Some_2 l (Z.to_nat i)) as [x Hx]; [lia|].
  rewrite Hx. eauto.
Qed.

Lemma py_append_at_ok adj n i x adj' :
  adjacency_ok adj n -> 0 <= x < n ->
  py_append_at adj i x = Ret adj' -> adjacency_ok adj' n.
Proof.
  intros (Hn & Hlen & Hall) Hx. unfold py_append_at.
  destruct (py_norm_index (length adj) i) as [k|]; [|discriminate].
  intros [= <-]. split; [done|]. split; [by rewrite length_alter|].
  apply Forall_alter; [done|]. intros inner _. rewrite Forall_app. intros H.
  split; [done|]. constructor; [done|constructor].
Qed.

Lemma py_append_at_in_range adj n i x :
  adjacency_ok adj n -> 0 <= i < n -> exists adj', py_append_at adj i x = Ret adj'.
Proof.
  intros (Hn & Hlen & _) Hi. unfold py_append_at.
  rewrite py_norm_index_in_range by lia. eauto.
Qed.

Lemma _get_adjacency_list_ok c a adj :
  (forall x, x ∈ ravel a -> 0 <= x) ->
  _get_adjacency_list c a = Ret adj ->
  exists n, n_vertices_of a = Ret n /\ 1 <= n /\ adjacency_ok adj n.
Proof.
  intros Hpos H. unfold _get_adjacency_list in H. inv_bind H. rename x into n.
  exists n. split; [done|].
  unfold n_vertices_of in Hx. inv_bind Hx. injection Hx as <-.
  rename x into m. apply nd_max_Ret in Hx0 as [Hm Hmax].
  pose proof (Hpos _ Hm). split; [lia|].
  eapply (for_each_invariant (fun adj => adjacency_ok adj (m + 1)) _
            (fun _ => True)); [| |  |exact H].
  - intros s e s' _ Hs Hbody.
    inv_bind Hbody. inv_bind Hbody. inv_bind Hbody.
    apply nd_get_elem in Hx, Hx0.
    pose proof (Hpos _ Hx). pose proof (Hpos _ Hx0).
    pose proof (Hmax _ Hx). pose proof (Hmax _ Hx0).
    eapply py_append_at_ok in Hx1; [|done|lia].
    destruct (directed c); [by injection Hbody as <-|].
    eapply py_append_at_ok in Hbody; [done|done|lia].
  - by apply Forall_true.
  - split; [lia|]. split; [by rewrite length_replicate|].
    apply Forall_replicate. constructor.
Qed.

Lemma Graph_init_inv c a g :
  Graph_init c a = Ret g ->
  shape1 a = 2%nat /\ rows a ≠ [] /\ nd_min a = Ret 0 /\
  cls g = c /\ root_vertex g = None /\ predecessors_list g = None /\
  adjacency_array g = NdArray 2 (first_seen (rows a)) /\
  _get_adjacency_list c (adjacency_array g) = Ret (adjacency_list g).
Proof.
  unfold Graph_init. case_bool_decide as Hsz; [discriminate|].
  case_bool_decide as Hsh; [discriminate|].
  intros H. inv_bind H. case_bool_decide as Hm; [discriminate|].
  rewrite _unique_array_rows_spec in H. simpl in H. inv_bind H.
  injection H as <-. simpl.
  assert (shape1 a = 2%nat) as Hs2 by (destruct (decide (shape1 a = 2%nat)); [done|by destruct Hsh]).
  assert (x = 0) as -> by (destruct (decide (x = 0)); [done|by destruct Hm]).
  rewrite Hs2 in *. repeat split; try done.
  intros Hr. apply Hsz. unfold nd_size, shape0. by rewrite Hr.
Qed.

Lemma ravel_first_seen a x :
  x ∈ ravel (NdArray 2 (first_seen (rows a))) <-> x ∈ ravel a.
Proof.
  rewrite !ravel_elem. simpl. by setoid_rewrite first_seen_elem.
Qed.

Lemma Graph_init_ok c a g :
  Graph_init c a = Ret g ->
  exists n, graph_ok g n /\ 1 <= n /\ is_max (n - 1) (ravel a) /\
            is_min 0 (ravel a).
Proof.
  intros H. apply Graph_init_inv in H as (Hs & Hr & Hmin & Hc & _ & _ & Ha & Hadj).
  apply nd_min_Ret in Hmin.
  apply _get_adjacency_list_ok in Hadj as (n & Hn & Hn1 & Hok).
  - exists n. split; [by split|]. split; [done|]. split; [|done].
    unfold n_vertices_of in Hn. inv_bind Hn. injection Hn as <-.
    apply nd_max_Ret in Hx. rewrite Ha in Hx.
    replace (x + 1 - 1) with x by lia.
    eapply is_max_ext; [|exact Hx]. apply ravel_first_seen.
  - intros x. rewrite Ha, ravel_first_seen. apply Hmin.
Qed.

(* ================================================================== *)
(** ** C8 and C4: the stored edge array and the vertex count *)

(** C8. For every array accepted by [Graph.__init__], the rows of the
    stored [adjacency_array] are the rows of the input where each is first
    seen: there is a strictly increasing list of positions, holding exactly
    the positions whose row occurs at no lower position, and the stored
    rows are the input rows at these positions, in this order.  Hence the
    stored rows are pairwise different, are the rows of the input, and keep
    the input's relative order. *)
Theorem C8_stored_rows_first_seen (c : klass) (a : ndarray) (g : graph) :
  Graph_init c a = Ret g ->
  rows (adjacency_array g) = first_seen (rows a) /\
  NoDup (rows (adjacency_array g)) /\
  (forall r, r ∈ rows (adjacency_array g) <-> r ∈ rows a) /\
  sublist (rows (adjacency_array g)) (rows a) /\
  exists idx : list nat,
    StronglySorted lt idx /\
    (forall i, i ∈ idx <->
       exists r, rows a !! i = Some r /\
                 forall j, (j < i)%nat -> rows a !! j ≠ Some r) /\
    Forall2 (fun i r => rows a !! i = Some r) idx (rows (adjacency_array g)).
Proof.
  intros H. apply Graph_init_inv in H as (_ & _ & _ & _ & _ & _ & Ha & _).
  rewrite Ha. simpl. split; [done|]. split; [apply first_seen_NoDup|].
  split; [apply first_seen_elem|]. split; [apply first_seen_from_sublist|].
  exists (first_index (rows a) <$> first_seen (rows a)).
  split; [apply first_seen_indices_sorted|]. split.
  - intros i. rewrite list_elem_of_fmap. split.
    + intros (r & -> & Hr). rewrite first_seen_elem in Hr. exists r.
      split; [by apply first_index_lookup|]. apply first_index_least.
    + intros (r & Hr & Hleast). exists r.
      assert (r ∈ rows a) as Hin by (eapply list_elem_of_lookup_2; eauto).
      split; [|by apply first_seen_elem].
      pose proof (first_index_lookup _ _ Hin) as Hf.
      destruct (Nat.lt_trichotomy i (first_index (rows a) r)) as [Hlt|[->|Hgt]];
        [|done|].
      * by apply first_index_least in Hlt.
      * by apply Hleast in Hgt.
  - apply Forall2_fmap_l, Forall_Forall2_diag, Forall_forall.
    intros r Hr. rewrite first_seen_elem in Hr. by apply first_index_lookup.
Qed.

Lemma C8_stored_rows_first_seen_witness :
  exists g,
    Graph_init DirectedGraph
      (np_array_of_pairs [(1, 0); (0, 2); (1, 0); (2, 1); (0, 2)]) = Ret g /\
    rows (adjacency_array g) = [[1; 0]; [0; 2]; [2; 1]].
Proof.
  eexists. split; [vm_compute; reflexivity|].
  pose proof (C8_stored_rows_first_seen DirectedGraph
    (np_array_of_pairs [(1, 0); (0, 2); (1, 0); (2, 1); (0, 2)]) _
    eq_refl) as (H & _).
  exact H.
Defined.

(** C4, as the code has it. For every array accepted by [Graph.__init__],
    [n_vertices] is the largest entry of the array plus one, and it is at
    least 1; it is at least 2 exactly when some entry is not 0, that is,
    unless the only edge is the self-loop [[0, 0]]. *)
Theorem C4_n_vertices_max_plus_one (c : klass) (a : ndarray) (g : graph) :
  Graph_init c a = Ret g ->
  exists n,
    n_vertices g = Ret n /\
    is_max (n - 1) (ravel a) /\
    is_max (n - 1) (ravel (adjacency_array g)) /\
    1 <= n /\
    (2 <= n <-> exists x, x ∈ ravel a /\ x ≠ 0).
Proof.
  intros H. pose proof (Graph_init_inv _ _ _ H) as (_ & _ & _ & _ & _ & _ & Ha & _).
  apply Graph_init_ok in H as (n & [Hn _] & Hn1 & Hmax & Hmin).
  exists n. split; [done|]. split; [done|]. split.
  { rewrite Ha. eapply is_max_ext; [|exact Hmax].
    intros x. symmetry. apply ravel_first_seen. }
  split; [done|]. destruct Hmax as [Hin Hle], Hmin as [_ Hge]. split.
  - intros H2. exists (n - 1). split; [done|lia].
  - intros (x & Hx & Hx0). pose proof (Hle _ Hx). pose proof (Hge _ Hx). lia.
Qed.

Lemma C4_n_vertices_max_plus_one_witness :
  exists g,
    Graph_init UndirectedGraph (np_array_of_pairs [(0, 1); (2, 1)]) = Ret g /\
    n_vertices g = Ret 3.
Proof.
  eexists. split; [vm_compute; reflexivity|].
  destruct (C4_n_vertices_max_plus_one UndirectedGraph
              (np_array_of_pairs [(0, 1); (2, 1)]) _ eq_refl)
    as (n & Hn & _).
  vm_compute. reflexivity.
Defined.

(** C4, as stated, fails: the array [[0, 0]] is accepted and gives a graph
    with one vertex. *)
Lemma C4_counterexample :
  ~ (forall (c : klass) (a : ndarray) (g : graph),
       nd_wf a -> Graph_init c a = Ret g ->
       exists n, n_vertices g = Ret n /\ is_max (n - 1) (ravel a) /\ 2 <= n).
Proof.
  intros H.
  destruct (H UndirectedGraph (np_array_of_pairs [(0, 0)]) _
              ltac:(repeat constructor) eq_refl) as (n & Hn & _ & H2).
  vm_compute in Hn. injection Hn as <-. lia.
Qed.

(* ================================================================== *)
(** ** Path search *)

(** *** The start vertex is the end vertex *)

(** C10. For every graph and every integer [v], in the range of the
    vertices or not, [find_path(v, v)] returns [[v]], [find_all_paths(v, v)]
    returns [[[v]]] and [find_shortest_path(v, v)] returns [[v]]: the test
    [start == end] comes before the range test. *)
Theorem C10_start_is_end (g : graph) (v : Z) :
  find_path g v v = Ret (Some [v]) /\
  find_all_paths g v v = Ret [[v]] /\
  find_shortest_path g v v = Ret (Some [v]).
Proof.
  unfold find_path, find_all_paths, find_shortest_path, search_fuel. simpl.
  by rewrite bool_decide_true.
Qed.

(** *** The loops over the neighbours *)

Lemma find_path_loop_total rec path vs :
  (forall v, v ∈ vs -> v ∉ path -> exists r, rec v = Ret r) ->
  exists r, find_path_loop rec path vs = Ret r.
Proof.
  induction vs as [|v vs IH]; simpl; intros Hrec; [eauto|].
  destruct IH as [r Hr]. { intros w Hw. apply Hrec. by right. }
  destruct (decide (v ∈ path)); [eauto|].
  destruct (Hrec v) as [r' ->]; [left|done|]. simpl.
  destruct (truthy r'); eauto.
Qed.

Lemma find_all_paths_loop_total rec path vs paths :
  (forall v, v ∈ vs -> v ∉ path -> exists r, rec v = Ret r) ->
  exists r, find_all_paths_loop rec path vs paths = Ret r.
Proof.
  revert paths. induction vs as [|v vs IH]; simpl; intros paths Hrec; [eauto|].
  assert (forall w, w ∈ vs -> w ∉ path -> exists r, rec w = Ret r) as Hrec'.
  { intros w Hw. apply Hrec. by right. }
  destruct (decide (v ∈ path)); [eauto|].
  destruct (Hrec v) as [r' ->]; [left|done|]. simpl. eauto.
Qed.

Lemma find_shortest_path_loop_total rec path vs shortest :
  (forall v, v ∈ vs -> v ∉ path -> exists r, rec v = Ret r) ->
  exists r, find_shortest_path_loop rec path vs shortest = Ret r.
Proof.
  revert shortest.
  induction vs as [|v vs IH]; simpl; intros shortest Hrec; [eauto|].
  assert (forall w, w ∈ vs -> w ∉ path -> exists r, rec w = Ret r) as Hrec'.
  { intros w Hw. apply Hrec. by right. }
  destruct (decide (v ∈ path)); [eauto|].
  destruct (Hrec v) as [r' ->]; [left|done|]. simpl.
  destruct (truthy r'); [|eauto].
  destruct (negb (truthy shortest) || _); eauto.
Qed.

(** *** The bound on the depth of the recursion is enough *)

Lemma elem_of_range n v : v ∈ range n <-> 0 <= v < n.
Proof.
  unfold range. rewrite list_elem_of_fmap. setoid_rewrite elem_of_seq. split.
  - intros (k & -> & Hk). lia.
  - intros Hv. exists (Z.to_nat v). lia.
Qed.

Lemma length_range n : length (range n) = Z.to_nat n.
Proof. unfold range. by rewrite length_fmap, length_seq. Qed.

Lemma length_filter_strict {A} (P Q : A -> Prop)
    `{!forall x, Decision (P x)} `{!forall x, Decision (Q x)} (l : list A) v :
  (forall x, Q x -> P x) -> v ∈ l -> P v -> ~ Q v ->
  (length (filter Q l) < length (filter P l))%nat.
Proof.
  intros HQP. induction l as [|x l IH]; intros Hv HP HQ.
  - by apply elem_of_nil in Hv.
  - assert (length (filter Q l) <= length (filter P l))%nat as Hle.
    { clear -HQP. induction l as [|y l IH]; [done|].
      rewrite !filter_cons. destruct (decide (Q y)) as [Hy|Hy].
      - rewrite decide_True by auto. simpl. lia.
      - destruct (decide (P y)); simpl; lia. }
    rewrite !filter_cons. apply elem_of_cons in Hv as [<-|Hv].
    + rewrite decide_False, decide_True by done. simpl. lia.
    + specialize (IH Hv HP HQ). destruct (decide (Q x)) as [Hx|Hx].
      * rewrite decide_True by auto. simpl. lia.
      * destruct (decide (P x)); simpl; lia.
Qed.

Lemma free_vertices_snoc n path v :
  0 <= v < n -> v ∉ path ->
  (free_vertices n (path ++ [v]) < free_vertices n path)%nat.
Proof.
  intros Hv Hnot. unfold free_vertices.
  apply (length_filter_strict _ _ _ v).
  - intros x Hx Hin. apply Hx, elem_of_app. by left.
  - by apply elem_of_range.
  - done.
  - intros Hx. apply Hx, elem_of_app. right. left.
Qed.

Lemma graph_ok_neighbours g n start :
  graph_ok g n -> 0 <= start < n ->
  exists vs, py_getitem (adjacency_list g) start = Ret vs /\
             Forall (fun v => 0 <= v < n) vs.
Proof.
  intros (_ & Hn & Hlen & Hall) Hs.
  destruct (py_getitem_in_range (adjacency_list g) start) as (vs & Hvs & Hl);
    [lia|].
  exists vs. split; [done|]. eapply Forall_lookup_1; eauto.
Qed.

Lemma find_path_rec_total g n end_ fuel start path :
  graph_ok g n -> start ∉ path -> (free_vertices n path < fuel)%nat ->
  exists r, find_path_rec fuel g start end_ path = Ret r.
Proof.
  intros Hok. revert start path.
  induction fuel as [|fuel IH]; intros start path Hnot Hfuel; [lia|]. simpl.
  case_bool_decide; [eauto|]. destruct Hok as [Hn Hadj] eqn:E. rewrite Hn. simpl.
  case_bool_decide as Hr; [eauto|].
  destruct (graph_ok_neighbours g n start Hok) as (vs & -> & Hvs); [lia|]. simpl.
  apply find_path_loop_total. intros v Hv Hvp.
  rewrite Forall_forall in Hvs. apply IH; [done|].
  pose proof (free_vertices_snoc n path start ltac:(lia) Hnot). lia.
Qed.

Lemma find_all_paths_rec_total g n end_ fuel start path :
  graph_ok g n -> start ∉ path -> (free_vertices n path < fuel)%nat ->
  exists r, find_all_paths_rec fuel g start end_ path = Ret r.
Proof.
  intros Hok. revert start path.
  induction fuel as [|fuel IH]; intros start path Hnot Hfuel; [lia|]. simpl.
  case_bool_decide; [eauto|]. destruct Hok as [Hn Hadj] eqn:E. rewrite Hn. simpl.
  case_bool_decide as Hr; [eauto|].
  destruct (graph_ok_neighbours g n start Hok) as (vs & -> & Hvs); [lia|]. simpl.
  apply find_all_paths_loop_total. intros v Hv Hvp.
  rewrite Forall_forall in Hvs. apply IH; [done|].
  pose proof (free_vertices_snoc n path start ltac:(lia) Hnot). lia.
Qed.

Lemma find_shortest_path_rec_total g n end_ fuel start path :
  graph_ok g n -> start ∉ path -> (free_vertices n path < fuel)%nat ->
  exists r, find_shortest_path_rec fuel g start end_ path = Ret r.
Proof.
  intros Hok. revert start path.
  induction fuel as [|fuel IH]; intros start path Hnot Hfuel; [lia|]. simpl.
  case_bool_decide; [eauto|]. destruct Hok as [Hn Hadj] eqn:E. rewrite Hn. simpl.
  case_bool_decide as Hr; [eauto|].
  destruct (graph_ok_neighbours g n start Hok) as (vs & -> & Hvs); [lia|]. simpl.
  apply find_shortest_path_loop_total. intros v Hv Hvp.
  rewrite Forall_forall in Hvs. apply IH; [done|].
  pose proof (free_vertices_snoc n path start ltac:(lia) Hnot). lia.
Qed.

Lemma search_fuel_enough g n :
  graph_ok g n -> (free_vertices n [] < search_fuel g)%nat.
Proof.
  intros (_ & _ & Hlen & _). unfold free_vertices, search_fuel.
  pose proof (length_filter (fun v => v ∉ []) (range n)) as H.
  rewrite length_range in H. lia.
Qed.

(** *** Vertices out of range *)

Lemma out_of_range_start g n fuel start end_ path :
  n_vertices g = Ret n -> start ≠ end_ -> ~ in_range n start ->
  find_path_rec (S fuel) g start end_ path = Ret None /\
  find_all_paths_rec (S fuel) g start end_ path = Ret [] /\
  find_shortest_path_rec (S fuel) g start end_ path = Ret None.
Proof.
  intros Hn Hne Hr. unfold in_range in Hr. simpl.
  rewrite bool_decide_false by done. rewrite Hn. simpl.
  rewrite bool_decide_true by lia. done.
Qed.

Lemma find_path_rec_end_out_of_range g n end_ fuel start path r :
  graph_ok g n -> ~ in_range n end_ -> start ≠ end_ ->
  find_path_rec fuel g start end_ path = Ret r -> r = None.
Proof.
  intros Hok Hend. revert start path r.
  induction fuel as [|fuel IH]; intros start path r Hne; [discriminate|]. simpl.
  rewrite bool_decide_false by done. destruct Hok as [Hn Hadj] eqn:E.
  rewrite Hn. simpl. case_bool_decide as Hr; [congruence|].
  destruct (graph_ok_neighbours g n start Hok) as (vs & -> & Hvs); [lia|]. simpl.
  rewrite Forall_forall in Hvs. clear E. revert r.
  induction vs as [|v vs IHvs]; simpl; intros r; [congruence|].
  assert (forall x, x ∈ vs -> 0 <= x < n) as Hvs' by (intros; apply Hvs; by right).
  destruct (decide (v ∈ path ++ [start])); [auto|].
  destruct (find_path_rec fuel g v end_ (path ++ [start])) as [r'| |] eqn:Hrec;
    simpl; try discriminate.
  apply IH in Hrec as ->; [simpl; auto|].
  intros ->. apply Hend, Hvs. left.
Qed.

Lemma find_all_paths_rec_end_out_of_range g n end_ fuel start path r :
  graph_ok g n -> ~ in_range n end_ -> start ≠ end_ ->
  find_all_paths_rec fuel g start end_ path = Ret r -> r = [].
Proof.
  intros Hok Hend. revert start path r.
  induction fuel as [|fuel IH]; intros start path r Hne; [discriminate|]. simpl.
  rewrite bool_decide_false by done. destruct Hok as [Hn Hadj] eqn:E.
  rewrite Hn. simpl. case_bool_decide as Hr; [congruence|].
  destruct (graph_ok_neighbours g n start Hok) as (vs & -> & Hvs); [lia|]. simpl.
  rewrite Forall_forall in Hvs. clear E. revert r.
  induction vs as [|v vs IHvs]; simpl; intros r; [congruence|].
  assert (forall x, x ∈ vs -> 0 <= x < n) as Hvs' by (intros; apply Hvs; by right).
  destruct (decide (v ∈ path ++ [start])); [auto|].
  destruct (find_all_paths_rec fuel g v end_ (path ++ [start])) as [r'| |] eqn:Hrec;
    simpl; try discriminate.
  apply IH in Hrec as ->; [simpl; auto|].
  intros ->. apply Hend, Hvs. left.
Qed.

Lemma find_shortest_path_rec_end_out_of_range g n end_ fuel start path r :
  graph_ok g n -> ~ in_range n end_ -> start ≠ end_ ->
  find_shortest_path_rec fuel g start end_ path = Ret r -> r = None.
Proof.
  intros Hok Hend. revert start path r.
  induction fuel as [|fuel IH]; intros start path r Hne; [discriminate|]. simpl.
  rewrite bool_decide_false by done. destruct Hok as [Hn Hadj] eqn:E.
  rewrite Hn. simpl. case_bool_decide as Hr; [congruence|].
  destruct (graph_ok_neighbours g n start Hok) as (vs & -> & Hvs); [lia|]. simpl.
  rewrite Forall_forall in Hvs. clear E. revert r.
  induction vs as [|v vs IHvs]; simpl; intros r; [congruence|].
  assert (forall x, x ∈ vs -> 0 <= x < n) as Hvs' by (intros; apply Hvs; by right).
  destruct (decide (v ∈ path ++ [start])); [auto|].
  destruct (find_shortest_path_rec fuel g v end_ (path ++ [start]))
    as [r'| |] eqn:Hrec; simpl; try discriminate.
  apply IH in Hrec as ->; [simpl; auto|].
  intros ->. apply Hend, Hvs. left.
Qed.

(** C3, as the code has it. On every graph accepted by construction the
    three searches return for all arguments and never raise.  When [start]
    and [end] differ and one of them is outside [[0, n_vertices)], the
    answer is "no path" ([None], or the empty list for [find_all_paths]),
    at the top-level call; and a call inside the recursion, with any path
    walked so far, answers "no path" for an out-of-range [start] too. *)
Theorem C3_out_of_range_is_no_path (c : klass) (a : ndarray) (g : graph)
    (start end_ : Z) :
  Graph_init c a = Ret g ->
  exists n, n_vertices g = Ret n /\
    ((exists r, find_path g start end_ = Ret r) /\
     (exists r, find_all_paths g start end_ = Ret r) /\
     (exists r, find_shortest_path g start end_ = Ret r)) /\
    (start ≠ end_ -> ~ in_range n start \/ ~ in_range n end_ ->
       find_path g start end_ = Ret None /\
       find_all_paths g start end_ = Ret [] /\
       find_shortest_path g start end_ = Ret None) /\
    (start ≠ end_ -> ~ in_range n start ->
       forall fuel path,
         find_path_rec (S fuel) g start end_ path = Ret None /\
         find_all_paths_rec (S fuel) g start end_ path = Ret [] /\
         find_shortest_path_rec (S fuel) g start end_ path = Ret None).
Proof.
  intros H. apply Graph_init_ok in H as (n & Hok & _).
  exists n. split; [apply Hok|].
  pose proof (search_fuel_enough g n Hok) as Hfuel.
  pose proof (find_path_rec_total g n end_ _ start [] Hok
                ltac:(apply not_elem_of_nil) Hfuel) as [r1 H1].
  pose proof (find_all_paths_rec_total g n end_ _ start [] Hok
                ltac:(apply not_elem_of_nil) Hfuel) as [r2 H2].
  pose proof (find_shortest_path_rec_total g n end_ _ start [] Hok
                ltac:(apply not_elem_of_nil) Hfuel) as [r3 H3].
  split.
  { unfold find_path, find_all_paths, find_shortest_path.
    split; [by exists r1|]. split; [by exists r2|by exists r3]. }
  split.
  - intros Hne [Hs|He].
    + apply (out_of_range_start g n); [apply Hok|done..].
    + unfold find_path, find_all_paths, find_shortest_path.
      rewrite H1, H2, H3.
      apply find_path_rec_end_out_of_range with (n := n) in H1 as ->; [|done..].
      apply find_all_paths_rec_end_out_of_range with (n := n) in H2 as ->;
        [|done..].
      apply find_shortest_path_rec_end_out_of_range with (n := n) in H3 as ->;
        done.
  - intros Hne Hs fuel path.
    apply (out_of_range_start g n); [apply Hok|done..].
Qed.

Lemma C3_out_of_range_is_no_path_witness :
  exists g,
    Graph_init UndirectedGraph (np_array_of_pairs [(0, 1); (1, 2)]) = Ret g /\
    find_path g 7 0 = Ret None /\
    find_all_paths g 0 (-1) = Ret [].
Proof.
  eexists. split; [vm_compute; reflexivity|].
  destruct (C3_out_of_range_is_no_path UndirectedGraph
              (np_array_of_pairs [(0, 1); (1, 2)]) _ 7 0 eq_refl)
    as (n & Hn & _ & H70 & _).
  destruct (C3_out_of_range_is_no_path UndirectedGraph
              (np_array_of_pairs [(0, 1); (1, 2)]) _ 0 (-1) eq_refl)
    as (n' & Hn' & _ & H01 & _).
  vm_compute in Hn, Hn'. injection Hn as <-. injection Hn' as <-.
  split.
  - apply H70; [lia|]. left. unfold in_range. lia.
  - apply H01; [lia|]. right. unfold in_range. lia.
Defined.

(** C3, as stated, fails: no search raises on an out-of-range [start] at the
    top-level call. *)
Lemma C3_counterexample :
  ~ (forall (c : klass) (a : ndarray) (g : graph) (start end_ : Z),
       Graph_init c a = Ret g ->
       (forall n, n_vertices g = Ret n -> ~ in_range n start) ->
       exists e, find_path g start end_ = Raise e).
Proof.
  intros H.
  destruct (H UndirectedGraph (np_array_of_pairs [(0, 1); (1, 2)]) _ 7 0 eq_refl)
    as [e He].
  - intros n Hn. vm_compute in Hn. injection Hn as <-. unfold in_range. lia.
  - vm_compute in He. discriminate.
Qed.

(* ================================================================== *)
(** ** C9: the seven-edge example *)

(** C9, as the code has it. The undirected graph built from
    [[0,1],[0,2],[1,2],[1,3],[2,4],[3,4],[3,5]] has 6 vertices,
    [has_cycles()] is true, [find_shortest_path(0, 5)] is [[0, 1, 3, 5]],
    and there are four simple paths from 0 to 4, so [n_paths(0, 4)] is 4. *)
Theorem C9_example_graph :
  exists g,
    Graph_init UndirectedGraph (np_array_of_pairs example_edges) = Ret g /\
    n_vertices g = Ret 6 /\
    has_cycles g = Ret true /\
    find_shortest_path g 0 5 = Ret (Some [0; 1; 3; 5]) /\
    find_all_paths g 0 4 =
      Ret [[0; 1; 2; 4]; [0; 1; 3; 4]; [0; 2; 1; 3; 4]; [0; 2; 4]] /\
    n_paths g 0 4 = Ret 4%nat.
Proof. eexists. split; [reflexivity|]. vm_compute. done. Qed.

(** C9, as stated, fails: [n_paths(0, 4)] is not 2. *)
Lemma C9_counterexample :
  ~ (forall g,
       Graph_init UndirectedGraph (np_array_of_pairs example_edges) = Ret g ->
       has_cycles g = Ret true /\
       (exists p, find_shortest_path g 0 5 = Ret (Some p) /\ length p = 4%nat) /\
       n_paths g 0 4 = Ret 2%nat).
Proof.
  intros H. destruct (H _ eq_refl) as (_ & _ & Hn).
  vm_compute in Hn. discriminate.
Qed.

(* ================================================================== *)
(** ** C1: [is_tree] on directed graphs *)

(** C1 fails on the code. The directed graph [[0,1],[0,2],[1,2],[3,4]] has
    5 vertices, 4 edges and no directed cycle, so [is_tree()] is true and
    [Tree.__init__] accepts it with root 0; but it is not one connected
    tree: vertices 0 and 3 are not joined, and the same edges taken as an
    undirected graph have a cycle.  On the accepted tree
    [depth_of_vertex(3)] then raises [TypeError]. *)
Theorem C1_is_tree_accepts_a_non_tree :
  exists g,
    Graph_init DirectedGraph (np_array_of_pairs dag_edges) = Ret g /\
    n_vertices g = Ret 5 /\ n_edges g = 4%nat /\
    has_cycles g = Ret false /\
    is_tree g = Ret true /\
    ~ linked dag_edges 0 3 /\
    (exists u, Graph_init UndirectedGraph (np_array_of_pairs dag_edges) = Ret u
               /\ has_cycles u = Ret true) /\
    (exists t, Tree_init (np_array_of_pairs dag_edges) 0 = Ret t /\
               depth_of_vertex t 3 = Raise TypeError).
Proof.
  eexists. split; [reflexivity|]. repeat split; try (vm_compute; reflexivity).
  - assert (forall u v, linked dag_edges u v -> u = 0 -> v = 0 \/ v = 1 \/ v = 2)
      as Hinv.
    { induction 1 as [|u v w _ IH Hstep]; intros ->; [auto|].
      specialize (IH eq_refl). unfold dag_edges in Hstep.
      rewrite !elem_of_cons in Hstep.
      destruct Hstep as [Hs|Hs];
        repeat (destruct Hs as [Hs|Hs]; [injection Hs as ? ?; lia|]);
        by apply elem_of_nil in Hs. }
    intros H. apply Hinv in H; lia.
  - eexists. split; [reflexivity|]. vm_compute. reflexivity.
  - eexists. split; [vm_compute; reflexivity|]. vm_compute. reflexivity.
Qed.

(* ================================================================== *)
(** ** C7: depth and parent in a tree *)

Lemma _get_predecessors_list_ok a n preds :
  n_vertices_of a = Ret n ->
  (forall x, x ∈ ravel a -> 0 <= x) ->
  _get_predecessors_list a = Ret preds -> preds_ok preds n.
Proof.
  intros Hn Hpos H. unfold _get_predecessors_list in H. rewrite Hn in H.
  simpl in H.
  unfold n_vertices_of in Hn. inv_bind Hn. injection Hn as <-.
  apply nd_max_Ret in Hx as [_ Hmax].
  eapply (for_each_invariant (fun preds => preds_ok preds (x + 1)) _
            (fun _ => True)); [| | |exact H].
  - intros s e s' _ [Hlen Hall] Hbody.
    inv_bind Hbody. inv_bind Hbody. unfold py_setitem in Hbody.
    destruct (py_norm_index (length s) x1); [|discriminate].
    injection Hbody as <-. split; [by rewrite length_insert|].
    apply Forall_insert; [done|]. intros p [= <-].
    apply nd_get_elem in Hx. pose proof (Hpos _ Hx). pose proof (Hmax _ Hx).
    lia.
  - by apply Forall_true.
  - split; [by rewrite length_replicate|]. apply Forall_replicate. done.
Qed.

Lemma Tree_init_inv a root t :
  Tree_init a root = Ret t ->
  exists n preds,
    n_vertices t = Ret n /\ 0 <= root < n /\
    root_vertex t = Some root /\ predecessors_list t = Some preds /\
    preds_ok preds n /\ cls t = Tree /\
    adjacency_ok (adjacency_list t) n /\
    adjacency_array t = NdArray 2 (first_seen (rows a)) /\
    _get_adjacency_list Tree (adjacency_array t) = Ret (adjacency_list t) /\
    _get_predecessors_list (adjacency_array t) = Ret preds /\
    has_cycles t = Ret false /\ Z.of_nat (n_edges t) = n - 1.
Proof.
  unfold Tree_init. intros H. inv_bind H as g Hg.
  pose proof (Graph_init_inv _ _ _ Hg) as (_ & _ & _ & Hc & _ & _ & Ha & Hadj).
  apply Graph_init_ok in Hg as (n & [Hn Hok] & Hn1 & Hmax & Hmin).
  inv_bind H as tr Htr. inv_bind H as ok Hedges.
  destruct ok; [|discriminate]. simpl in H.
  inv_bind H as u Hchk. inv_bind H as preds Hpreds. injection H as <-.
  exists n, preds. unfold n_vertices, has_cycles, n_edges in *. simpl.
  unfold _check_vertex, n_vertices in Hchk. rewrite Hn in Hchk. simpl in Hchk.
  case_bool_decide as Hroot; [discriminate|].
  assert (preds_ok preds n) as Hpok.
  { eapply _get_predecessors_list_ok; [done| |done].
    intros y. rewrite Ha, ravel_first_seen. apply Hmin. }
  destruct tr; [|discriminate].
  unfold is_tree, has_cycles in Htr. inv_bind Htr as cy Hcy.
  destruct cy; [discriminate|]. rewrite Hc in *.
  rewrite Hn in Hedges. simpl in Hedges.
  injection Hedges as Hedges. apply bool_decide_eq_true in Hedges.
  split; [done|]. split; [lia|]. do 4 (split; [done|]).
  split; [done|]. split; [done|]. split; [done|]. split; [done|].
  split; [exact Hcy|done].
Qed.

Lemma depth_loop_walk root preds fuel x k d :
  depth_loop fuel root preds x k = Ret d ->
  exists m, walk root preds x m /\ d = k + Z.of_nat m /\ (m <= fuel)%nat.
Proof.
  revert x k. induction fuel as [|fuel IH]; intros x k; simpl.
  - destruct (decide (x = Some root)) as [->|]; [|discriminate].
    intros [= <-]. exists 0%nat. split; [constructor|lia].
  - destruct (decide (x = Some root)) as [->|Hx].
    + intros [= <-]. exists 0%nat. split; [constructor|lia].
    + destruct x as [x|]; [|discriminate]. intros H. inv_bind H.
      apply IH in H as (m & Hw & -> & Hm). exists (S m).
      split; [|lia]. econstructor; eauto. congruence.
Qed.

Lemma walk_depth_loop root preds fuel x k m :
  walk root preds x m -> (m <= fuel)%nat ->
  depth_loop fuel root preds x k = Ret (k + Z.of_nat m).
Proof.
  intros Hw. revert fuel k. induction Hw as [|x y m Hx Hy Hw IH]; intros fuel k Hm.
  - destruct fuel; simpl; rewrite decide_True by done; f_equal; lia.
  - destruct fuel as [|fuel]; [lia|]. simpl.
    rewrite decide_False by congruence. rewrite Hy. simpl.
    rewrite IH by lia. f_equal. lia.
Qed.

Lemma walk_functional root preds x m m' :
  walk root preds x m -> walk root preds x m' -> m = m'.
Proof.
  intros Hw. revert m'. induction Hw as [|x y m Hx Hy Hw IH]; intros m' Hw'.
  - inversion Hw'; [done|congruence].
  - inversion Hw' as [|x' y' m'' Hx' Hy' Hw'']; subst; [congruence|].
    rewrite Hy in Hy'. injection Hy' as <-. f_equal. auto.
Qed.

Lemma NoDup_in_range_length n (l : list Z) :
  NoDup l -> Forall (fun v => 0 <= v < n) l -> (length l <= Z.to_nat n)%nat.
Proof.
  intros Hnd Hall. rewrite <- length_range.
  apply submseteq_length, NoDup_submseteq; [done|].
  intros x Hx. apply elem_of_range. rewrite Forall_forall in Hall. auto.
Qed.

Lemma py_getitem_elem {A} (l : list A) i x : py_getitem l i = Ret x -> x ∈ l.
Proof.
  unfold py_getitem. destruct (py_norm_index (length l) i); [|discriminate].
  destruct (l !! n) eqn:E; [|discriminate]. intros [= <-].
  eapply list_elem_of_lookup_2; eauto.
Qed.

(** The vertices on a walk to the root are pairwise different vertices of
    the tree. *)
Lemma walk_vertices root preds n x m :
  preds_ok preds n -> 0 <= root < n ->
  walk root preds (Some x) m -> 0 <= x < n ->
  exists l, length l = S m /\ NoDup l /\
    Forall (fun y => 0 <= y < n /\
                     exists k, (k <= m)%nat /\ walk root preds (Some y) k) l.
Proof.
  intros [Hlen Hall] Hroot Hw. remember (Some x) as ox eqn:E. revert x E.
  induction Hw as [|x y m Hx Hy Hw IH]; intros x' [= <-] Hr.
  - exists [root]. split; [done|]. split; [apply NoDup_singleton|].
    constructor; [|constructor]. split; [done|]. exists 0%nat.
    split; [lia|constructor].
  - assert (exists y', y = Some y') as [y' ->] by (inversion Hw; eauto).
    assert (0 <= y' < n) as Hy'.
    { apply py_getitem_elem in Hy. rewrite Forall_forall in Hall.
      by apply (Hall _ Hy). }
    destruct (IH y' eq_refl Hy') as (l & Hl & Hnd & Hf).
    exists (x :: l). split; [simpl; lia|]. split.
    + constructor; [|done]. intros Hin. rewrite Forall_forall in Hf.
      destruct (Hf _ Hin) as (_ & k & Hk & Hwk).
      assert (walk root preds (Some x) (S m)) as Hsm by (econstructor; eauto).
      pose proof (walk_functional _ _ _ _ _ Hwk Hsm). lia.
    + constructor.
      * split; [done|]. exists (S m). split; [lia|]. econstructor; eauto.
      * eapply Forall_impl; [exact Hf|]. intros z (Hz & k & Hk & Hwk).
        split; [done|]. exists k. split; [lia|done].
Qed.

Lemma walk_bound root preds n x m :
  preds_ok preds n -> 0 <= root < n ->
  walk root preds (Some x) m -> 0 <= x < n -> (S m <= Z.to_nat n)%nat.
Proof.
  intros Hp Hroot Hw Hx.
  destruct (walk_vertices _ _ _ _ _ Hp Hroot Hw Hx) as (l & <- & Hnd & Hf).
  apply NoDup_in_range_length; [done|].
  eapply Forall_impl; [exact Hf|]. by intros z [Hz _].
Qed.

#[local] Arguments depth_loop : simpl never.

(** C7, as the code has it. For every tree accepted by [Tree.__init__],
    [depth_of_vertex(root)] is 0; and for every vertex [v] other than the
    root whose parent is a vertex [p] at which [depth_of_vertex] returns
    [d], [depth_of_vertex(v)] returns [d + 1]. *)
Theorem C7_depth_of_vertex_parent (a : ndarray) (root : Z) (t : graph) :
  Tree_init a root = Ret t ->
  depth_of_vertex t root = Ret 0 /\
  forall v p d,
    v ≠ root -> parent t v = Ret (Some p) -> depth_of_vertex t p = Ret d ->
    depth_of_vertex t v = Ret (d + 1).
Proof.
  intros H.
  apply Tree_init_inv in H
    as (n & preds & Hn & Hroot & Hr & Hp & Hok & _).
  assert (forall v, 0 <= v < n -> _check_vertex t v = Ret ()) as Hcheck.
  { intros v Hv. unfold _check_vertex. rewrite Hn. simpl.
    rewrite bool_decide_false by lia. done. }
  unfold depth_of_vertex, parent, get_root_vertex, get_predecessors_list.
  rewrite Hr, Hp. split.
  - rewrite Hcheck by done. simpl.
    apply (walk_depth_loop root preds _ (Some root) 0 0%nat); [constructor|lia].
  - intros v p d Hv Hpar Hd.
    inv_bind Hpar. inv_bind Hd. simpl in Hpar, Hd. rewrite Hx. simpl.
    unfold _check_vertex in Hx, Hx0. rewrite Hn in Hx, Hx0. simpl in Hx, Hx0.
    case_bool_decide as Hvr; [discriminate|].
    case_bool_decide as Hpr; [discriminate|].
    apply depth_loop_walk in Hd as (m & Hw & -> & _).
    assert (walk root preds (Some v) (S m)) as Hwv by (econstructor; eauto).
    pose proof (walk_bound _ _ _ _ _ Hok Hroot Hwv ltac:(lia)) as Hb.
    destruct Hok as [Hlen _].
    rewrite (walk_depth_loop _ _ _ _ _ _ Hwv) by lia. f_equal. lia.
Qed.

Lemma C7_depth_of_vertex_parent_witness :
  exists t,
    Tree_init (np_array_of_pairs [(0, 1); (0, 2); (1, 3); (1, 4); (2, 5)]) 0
      = Ret t /\
    depth_of_vertex t 0 = Ret 0 /\
    depth_of_vertex t 4 = Ret 2.
Proof.
  eexists. split; [vm_compute; reflexivity|].
  destruct (C7_depth_of_vertex_parent
              (np_array_of_pairs [(0, 1); (0, 2); (1, 3); (1, 4); (2, 5)]) 0 _
              eq_refl) as [H0 Hstep].
  split; [exact H0|].
  apply (Hstep 4 1 1); [lia|vm_compute; reflexivity|].
  apply (Hstep 1 0 0); [lia|vm_compute; reflexivity|exact H0].
Defined.

(** C7, as stated, fails: [Tree.__init__] accepts the edges [[0,1],[1,2]]
    with root 1, and [depth_of_vertex(0)] raises on that tree. *)
Lemma C7_counterexample :
  ~ (forall (a : ndarray) (root : Z) (t : graph) (v : Z),
       Tree_init a root = Ret t ->
       _check_vertex t v = Ret () -> v ≠ root ->
       exists p d, parent t v = Ret (Some p) /\
                   depth_of_vertex t p = Ret d /\
                   depth_of_vertex t v = Ret (d + 1)).
Proof.
  intros H.
  destruct (H (np_array_of_pairs [(0, 1); (1, 2)]) 1 _ 0 eq_refl)
    as (p & d & Hp & _); [vm_compute; reflexivity|lia|].
  vm_compute in Hp. discriminate.
Qed.

(* ================================================================== *)
(** ** C2 and C6: masking a point-graph *)

Section FromMask.
Variable point : Type.
Variable mask_adjacency_array : list bool -> ndarray -> res ndarray.
Variable mask_adjacency_array_tree :
  list bool -> ndarray -> list (list Z) -> list (option Z) -> Z ->
  res ndarray.
Variable reindex_adjacency_array : ndarray -> res ndarray.

Abbreviation pointgraph := (pointgraph point).
Abbreviation store := (gmap loc pointgraph).
Abbreviation from_mask' :=
  (from_mask point mask_adjacency_array mask_adjacency_array_tree
             reindex_adjacency_array).
Abbreviation undirected_from_mask' :=
  (PointUndirectedGraph_from_mask point mask_adjacency_array
                                  reindex_adjacency_array).
Abbreviation directed_from_mask' :=
  (directed_from_mask point mask_adjacency_array_tree
                      reindex_adjacency_array).

Lemma preserves_refl (h : store) : preserves h h.
Proof. by intros l o. Qed.

Lemma fresh_not_in (h : store) : h !! fresh (dom h) = None.
Proof. apply not_elem_of_dom, is_fresh. Qed.

Lemma preserves_alter_fresh (h0 h : store) f :
  preserves h0 h -> preserves h0 (alter f (fresh (dom h0)) h).
Proof.
  intros Hp l o Hl. rewrite lookup_alter_ne; [by apply Hp|].
  intros <-. by rewrite fresh_not_in in Hl.
Qed.

Lemma try_preserves {A B} (h0 h : store) (m : res A)
    (k : A -> res B * store) :
  preserves h0 h -> (forall a, m = Ret a -> preserves h0 (k a).2) ->
  preserves h0 (try_ point h m k).2.
Proof. intros Hh Hk. destruct m; simpl; auto. Qed.

Lemma obj_copy_Some self o (h : store) :
  h !! self = Some o ->
  obj_copy point self h = (Ret (fresh (dom h)), <[fresh (dom h) := o]> h).
Proof. intros H. unfold obj_copy. by rewrite H. Qed.

Lemma preserves_insert_fresh (h : store) o :
  preserves h (<[fresh (dom h) := o]> h).
Proof.
  intros l o' Hl. rewrite lookup_insert_ne; [done|].
  intros <-. by rewrite fresh_not_in in Hl.
Qed.

(** Masking is all or nothing for the instance it is called on, and for
    every instance there is: whatever [from_mask] returns or raises, all
    instances of the store are as they were. *)
Lemma PointUndirectedGraph_from_mask_preserves self mask h :
  preserves h (undirected_from_mask' self mask h).2.
Proof.
  unfold PointUndirectedGraph_from_mask, deref.
  destruct (h !! self) as [o|] eqn:Hself; simpl; [|apply preserves_refl].
  case_bool_decide; [apply preserves_refl|].
  rewrite (obj_copy_Some _ _ _ Hself). simpl.
  pose proof (preserves_insert_fresh h o) as H1.
  destruct (np_all mask); [done|].
  rewrite lookup_insert_eq. simpl.
  apply try_preserves; [done|]. intros masked_adj _.
  case_bool_decide; [done|].
  apply try_preserves; [done|]. intros a _.
  apply try_preserves; [by apply preserves_alter_fresh|]. intros adj _.
  simpl. unfold set_points, set_adjacency_list, set_adjacency_array.
  by repeat apply preserves_alter_fresh.
Qed.

Lemma directed_from_mask_preserves self mask h :
  preserves h (directed_from_mask' self mask h).2.
Proof.
  unfold directed_from_mask, deref.
  destruct (h !! self) as [o|] eqn:Hself; simpl; [|apply preserves_refl].
  case_bool_decide; [apply preserves_refl|].
  rewrite (obj_copy_Some _ _ _ Hself). simpl.
  pose proof (preserves_insert_fresh h o) as H1.
  destruct (np_all mask); [done|].
  rewrite lookup_insert_eq. simpl.
  apply try_preserves; [done|]. intros preds _.
  apply try_preserves; [done|]. intros root _.
  apply try_preserves; [done|]. intros masked_adj _.
  case_bool_decide; [done|].
  apply try_preserves; [done|]. intros a _.
  unfold set_points, set_adjacency_list, set_adjacency_array,
    set_predecessors_list.
  apply try_preserves; [by repeat apply preserves_alter_fresh|]. intros adj _.
  apply try_preserves; [by repeat apply preserves_alter_fresh|].
  intros preds' _. simpl. by repeat apply preserves_alter_fresh.
Qed.

Lemma from_mask_preserves self mask h :
  preserves h (from_mask' self mask h).2.
Proof.
  unfold from_mask.
  destruct (h !! self) as [o|]; [|apply preserves_refl].
  destruct (cls (base point o)).
  - apply PointUndirectedGraph_from_mask_preserves.
  - apply directed_from_mask_preserves.
  - apply directed_from_mask_preserves.
Qed.

(** With an all-true mask of the right length, [from_mask] returns a new
    instance with the attributes of the original: the same edges and
    the same points. *)
Lemma from_mask_all_true self mask (h : store) o :
  h !! self = Some o -> length mask = n_points point o ->
  np_all mask = true ->
  from_mask' self mask h =
    (Ret (fresh (dom h)), <[fresh (dom h) := o]> h).
Proof.
  intros Hself Hlen Hall. unfold from_mask. rewrite Hself.
  assert (undirected_from_mask' self mask h =
            (Ret (fresh (dom h)), <[fresh (dom h) := o]> h)) as HU.
  { unfold PointUndirectedGraph_from_mask, deref.
    rewrite Hself. simpl. rewrite bool_decide_false by (intros Hne; by apply Hne).
    rewrite (obj_copy_Some _ _ _ Hself). simpl. by rewrite Hall. }
  assert (directed_from_mask' self mask h =
            (Ret (fresh (dom h)), <[fresh (dom h) := o]> h)) as HD.
  { unfold directed_from_mask, deref.
    rewrite Hself. simpl. rewrite bool_decide_false by (intros Hne; by apply Hne).
    rewrite (obj_copy_Some _ _ _ Hself). simpl. by rewrite Hall. }
  by destruct (cls (base point o)).
Qed.

(** A mask that is not all true, on an undirected point-graph. *)
Lemma PointUndirectedGraph_from_mask_spec self mask (h : store) o masked_adj :
  h !! self = Some o -> cls (base point o) = UndirectedGraph ->
  length mask = n_points point o -> np_all mask = false ->
  mask_adjacency_array mask (adjacency_array (base point o)) = Ret masked_adj ->
  let pg := fresh (dom h) in
  (shape0 masked_adj = 0%nat ->
     from_mask' self mask h =
       (Raise (ValueError MaskDeletesAllEdges), <[pg := o]> h)) /\
  (forall a adj,
     shape0 masked_adj ≠ 0%nat ->
     reindex_adjacency_array masked_adj = Ret a ->
     _get_adjacency_list UndirectedGraph a = Ret adj ->
     from_mask' self mask h =
       (Ret pg,
        <[pg := PointGraph point
                  (Graph UndirectedGraph a adj
                         (root_vertex (base point o))
                         (predecessors_list (base point o)))
                  (select_rows point (points point o) mask)]> h)).
Proof.
  intros Hself Hcls Hlen Hall Hmask pg. unfold from_mask.
  rewrite Hself, Hcls.
  unfold PointUndirectedGraph_from_mask, deref.
  rewrite Hself. simpl. rewrite bool_decide_false by (intros Hne; by apply Hne).
  rewrite (obj_copy_Some _ _ _ Hself). simpl. rewrite Hall.
  fold pg. rewrite lookup_insert_eq. simpl. rewrite Hmask. simpl. split.
  - intros H0. by rewrite bool_decide_true.
  - intros a adj H0 Ha Hadj. rewrite bool_decide_false by done.
    rewrite Ha. simpl. rewrite Hadj. simpl. f_equal.
    unfold set_points, set_adjacency_list, set_adjacency_array.
    rewrite !alter_insert_eq. simpl. by rewrite Hcls.
Qed.

(** A mask that is not all true, on a point-tree, when the helper leaves
    no edge. *)
Lemma PointTree_from_mask_no_edges self mask (h : store) o preds root masked_adj :
  h !! self = Some o -> cls (base point o) = Tree ->
  predecessors_list (base point o) = Some preds ->
  root_vertex (base point o) = Some root ->
  length mask = n_points point o -> np_all mask = false ->
  mask_adjacency_array_tree mask (adjacency_array (base point o))
    (adjacency_list (base point o)) preds root = Ret masked_adj ->
  shape0 masked_adj = 0%nat ->
  from_mask' self mask h =
    (Raise (ValueError MaskDeletesAllEdges), <[fresh (dom h) := o]> h).
Proof.
  intros Hself Hcls Hp Hr Hlen Hall Hmask H0. unfold from_mask.
  rewrite Hself, Hcls.
  unfold PointTree_from_mask, directed_from_mask, deref.
  rewrite Hself. simpl. rewrite bool_decide_false by (intros Hne; by apply Hne).
  rewrite (obj_copy_Some _ _ _ Hself). simpl. rewrite Hall.
  rewrite lookup_insert_eq. simpl.
  unfold get_predecessors_list, get_root_vertex. rewrite Hp, Hr. simpl.
  rewrite Hmask. simpl. by rewrite bool_decide_true.
Qed.

(** C2 fails on the code, for directed point-graphs. For every point-graph
    built by [PointDirectedGraph.__init__] and every mask of the right
    length that is not all true, [from_mask] raises [AttributeError]: it
    reads [predecessors_list], which only trees have.  (On undirected
    point-graphs [from_mask] does what C2 says, see
    [PointUndirectedGraph_from_mask_spec].) *)
Theorem C2_directed_from_mask_raises (pts : list point) (a : ndarray)
    (o : pointgraph) (self : loc) (mask : list bool) (h : store) :
  PointGraph_init point DirectedGraph pts a = Ret o ->
  h !! self = Some o ->
  length mask = n_points point o -> np_all mask = false ->
  from_mask' self mask h = (Raise AttributeError, <[fresh (dom h) := o]> h).
Proof.
  intros Hinit Hself Hlen Hall. unfold PointGraph_init in Hinit.
  inv_bind Hinit as u Hu. inv_bind Hinit as g Hg. injection Hinit as <-.
  apply Graph_init_inv in Hg as (_ & _ & _ & Hc & Hr & Hp & _).
  unfold from_mask. rewrite Hself. simpl. rewrite Hc.
  unfold PointDirectedGraph_from_mask, directed_from_mask, deref.
  rewrite Hself. simpl. rewrite bool_decide_false by (intros Hne; by apply Hne).
  rewrite (obj_copy_Some _ _ _ Hself). simpl. rewrite Hall.
  rewrite lookup_insert_eq. simpl.
  unfold get_predecessors_list. simpl. by rewrite Hp.
Qed.
End FromMask.

Lemma C2_directed_from_mask_raises_witness :
  exists o,
    PointGraph_init (list Z) DirectedGraph [[0; 0]; [1; 0]; [2; 0]]
      (np_array_of_pairs [(0, 1); (1, 2)]) = Ret o /\
    (from_mask (list Z) (fun _ a => Ret a) (fun _ a _ _ _ => Ret a)
       (fun a => Ret a) 0%nat [true; true; false] {[0%nat := o]}).1
    = Raise AttributeError.
Proof.
  eexists. split; [vm_compute; reflexivity|].
  rewrite (C2_directed_from_mask_raises (list Z) (fun _ a => Ret a)
             (fun _ a _ _ _ => Ret a) (fun a => Ret a)
             [[0; 0]; [1; 0]; [2; 0]] (np_array_of_pairs [(0, 1); (1, 2)])
             _ 0%nat [true; true; false] {[0%nat := _]}
             eq_refl (lookup_singleton_eq _ _) eq_refl eq_refl).
  reflexivity.
Defined.

(** C6 fails on the code, for directed point-graphs. The point-graph of
    [PointDirectedGraph] with the edge [[0, 1]] and two points is masked
    with [[False, False]], which keeps no edge: whatever the helpers do,
    [from_mask] raises [AttributeError], not the [ValueError] 'The provided
    mask deletes all edges.'; the instance it was called on is as it was.
    (The other parts of C6 hold: see [from_mask_preserves],
    [from_mask_all_true], [PointUndirectedGraph_from_mask_spec] and
    [PointTree_from_mask_no_edges].) *)
Theorem C6_directed_mask_deleting_all_edges
    (mask_adjacency_array : list bool -> ndarray -> res ndarray)
    (mask_adjacency_array_tree :
       list bool -> ndarray -> list (list Z) -> list (option Z) -> Z ->
       res ndarray)
    (reindex_adjacency_array : ndarray -> res ndarray) :
  exists o,
    PointGraph_init (list Z) DirectedGraph [[0; 0]; [1; 1]]
      (np_array_of_pairs [(0, 1)]) = Ret o /\
    let r := from_mask (list Z) mask_adjacency_array mask_adjacency_array_tree
               reindex_adjacency_array 0%nat [false; false] {[0%nat := o]} in
    r.1 = Raise AttributeError /\
    r.1 ≠ Raise (ValueError MaskDeletesAllEdges) /\
    r.2 !! 0%nat = Some o.
Proof.
  eexists. split; [vm_compute; reflexivity|]. simpl.
  split; [reflexivity|]. split; [discriminate|].
  apply from_mask_preserves. apply lookup_singleton_eq.
Qed.

(* ================================================================== *)
(** ** C5: the minimum spanning tree as a rooted tree *)

(** *** One turn of the loop of [_correct_tree_edges] *)

Lemma list_remove_app pre x l :
  x ∉ pre -> list_remove (pre ++ x :: l) x = Ret (pre ++ l).
Proof.
  induction pre as [|y pre IH]; simpl; intros Hx.
  - by rewrite decide_True.
  - rewrite decide_False by (intros ->; apply Hx; left).
    rewrite IH; [done|]. intros H. apply Hx. by right.
Qed.

Lemma for_each_list_remove_filter (P : Z * Z -> Prop)
    `{!forall x, Decision (P x)} pre E :
  Forall (fun x => ~ P x) pre ->
  for_each list_remove (filter P E) (pre ++ E)
  = Ret (pre ++ filter (fun x => ~ P x) E).
Proof.
  revert pre. induction E as [|x E IH]; intros pre Hpre; [done|].
  rewrite !filter_cons. destruct (decide (P x)) as [Hx|Hx].
  - rewrite decide_False by tauto. simpl.
    rewrite list_remove_app; [by apply IH|].
    intros Hin. rewrite Forall_forall in Hpre. by apply (Hpre x).
  - rewrite decide_True by done.
    specialize (IH (pre ++ [x])). rewrite <- !app_assoc in IH. simpl in IH.
    apply IH. apply Forall_app. split; [done|]. by constructor.
Qed.

Lemma _get_children_acc u cur acc :
  Forall (fun m => in_pair u m) cur ->
  for_each (fun c m =>
      i ← pair_index m u;
      if bool_decide (i = 0%nat) then Ret (c ++ [m.2]) else Ret (c ++ [m.1]))
    cur acc = Ret (acc ++ (other u <$> cur)).
Proof.
  revert acc. induction cur as [|m cur IH]; intros acc Hall.
  - simpl. by rewrite app_nil_r.
  - inversion Hall as [|? ? Hm Hcur]; subst. rewrite fmap_cons. simpl.
    unfold pair_index, other, in_pair in *.
    destruct (bool_decide (m.1 = u)) eqn:E1.
    + simpl. rewrite IH by done. by rewrite <- app_assoc.
    + destruct (bool_decide (m.2 = u)) eqn:E2.
      * simpl. rewrite IH by done. by rewrite <- app_assoc.
      * apply bool_decide_eq_false in E1, E2.
        rewrite !bool_decide_false in Hm by congruence. done.
Qed.

Lemma _get_children_spec u cur :
  Forall (fun m => in_pair u m) cur ->
  _get_children u cur = Ret (other u <$> cur).
Proof. intros H. unfold _get_children. by rewrite _get_children_acc. Qed.

Lemma foldl_output_queue (u : Z) (children : list Z)
    (out : list (Z * Z)) (queue : list Z) :
  foldl (fun '(out, queue) child =>
           (out ++ [(u, child)], queue ++ [child]))
        (out, queue) children
  = (out ++ (pair u <$> children), queue ++ children).
Proof.
  revert out queue. induction children as [|c cs IH]; intros out queue; simpl.
  - by rewrite !app_nil_r.
  - rewrite IH, <- !app_assoc. done.
Qed.

Lemma _correct_tree_edges_loop_step fuel E u Q O :
  _correct_tree_edges_loop (S fuel) E (u :: Q) O
  = _correct_tree_edges_loop fuel (edges_off u E)
      (Q ++ (other u <$> edges_at u E))
      (O ++ (pair u <$> (other u <$> edges_at u E))).
Proof.
  simpl. fold (edges_at u E).
  pose proof (for_each_list_remove_filter (fun item => in_pair u item) [] E
                ltac:(constructor)) as H.
  simpl in H. fold (edges_at u E) in H. rewrite H. simpl.
  rewrite _get_children_spec.
  2:{ apply Forall_forall. intros m Hm. unfold edges_at in Hm.
      by apply list_elem_of_filter in Hm as [Hm _]. }
  simpl. rewrite foldl_output_queue. done.
Qed.

Lemma length_edges_at_off u E :
  (length (edges_at u E) + length (edges_off u E) = length E)%nat.
Proof.
  unfold edges_at, edges_off. induction E as [|x E IH]; [done|].
  rewrite !filter_cons. destruct (decide (in_pair u x)).
  - rewrite decide_False by tauto. simpl. lia.
  - rewrite decide_True by done. simpl. lia.
Qed.

(** *** The invariant of the loop *)

Lemma bfs_inv_init T root : bfs_inv T root [] T [root] [].
Proof.
  split; simpl; try done.
  - auto.
  - intros p c H. by apply elem_of_nil in H.
  - intros e v _ H. by apply elem_of_nil in H.
  - intros v [->|H]; [right; left|by apply elem_of_nil in H].
  - intros v [H|H]; [by apply elem_of_nil in H|].
    apply list_elem_of_singleton in H. auto.
Qed.

Lemma elem_of_edges_at u E e : e ∈ edges_at u E <-> in_pair u e /\ e ∈ E.
Proof. unfold edges_at. by rewrite list_elem_of_filter. Qed.

Lemma elem_of_edges_off u E e : e ∈ edges_off u E <-> ~ in_pair u e /\ e ∈ E.
Proof. unfold edges_off. by rewrite list_elem_of_filter. Qed.

(** The edge [(u, other u e)] is [e], or [e] turned round. *)
Lemma orient_edge u (e : Z * Z) :
  in_pair u e -> (u, other u e) = e \/ (u, other u e) = (e.2, e.1).
Proof.
  destruct e as [a b]. unfold in_pair, other. simpl.
  case_bool_decide as Ha; simpl.
  - subst. rewrite bool_decide_true by done. auto.
  - case_bool_decide as Hb; [|done]. subst. rewrite bool_decide_false by done.
    auto.
Qed.

Lemma elem_of_new_output u E (p c : Z) :
  (p, c) ∈ pair u <$> (other u <$> edges_at u E) <->
  p = u /\ exists e, e ∈ E /\ in_pair u e /\ c = other u e.
Proof.
  rewrite list_elem_of_fmap. setoid_rewrite list_elem_of_fmap.
  setoid_rewrite elem_of_edges_at. split.
  - intros (c' & [= -> ->] & e & -> & He & HE). eauto.
  - intros (-> & e & HE & He & ->). eauto 10.
Qed.

Lemma bfs_inv_step T root P E u Q O :
  bfs_inv T root P E (u :: Q) O ->
  bfs_inv T root (u :: P) (edges_off u E)
          (Q ++ (other u <$> edges_at u E))
          (O ++ (pair u <$> (other u <$> edges_at u E))).
Proof.
  intros [Hlen Hpool Htaken Hout Hpop Hreach Hknown Hord]. split.
  - rewrite length_app, !length_fmap.
    pose proof (length_edges_at_off u E). lia.
  - intros e He. apply elem_of_edges_off in He as [_ He]. auto.
  - intros e He. destruct (Htaken e He) as [HE|[HO|HO]].
    + destruct (decide (in_pair u e)) as [Hu|Hu].
      * right. assert ((u, other u e) ∈ pair u <$> (other u <$> edges_at u E))
          as Hnew by (apply elem_of_new_output; eauto).
        destruct (orient_edge u e Hu) as [Heq|Heq]; rewrite Heq in Hnew.
        -- left. apply elem_of_app. by right.
        -- right. apply elem_of_app. by right.
      * left. by apply elem_of_edges_off.
    + right. left. apply elem_of_app. by left.
    + right. right. apply elem_of_app. by left.
  - intros p c Hpc. apply elem_of_app in Hpc as [Hpc|Hpc].
    + destruct (Hout p c Hpc) as [H1 H2]. split; [done|by right].
    + apply elem_of_new_output in Hpc as (-> & e & HE & He & ->).
      split; [|left].
      destruct (orient_edge u e He) as [Heq|Heq].
      * left. rewrite Heq. auto.
      * right. replace (other u e, u) with e; [auto|].
        destruct e; simpl in *; congruence.
  - intros e v He Hv. apply elem_of_edges_off in He as [Hu He].
    apply elem_of_cons in Hv as [->|Hv]; [done|]. by apply Hpop.
  - intros v Hv. rewrite fmap_app, elem_of_app in Hv.
    assert (v = root \/ v ∈ O.*2 \/
            v ∈ (pair u <$> (other u <$> edges_at u E)).*2) as Hv' by tauto.
    clear Hv. destruct Hv' as [Hv|[Hv|Hv]].
    + destruct (Hreach v (or_introl Hv)) as [H|H]; [left; by right|].
      apply elem_of_cons in H as [->|H]; [left; left|].
      right. apply elem_of_app. by left.
    + destruct (Hreach v (or_intror Hv)) as [H|H]; [left; by right|].
      apply elem_of_cons in H as [->|H]; [left; left|].
      right. apply elem_of_app. by left.
    + right. apply elem_of_app. right.
      rewrite <- list_fmap_compose in Hv. simpl in Hv.
      by rewrite list_fmap_id in Hv.
  - intros v Hv.
    assert (v ∈ P \/ v ∈ u :: Q \/ v ∈ other u <$> edges_at u E) as Hv'.
    { destruct Hv as [Hv|Hv].
      - apply elem_of_cons in Hv as [->|Hv]; [right; left; left|by left].
      - apply elem_of_app in Hv as [Hv|Hv]; [right; left; by right|auto]. }
    clear Hv. rewrite fmap_app, elem_of_app. destruct Hv' as [Hv|[Hv|Hv]].
    + destruct (Hknown v (or_introl Hv)); auto.
    + destruct (Hknown v (or_intror Hv)); auto.
    + right. right. rewrite <- list_fmap_compose. simpl.
      by rewrite list_fmap_id.
  - intros i p c Hi. destruct (decide (i < length O)%nat) as [Hlt|Hge].
    + rewrite lookup_app_l in Hi by done.
      destruct (Hord i p c Hi) as [->|(j & p' & Hj & Hp')]; [by left|].
      right. exists j, p'. split; [done|].
      rewrite lookup_app_l; [done|lia].
    + rewrite lookup_app_r in Hi by lia.
      apply list_elem_of_lookup_2, elem_of_new_output in Hi as (-> & _).
      destruct (Hknown u) as [->|Hu]; [right; left|by left|].
      right. apply list_elem_of_lookup in Hu as [j Hj].
      rewrite list_lookup_fmap in Hj.
      destruct (O !! j) as [[p' c']|] eqn:Hoj; [|discriminate].
      simpl in Hj. injection Hj as ->. exists j, p'.
      apply lookup_lt_Some in Hoj as Hlt.
      split; [lia|]. by rewrite lookup_app_l.
Qed.

(** With fuel for every vertex of the queue and every edge of the pool the
    loop returns, and the invariant holds with the empty queue. *)
Lemma _correct_tree_edges_loop_run T root fuel P E Q O :
  bfs_inv T root P E Q O -> (length Q + length E <= fuel)%nat ->
  exists O' P' E', _correct_tree_edges_loop fuel E Q O = Ret O' /\
                   bfs_inv T root P' E' [] O'.
Proof.
  revert P E Q O. induction fuel as [|fuel IH]; intros P E Q O Hinv Hfuel.
  - destruct Q as [|u Q]; [|simpl in Hfuel; lia]. simpl. eauto.
  - destruct Q as [|u Q]; [simpl; eauto|].
    rewrite _correct_tree_edges_loop_step.
    eapply IH; [by apply bfs_inv_step|].
    rewrite length_app, length_fmap. simpl in Hfuel.
    pose proof (length_edges_at_off u E). lia.
Qed.

(** *** The output of the loop on a spanning tree *)

Lemma NoDup_range n : NoDup (range n).
Proof.
  unfold range. apply NoDup_fmap_2; [|apply NoDup_seq].
  intros x y. lia.
Qed.

(** A list that covers [n] different items with [n] entries has no
    repetition. *)
Lemma NoDup_of_cover (l k : list Z) :
  NoDup l -> (length k <= length l)%nat -> (forall x, x ∈ l -> x ∈ k) ->
  NoDup k.
Proof.
  intros Hnd Hlen Hsub.
  pose proof (NoDup_submseteq l k Hnd Hsub) as Hsm.
  apply submseteq_length_Permutation in Hsm; [|done]. by rewrite <- Hsm.
Qed.

Lemma bfs_inv_final V T root P E O :
  spanning_tree V T -> in_range V root -> bfs_inv T root P E [] O ->
  length O = length T /\
  (forall p c, (p, c) ∈ O ->
     ((p, c) ∈ T \/ (c, p) ∈ T) /\ in_range V p /\ in_range V c) /\
  (forall v, in_range V v -> v = root \/ v ∈ O.*2) /\
  NoDup (root :: O.*2).
Proof.
  intros (HlenT & Hends & Hconn) Hroot
         [Hlen Hpool Htaken Hout Hpop Hreach Hknown _].
  assert (forall v, v ∈ O.*2 -> v ∈ P) as Hchild.
  { intros v Hv. destruct (Hreach v (or_intror Hv)) as [H|H]; [done|].
    by apply elem_of_nil in H. }
  assert (root ∈ P) as HrootP.
  { destruct (Hreach root (or_introl eq_refl)) as [H|H]; [done|].
    by apply elem_of_nil in H. }
  assert (forall u v, linked T u v -> u ∈ P -> v ∈ P) as Hclosed.
  { intros u v Hl. induction Hl as [|u v w _ IH Hstep]; [done|].
    intros Hu. specialize (IH Hu).
    assert (forall a b, (a, b) ∈ T -> a ∈ P \/ b ∈ P -> a ∈ P /\ b ∈ P) as Hedge.
    { intros a b Hab Hor. destruct (Htaken _ Hab) as [HE|[HO|HO]].
      - exfalso. destruct Hor as [Ha|Hb].
        + apply (Hpop _ _ HE Ha). unfold in_pair. simpl.
          by rewrite bool_decide_true.
        + apply (Hpop _ _ HE Hb). unfold in_pair. simpl.
          rewrite (bool_decide_true (b = b)) by done. apply orb_True. by right.
      - split; [by apply (Hout a b)|].
        apply Hchild, list_elem_of_fmap. by exists (a, b).
      - simpl in HO. split; [|by apply (Hout b a)].
        apply Hchild, list_elem_of_fmap. by exists (b, a). }
    destruct Hstep as [Hs|Hs].
    - by apply (Hedge v w Hs (or_introl IH)).
    - by apply (Hedge w v Hs (or_intror IH)). }
  assert (forall v, in_range V v -> v ∈ P) as Hall.
  { intros v Hv. apply (Hclosed root v); [by apply Hconn|done]. }
  assert (E = []) as ->.
  { destruct E as [|e E]; [done|]. exfalso.
    assert (e ∈ e :: E) as He by left.
    destruct (Hends e (Hpool e He)) as [H1 _].
    apply (Hpop e e.1 He (Hall _ H1)). unfold in_pair.
    by rewrite bool_decide_true. }
  simpl in Hlen. split; [done|].
  assert (forall p c, (p, c) ∈ O ->
            ((p, c) ∈ T \/ (c, p) ∈ T) /\ in_range V p /\ in_range V c) as HO.
  { intros p c Hpc. destruct (Hout p c Hpc) as [[HT|HT] _].
    - split; [by left|]. by apply (Hends _ HT).
    - split; [by right|]. destruct (Hends _ HT). done. }
  split; [done|].
  assert (forall v, in_range V v -> v = root \/ v ∈ O.*2) as Hcover.
  { intros v Hv. apply Hknown. left. by apply Hall. }
  split; [done|].
  apply (NoDup_of_cover (range V)); [apply NoDup_range| |].
  - simpl. rewrite length_fmap, length_range, Hlen. lia.
  - intros x Hx. apply elem_of_range in Hx.
    destruct (Hcover x Hx) as [->|H]; [left|by right].
Qed.

(** *** A graph whose edges go up in a rank has no back edge *)

Lemma unentered_mono n st st' :
  entered st ⊆ entered st' -> (unentered n st' <= unentered n st)%nat.
Proof.
  intros Hsub. unfold unentered.
  induction (range n) as [|x l IH]; [done|]. rewrite !filter_cons.
  destruct (decide (x ∉ entered st')) as [Hx|Hx].
  - rewrite decide_True by set_solver. simpl. lia.
  - destruct (decide (x ∉ entered st)); simpl; lia.
Qed.

Lemma unentered_enter n st node :
  in_range n node -> node ∉ entered st ->
  (unentered n (DfsState ({[node]} ∪ entered st) (exited st)
                         (tree_edges st) (back_edges st))
   < unentered n st)%nat.
Proof.
  intros Hr Hnode. unfold unentered. simpl.
  apply (length_filter_strict _ _ _ node).
  - intros x. set_solver.
  - by apply elem_of_range.
  - done.
  - set_solver.
Qed.

Lemma _has_cycles_loop_cons fuel adj directed x xs :
  _has_cycles_loop fuel adj directed (x :: xs)
  = (st ← dfs fuel adj directed x dfs_empty;
     if bool_decide (back_edges st ≠ ∅) then Ret true
     else _has_cycles_loop fuel adj directed xs).
Proof. done. Qed.

Section DfsRanked.
Variable adj : list (list Z).
Variable n : Z.
Variable rank : Z -> nat.
Hypothesis Hadj : adjacency_ok adj n.
Hypothesis Hrank :
  forall (k : nat) ys y, adj !! k = Some ys -> y ∈ ys ->
                         (rank (Z.of_nat k) < rank y)%nat.

Lemma dfs_ranked fuel node st :
  in_range n node -> dfs_ok rank (rank node) st ->
  (unentered n st < fuel)%nat ->
  exists st', dfs fuel adj true node st = Ret st' /\
              dfs_ok rank (rank node) st' /\ dfs_grows st st'.
Proof.
  revert node st. induction fuel as [|fuel IH]; intros node st Hnode Hok Hfuel;
    [lia|].
  simpl. case_bool_decide as Hent.
  2:{ exists st. split; [done|]. split; [done|]. split; [done|]. auto. }
  destruct Hadj as (Hn & Hlen & Hall).
  destruct (py_getitem_in_range adj node) as (ys & -> & Hys);
    [unfold in_range in Hnode; lia|].
  simpl.
  set (st1 := DfsState ({[node]} ∪ entered st) (exited st)
                       (tree_edges st) (back_edges st)).
  assert (Forall (fun y => in_range n y /\ (rank node < rank y)%nat) ys) as Hys'.
  { apply Forall_forall. intros y Hy. split.
    - pose proof (Forall_lookup_1 _ _ _ _ Hall Hys) as H.
      rewrite Forall_forall in H. by apply H.
    - pose proof (Hrank _ _ _ Hys Hy) as H.
      unfold in_range in Hnode. by rewrite Z2Nat.id in H by lia. }
  pose proof (unentered_enter n st node Hnode Hent) as Hlt. fold st1 in Hlt.
  (* the loop over the children *)
  assert (forall s,
    back_edges s = ∅ ->
    (forall z, z ∈ entered s -> z ∉ exited s ->
               z = node \/ (z ∈ entered st /\ z ∉ exited st)) ->
    entered st1 ⊆ entered s ->
    exists s',
      for_each (fun st y => dfs fuel adj true y (dfs_classify true node y st))
               ys s = Ret s' /\
      back_edges s' = ∅ /\
      (forall z, z ∈ entered s' -> z ∉ exited s' ->
                 z = node \/ (z ∈ entered st /\ z ∉ exited st)) /\
      entered st1 ⊆ entered s') as Hloop.
  { clear Hys. induction ys as [|y ys IHys]; intros s Hb Hact Hsub.
    - simpl. eauto.
    - inversion Hys' as [|? ? [Hy Hry] Hys'']; subst. simpl.
      (* the classification of the edge to [y] records no back edge *)
      assert (exists s0, dfs_classify true node y s = s0 /\
                back_edges s0 = ∅ /\ entered s0 = entered s /\
                exited s0 = exited s) as (s0 & -> & Hb0 & He0 & Hx0).
      { unfold dfs_classify. case_bool_decide as Hye; [eauto|].
        simpl. case_bool_decide as Hyx; [|eauto]. exfalso.
        assert (y ∈ entered s) as Hye'.
        { destruct (decide (y ∈ entered s)); [done|]. tauto. }
        destruct (Hact y Hye' Hyx) as [->|[Hz1 Hz2]]; [lia|].
        destruct Hok as [_ Hok]. pose proof (Hok y Hz1 Hz2). lia. }
      destruct (IH y s0) as (s1 & Hs1 & [Hb1 Hok1] & [Hsub1 Hact1]).
      + done.
      + split; [done|]. intros z Hz Hzx. rewrite He0 in Hz. rewrite Hx0 in Hzx.
        destruct (Hact z Hz Hzx) as [->|[Hz1 Hz2]]; [done|].
        destruct Hok as [_ Hok]. pose proof (Hok z Hz1 Hz2). lia.
      + assert (entered st1 ⊆ entered s0) as Hsub0 by (by rewrite He0).
        pose proof (unentered_mono n st1 s0 Hsub0). lia.
      + rewrite Hs1. simpl. apply IHys; [done|done| |].
        * intros z Hz Hzx. destruct (Hact1 z Hz Hzx) as [Hz1 Hz2].
          rewrite He0 in Hz1. rewrite Hx0 in Hz2. by apply Hact.
        * rewrite He0 in Hsub1. by transitivity (entered s). }
  destruct (Hloop st1) as (s' & -> & Hb' & Hact' & Hsub').
  - apply Hok.
  - simpl. intros z Hz Hzx. apply elem_of_union in Hz as [Hz|Hz]; [|auto].
    left. by apply elem_of_singleton in Hz.
  - done.
  - simpl. eexists. split; [done|]. split; [|split]; simpl.
    + split; [done|]. simpl. intros z Hz Hzx.
      destruct (Hact' z Hz) as [->|[Hz1 Hz2]]; [set_solver|set_solver|].
      destruct Hok as [_ Hok]. by apply Hok.
    + simpl in Hsub'. set_solver.
    + intros z Hz Hzx.
      destruct (Hact' z Hz) as [->|[Hz1 Hz2]]; [set_solver|set_solver|done].
Qed.

Lemma _has_cycles_ranked : _has_cycles adj true = Ret false.
Proof.
  unfold _has_cycles. destruct Hadj as (Hn & Hlen & _).
  assert (Forall (in_range n) (range (Z.of_nat (length adj)))) as Hxs.
  { apply Forall_forall. intros x Hx. apply elem_of_range in Hx.
    unfold in_range. lia. }
  induction (range (Z.of_nat (length adj))) as [|x xs IH]; [done|].
  inversion Hxs as [|? ? Hx Hxs']; subst. rewrite _has_cycles_loop_cons.
  destruct (dfs_ranked (S (length adj)) x dfs_empty Hx) as (st & Hst & [Hb _] & _).
  - split; [done|]. simpl. set_solver.
  - unfold unentered. rewrite Hlen. apply Nat.lt_succ_r.
    rewrite <- (length_range n). apply length_filter.
  - rewrite Hst. simpl.
    rewrite bool_decide_false by (intros H; by apply H). by apply IH.
Qed.
End DfsRanked.

(** *** [Tree.__init__] on the output of the loop *)

(** A loop whose body keeps an invariant and does not raise under it. *)
Lemma for_each_total_inv {A S} (I : S -> Prop) (body : S -> A -> res S)
    (P : A -> Prop) l s :
  (forall s x, P x -> I s -> exists s', body s x = Ret s' /\ I s') ->
  Forall P l -> I s -> exists s', for_each body l s = Ret s' /\ I s'.
Proof.
  intros Hbody. revert s. induction l as [|x l IH]; simpl; intros s HP Hs.
  - eauto.
  - inversion HP; subst. destruct (Hbody s x) as (s1 & -> & Hs1); [done..|].
    simpl. by apply IH.
Qed.

Lemma rows_np_array_of_pairs O e :
  rows (np_array_of_pairs O) !! e = (fun e => [e.1; e.2]) <$> (O !! e).
Proof. unfold np_array_of_pairs. simpl. by rewrite list_lookup_fmap. Qed.

Lemma nd_get_pairs O e p c :
  O !! e = Some (p, c) ->
  nd_get (np_array_of_pairs O) e 0 = Ret p /\
  nd_get (np_array_of_pairs O) e 1 = Ret c.
Proof.
  intros H. unfold nd_get. rewrite rows_np_array_of_pairs, H. done.
Qed.

Lemma ravel_pairs O x :
  x ∈ ravel (np_array_of_pairs O) <->
  exists p c, (p, c) ∈ O /\ (x = p \/ x = c).
Proof.
  rewrite ravel_elem. unfold np_array_of_pairs. simpl.
  setoid_rewrite list_elem_of_fmap. split.
  - intros (r & ([p c] & -> & Hpc) & Hx). exists p, c. split; [done|].
    simpl in Hx. rewrite !elem_of_cons in Hx.
    destruct Hx as [?|[?|Hx]]; [auto..|]. by apply elem_of_nil in Hx.
  - intros (p & c & Hpc & Hx). exists [p; c]. split; [by exists (p, c)|].
    destruct Hx as [->| ->]; [left|right; left].
Qed.

Lemma first_seen_from_NoDup_id seen l :
  NoDup l -> (forall x, x ∈ l -> x ∉ seen) -> first_seen_from seen l = l.
Proof.
  revert seen. induction l as [|x l IH]; intros seen Hnd Hdis; [done|]. simpl.
  inversion Hnd as [|? ? Hx Hnd']; subst.
  rewrite decide_False by (apply Hdis; left). f_equal. apply IH; [done|].
  intros y Hy [->|Hs]%elem_of_cons; [done|].
  by apply (Hdis y); [right|].
Qed.

Lemma seq_lookup_pairs (O : list (Z * Z)) :
  Forall (fun e => exists p c, O !! e = Some (p, c)) (seq 0 (length O)).
Proof.
  apply Forall_forall. intros e He. apply elem_of_seq in He.
  destruct (lookup_lt_is_Some_2 O e) as [[p c] H]; [lia|]. eauto.
Qed.

Section TreeOfEdges.
Variable O : list (Z * Z).
Variable V root : Z.
Variable rank : Z -> nat.
Hypothesis HV : 2 <= V.
Hypothesis Hroot : in_range V root.
Hypothesis Hlen : Z.of_nat (length O) = V - 1.
Hypothesis Hnodup : NoDup O.
Hypothesis Hends :
  forall p c, (p, c) ∈ O -> in_range V p /\ in_range V c.
Hypothesis Hcover :
  forall v, in_range V v -> exists p c, (p, c) ∈ O /\ (v = p \/ v = c).
Hypothesis Hrank : forall p c, (p, c) ∈ O -> (rank p < rank c)%nat.

Lemma pairs_n_vertices : n_vertices_of (np_array_of_pairs O) = Ret V.
Proof.
  unfold n_vertices_of.
  assert (nd_max (np_array_of_pairs O) = Ret (V - 1)) as ->.
  { apply nd_max_Ret. split.
    - apply ravel_pairs. apply Hcover. unfold in_range. lia.
    - intros y (p & c & Hpc & Hy)%ravel_pairs.
      destruct (Hends p c Hpc) as [Hp Hc]. unfold in_range in *.
      destruct Hy; lia. }
  simpl. f_equal. lia.
Qed.

Lemma pairs_min : nd_min (np_array_of_pairs O) = Ret 0.
Proof.
  apply nd_min_Ret. split.
  - apply ravel_pairs. apply Hcover. unfold in_range. lia.
  - intros y (p & c & Hpc & Hy)%ravel_pairs.
    destruct (Hends p c Hpc) as [Hp Hc]. unfold in_range in *.
    destruct Hy; lia.
Qed.

Lemma pairs_unique :
  _unique_array_rows (np_array_of_pairs O) = Ret (np_array_of_pairs O).
Proof.
  rewrite _unique_array_rows_spec. unfold np_array_of_pairs. simpl. f_equal.
  f_equal. apply first_seen_from_NoDup_id; [|intros; apply not_elem_of_nil].
  apply NoDup_fmap_2; [|done]. intros [a b] [a' b']. simpl. congruence.
Qed.

Lemma pairs_adjacency_list :
  exists adj,
    _get_adjacency_list Tree (np_array_of_pairs O) = Ret adj /\
    adjacency_ok adj V /\
    forall (k : nat) ys y, adj !! k = Some ys -> y ∈ ys -> (Z.of_nat k, y) ∈ O.
Proof.
  unfold _get_adjacency_list. rewrite pairs_n_vertices. simpl.
  apply (for_each_total_inv
           (fun adj => adjacency_ok adj V /\
              forall (k : nat) ys y, adj !! k = Some ys -> y ∈ ys ->
                                     (Z.of_nat k, y) ∈ O)
           _ (fun e => exists p c, O !! e = Some (p, c))).
  - intros adj e (p & c & He) [Hok Hsound].
    destruct (nd_get_pairs O e p c He) as [-> ->]. simpl.
    assert ((p, c) ∈ O) as Hpc by (eapply list_elem_of_lookup_2; eauto).
    destruct (Hends p c Hpc) as [Hp Hc]. unfold in_range in Hp, Hc.
    destruct (py_append_at_in_range adj V p c Hok Hp) as [adj' Hadj'].
    rewrite Hadj'. simpl. exists adj'. split; [done|]. split.
    + by apply (py_append_at_ok adj V p c).
    + unfold py_append_at in Hadj'. destruct Hok as (_ & Hl & _).
      rewrite py_norm_index_in_range in Hadj' by lia. injection Hadj' as <-.
      intros k ys y Hk Hy. destruct (decide (k = Z.to_nat p)) as [->|Hne].
      * rewrite list_lookup_alter_eq in Hk.
        destruct (adj !! Z.to_nat p) as [old|] eqn:Hold; [|discriminate].
        simpl in Hk. injection Hk as <-. rewrite Z2Nat.id by lia.
        apply elem_of_app in Hy as [Hy|Hy].
        -- pose proof (Hsound _ _ _ Hold Hy) as H.
           by rewrite Z2Nat.id in H by lia.
        -- apply list_elem_of_singleton in Hy as ->. done.
      * rewrite list_lookup_alter_ne in Hk by done. eauto.
  - unfold n_edges_of, shape0, np_array_of_pairs. simpl. rewrite length_fmap.
    apply seq_lookup_pairs.
  - split.
    + split; [lia|]. split; [by rewrite length_replicate|].
      apply Forall_replicate. constructor.
    + intros k ys y Hk Hy. apply lookup_replicate in Hk as [-> _].
      by apply elem_of_nil in Hy.
Qed.

Lemma pairs_predecessors_list :
  exists preds, _get_predecessors_list (np_array_of_pairs O) = Ret preds.
Proof.
  unfold _get_predecessors_list. rewrite pairs_n_vertices. simpl.
  destruct (for_each_total_inv
           (fun preds : list (option Z) => length preds = Z.to_nat V)
           (fun preds e =>
              parent ← nd_get (np_array_of_pairs O) e 0;
              child ← nd_get (np_array_of_pairs O) e 1;
              py_setitem preds child (Some parent))
           (fun e => exists p c, O !! e = Some (p, c))
           (seq 0 (n_edges_of (np_array_of_pairs O)))
           (replicate (Z.to_nat V) None)) as (preds & Hp & _).
  - intros preds e (p & c & He) Hl.
    destruct (nd_get_pairs O e p c He) as [-> ->]. simpl.
    assert ((p, c) ∈ O) as Hpc by (eapply list_elem_of_lookup_2; eauto).
    destruct (Hends p c Hpc) as [Hp Hc]. unfold in_range in Hp, Hc.
    unfold py_setitem. rewrite py_norm_index_in_range by lia.
    eexists. split; [done|]. by rewrite length_insert.
  - unfold n_edges_of, shape0, np_array_of_pairs. simpl. rewrite length_fmap.
    apply seq_lookup_pairs.
  - by rewrite length_replicate.
  - eauto.
Qed.

Lemma Tree_init_of_edges :
  exists t,
    Tree_init (np_array_of_pairs O) root = Ret t /\
    cls t = Tree /\
    adjacency_array t = np_array_of_pairs O /\
    n_vertices t = Ret V /\
    Z.of_nat (n_edges t) = V - 1 /\
    has_cycles t = Ret false /\
    root_vertex t = Some root.
Proof.
  destruct pairs_adjacency_list as (adj & Hadj & Hok & Hsound).
  destruct pairs_predecessors_list as (preds & Hpreds).
  assert (_has_cycles adj true = Ret false) as Hcyc.
  { apply (_has_cycles_ranked adj V rank Hok). intros k ys y Hk Hy.
    apply Hrank. eauto. }
  assert (n_edges_of (np_array_of_pairs O) = length O) as Hne.
  { unfold n_edges_of, shape0, np_array_of_pairs. simpl.
    by rewrite length_fmap. }
  exists (Graph Tree (np_array_of_pairs O) adj (Some root) (Some preds)).
  split; [|unfold n_vertices, n_edges, has_cycles; simpl;
           rewrite pairs_n_vertices, Hne; done].
  unfold Tree_init, Graph_init.
  rewrite bool_decide_false.
  2:{ unfold nd_size, shape0, np_array_of_pairs. simpl. rewrite length_fmap. lia. }
  rewrite bool_decide_false by (simpl; intros H; by apply H).
  rewrite pairs_min. simpl.
  rewrite pairs_unique. simpl. rewrite Hadj. simpl.
  unfold is_tree, has_cycles, n_vertices, n_edges, _check_vertex, n_vertices.
  simpl. rewrite Hcyc. simpl. rewrite pairs_n_vertices. simpl.
  rewrite Hne.
  rewrite !(bool_decide_true (Z.of_nat (length O) = V - 1)) by exact Hlen.
  simpl.
  unfold in_range in Hroot. rewrite bool_decide_false by lia. simpl.
  rewrite Hpreds. done.
Qed.
End TreeOfEdges.

(** *** Parents and depths in the tree built from the output *)

(** A loop over the row numbers of an array of pairs is a loop over the
    pairs. *)
Lemma for_each_seq_pairs {S} (body : S -> Z -> Z -> res S)
    (l1 l2 : list (Z * Z)) (s : S) :
  for_each (fun s e =>
              p ← nd_get (np_array_of_pairs (l1 ++ l2)) e 0;
              c ← nd_get (np_array_of_pairs (l1 ++ l2)) e 1;
              body s p c)
           (seq (length l1) (length l2)) s
  = for_each (fun s pc => body s pc.1 pc.2) l2 s.
Proof.
  revert l1 s. induction l2 as [|[p c] l2 IH]; intros l1 s; [done|].
  simpl.
  destruct (nd_get_pairs (l1 ++ (p, c) :: l2) (length l1) p c) as [-> ->].
  { by rewrite list_lookup_middle. }
  simpl. destruct (body s p c) as [s'| |]; simpl; [|done..].
  specialize (IH (l1 ++ [(p, c)]) s').
  rewrite <- app_assoc, length_app in IH. simpl in IH.
  by rewrite Nat.add_1_r in IH.
Qed.

Lemma preds_of_edges (O : list (Z * Z)) (preds0 preds : list (option Z)) :
  NoDup (O.*2) ->
  (forall p c, (p, c) ∈ O -> 0 <= c < Z.of_nat (length preds0)) ->
  for_each (fun s pc => py_setitem s pc.2 (Some pc.1)) O preds0 = Ret preds ->
  (forall p c, (p, c) ∈ O -> preds !! Z.to_nat c = Some (Some p)) /\
  (forall v, 0 <= v -> v ∉ O.*2 -> preds !! Z.to_nat v = preds0 !! Z.to_nat v).
Proof.
  revert preds0. induction O as [|[p c] O IH]; intros preds0 Hnd Hc H.
  - simpl in H. injection H as <-. split; [|done].
    intros p c Hpc. by apply elem_of_nil in Hpc.
  - simpl in H. inversion Hnd as [|? ? Hcn Hnd']; subst.
    pose proof (Hc p c ltac:(left)) as Hcr.
    unfold py_setitem in H. rewrite py_norm_index_in_range in H by done.
    simpl in H. destruct (IH (<[Z.to_nat c := Some p]> preds0)) as [IH1 IH2];
      [done| |done|].
    { intros p' c' Hpc'. rewrite length_insert. apply (Hc p' c'). by right. }
    split.
    + intros p' c' [Heq|Hin]%elem_of_cons.
      * injection Heq as -> ->. rewrite IH2 by (done || lia).
        apply list_lookup_insert_eq. lia.
      * by apply IH1.
    + intros v Hv Hnot. rewrite fmap_cons, not_elem_of_cons in Hnot.
      destruct Hnot as [Hne Hnot]. simpl in Hne.
      rewrite IH2 by done. apply list_lookup_insert_ne. lia.
Qed.

Lemma tree_of_edges_rooted (O : list (Z * Z)) (V root : Z) (rank : Z -> nat)
    (t : graph) :
  Tree_init (np_array_of_pairs O) root = Ret t ->
  adjacency_array t = np_array_of_pairs O ->
  n_vertices t = Ret V ->
  (forall p c, (p, c) ∈ O -> in_range V p /\ in_range V c) ->
  NoDup (root :: O.*2) ->
  (forall v, in_range V v -> v = root \/ v ∈ O.*2) ->
  (forall p c, (p, c) ∈ O -> (rank p < rank c)%nat) ->
  (forall p c, (p, c) ∈ O -> parent t c = Ret (Some p)) /\
  parent t root = Ret None /\
  (forall v, in_range V v -> exists d, depth_of_vertex t v = Ret d).
Proof.
  intros Hinit Harr Hn Hends Hnd Hcover Hrank.
  apply Tree_init_inv in Hinit
    as (n & preds & Hn' & Hroot & Hr & Hp & Hpok & _ & _ & _ & _ & Hpreds & _).
  rewrite Hn in Hn'. injection Hn' as <-.
  inversion Hnd as [|? ? Hrootn Hnd']; subst.
  (* the predecessors list, entry by entry *)
  assert ((forall p c, (p, c) ∈ O -> preds !! Z.to_nat c = Some (Some p)) /\
          (forall v, 0 <= v -> v ∉ O.*2 ->
             preds !! Z.to_nat v = replicate (Z.to_nat V) None !! Z.to_nat v))
    as [Hchild Hnone].
  { rewrite Harr in Hpreds. unfold _get_predecessors_list in Hpreds.
    pose proof Hn as Hn2.
    unfold n_vertices in Hn2. rewrite Harr in Hn2. rewrite Hn2 in Hpreds.
    simpl in Hpreds.
    assert (n_edges_of (np_array_of_pairs O) = length O) as Hne.
    { unfold n_edges_of, shape0, np_array_of_pairs. simpl.
      by rewrite length_fmap. }
    rewrite Hne in Hpreds.
    pose proof (for_each_seq_pairs
                  (fun s p c => py_setitem s c (Some p)) [] O) as Heq.
    simpl in Heq. rewrite Heq in Hpreds.
    apply preds_of_edges in Hpreds; [done|done|].
    intros p c Hpc. rewrite length_replicate.
    destruct (Hends p c Hpc) as [_ Hc]. unfold in_range in Hc. lia. }
  assert (forall v, in_range V v -> _check_vertex t v = Ret ()) as Hcheck.
  { intros v Hv. unfold _check_vertex. rewrite Hn. simpl.
    unfold in_range in Hv. by rewrite bool_decide_false by lia. }
  assert (forall v x, in_range V v -> preds !! Z.to_nat v = Some x ->
            py_getitem preds v = Ret x) as Hget.
  { intros v x Hv Hx. unfold py_getitem. destruct Hpok as [Hl _].
    unfold in_range in Hv. rewrite py_norm_index_in_range by lia.
    by rewrite Hx. }
  assert (forall p c, (p, c) ∈ O -> parent t c = Ret (Some p)) as Hpar.
  { intros p c Hpc. unfold parent, get_predecessors_list.
    destruct (Hends p c Hpc) as [_ Hc].
    rewrite Hcheck, Hp by done. simpl. apply Hget; [done|by apply Hchild]. }
  split; [done|]. split.
  { unfold parent, get_predecessors_list. rewrite Hcheck, Hp by done. simpl.
    apply Hget; [done|]. unfold in_range in Hroot.
    rewrite Hnone by (done || lia). apply lookup_replicate_2. lia. }
  (* every vertex walks up to the root *)
  assert (forall k v, (rank v < k)%nat -> in_range V v ->
            exists m, walk root preds (Some v) m) as Hwalk.
  { induction k as [|k IH]; intros v Hk Hv; [lia|].
    destruct (decide (v = root)) as [->|Hne]; [exists 0%nat; constructor|].
    destruct (Hcover v Hv) as [->|Hin]; [done|].
    apply list_elem_of_fmap in Hin as ([p c] & -> & Hpc). simpl in *.
    destruct (Hends p c Hpc) as [Hpr _].
    destruct (IH p) as [m Hm]; [pose proof (Hrank p c Hpc); lia|done|].
    exists (S m). econstructor; [done| |exact Hm].
    apply Hget; [done|by apply Hchild]. }
  intros v Hv. destruct (Hwalk (S (rank v)) v) as [m Hm]; [lia|done|].
  exists (Z.of_nat m). unfold depth_of_vertex, get_root_vertex,
    get_predecessors_list. rewrite Hcheck, Hr, Hp by done. simpl.
  pose proof (walk_bound _ _ _ _ _ Hpok Hroot Hm Hv) as Hb.
  destruct Hpok as [Hl _].
  rewrite (walk_depth_loop _ _ _ _ _ _ Hm) by lia. done.
Qed.

(** *** The rank of a vertex: the turn at which the loop reached it *)

Lemma index_of_NoDup l i v : NoDup l -> l !! i = Some v -> index_of l v = i.
Proof.
  intros Hnd. revert i. induction Hnd as [|x l Hx Hnd IH]; intros i Hi.
  - by rewrite lookup_nil in Hi.
  - simpl. destruct i as [|i]; simpl in Hi.
    + injection Hi as ->. by rewrite decide_True.
    + rewrite decide_False.
      * f_equal. by apply IH.
      * intros ->. apply Hx. eapply list_elem_of_lookup_2; eauto.
Qed.

Lemma bfs_rank_increases root O :
  NoDup (root :: O.*2) ->
  (forall i p c, O !! i = Some (p, c) ->
     p = root \/ exists j p', (j < i)%nat /\ O !! j = Some (p', p)) ->
  forall p c, (p, c) ∈ O -> (bfs_rank root O p < bfs_rank root O c)%nat.
Proof.
  intros Hnd Hord p c Hpc. inversion Hnd as [|? ? Hroot Hnd']; subst.
  apply list_elem_of_lookup in Hpc as [i Hi].
  assert (forall j p' v, O !! j = Some (p', v) ->
            bfs_rank root O v = S j) as Hchild.
  { intros j p' v Hj. unfold bfs_rank.
    assert (O.*2 !! j = Some v) as Hv by (by rewrite list_lookup_fmap, Hj).
    rewrite decide_False.
    - f_equal. by apply index_of_NoDup.
    - intros ->. apply Hroot. eapply list_elem_of_lookup_2; eauto. }
  rewrite (Hchild i p c Hi).
  destruct (Hord i p c Hi) as [->|(j & p' & Hj & Hp)].
  - unfold bfs_rank. rewrite decide_True by done. lia.
  - rewrite (Hchild j p' p Hp). lia.
Qed.

Lemma linked_trans E u v w : linked E u v -> linked E v w -> linked E u w.
Proof.
  intros Huv Hvw. induction Hvw as [v|v w x Hl IH Hstep]; [done|].
  eapply linked_step; [by apply IH|done].
Qed.

Lemma linked_edge E u v : (u, v) ∈ E \/ (v, u) ∈ E -> linked E u v.
Proof. intros H. eapply linked_step; [apply linked_refl|done]. Qed.

Lemma linked_sym E u v : linked E u v -> linked E v u.
Proof.
  induction 1 as [|u v w _ IH Hstep]; [apply linked_refl|].
  eapply linked_trans; [|exact IH]. apply linked_edge. tauto.
Qed.

(** *** The theorem *)

Section MinimumSpanningTreeCorrect.
Variable weights : Type.
Variable MinimumSpanningTree : graph -> weights -> res (list (Z * Z)).

(** [_correct_tree_edges] on a spanning tree of [V >= 2] vertices: the
    output, and the tree [Tree.__init__] builds from it. *)
Lemma _correct_tree_edges_spanning (T : list (Z * Z)) (V root : Z) :
  spanning_tree V T -> 2 <= V -> in_range V root ->
  exists O t,
    _correct_tree_edges T root = Ret O /\
    Tree_init (np_array_of_pairs O) root = Ret t /\
    cls t = Tree /\ root_vertex t = Some root /\
    adjacency_array t = np_array_of_pairs O /\
    n_vertices t = Ret V /\ Z.of_nat (n_edges t) = V - 1 /\
    has_cycles t = Ret false /\
    (forall p c, (p, c) ∈ O -> (p, c) ∈ T \/ (c, p) ∈ T) /\
    NoDup (root :: O.*2) /\
    (forall v, in_range V v -> v = root \/ v ∈ O.*2) /\
    (forall i p c, O !! i = Some (p, c) ->
       p = root \/ exists j p', (j < i)%nat /\ O !! j = Some (p', p)) /\
    (forall p c, (p, c) ∈ O -> parent t c = Ret (Some p)) /\
    parent t root = Ret None /\
    (forall v, in_range V v -> exists d, depth_of_vertex t v = Ret d).
Proof.
  intros Hst HV Hroot. unfold _correct_tree_edges.
  destruct (_correct_tree_edges_loop_run T root (S (length T)) [] T [root] [])
    as (O & P & E & Hrun & Hinv); [apply bfs_inv_init|simpl; lia|].
  pose proof (inv_ordered _ _ _ _ _ _ Hinv) as Hord.
  destruct (bfs_inv_final V T root P E O Hst Hroot Hinv)
    as (Hlen & HO & Hcover & Hnd).
  destruct Hst as (HlenT & _ & _).
  assert (NoDup O) as HndO.
  { inversion Hnd; subst. by apply (NoDup_fmap_1 snd). }
  assert (exists c, O !! 0%nat = Some (root, c)) as [c0 Hc0].
  { destruct O as [|[p c] O]; [simpl in Hlen; lia|]. exists c. simpl.
    destruct (Hord 0%nat p c eq_refl) as [->|(j & _ & Hj & _)]; [done|lia]. }
  destruct (Tree_init_of_edges O V root (bfs_rank root O))
    as (t & Ht & Hcls & Harr & Hn & He & Hcyc & Hr); try done.
  - lia.
  - intros p c Hpc. by apply HO.
  - intros v Hv. destruct (Hcover v Hv) as [->|Hin].
    + exists root, c0. split; [|by left]. eapply list_elem_of_lookup_2; eauto.
    + apply list_elem_of_fmap in Hin as ([p c] & -> & Hpc).
      exists p, c. split; [done|by right].
  - by apply bfs_rank_increases.
  - exists O, t. repeat (split; [done|]).
    split; [intros p c Hpc; by apply HO|]. repeat (split; [done|]).
    apply (tree_of_edges_rooted O V root (bfs_rank root O)); try done.
    + intros p c Hpc. by apply HO.
    + by apply bfs_rank_increases.
Qed.

(** C5, as the code has it. For every undirected graph with [V >= 2]
    vertices, when the solver returns edges [T] that form a spanning tree of
    the vertices, and [root] is a vertex, [minimum_spanning_tree] returns a
    [Tree] with root [root], [V] vertices, [V - 1] edges and no cycle.
    Every edge [(p, c)] of it is an edge of [T], as it is or turned round;
    every vertex but [root] is the child of exactly one edge and [root] of
    none; the parent of an edge is [root] or the child of an earlier edge;
    [parent(c)] is [p] for every edge [(p, c)] and [None] for [root]; and
    [depth_of_vertex] returns at every vertex. *)
Theorem C5_minimum_spanning_tree (a : ndarray) (g : graph) (w : weights)
    (root V : Z) (T : list (Z * Z)) :
  Graph_init UndirectedGraph a = Ret g ->
  n_vertices g = Ret V ->
  MinimumSpanningTree g w = Ret T ->
  spanning_tree V T ->
  2 <= V -> in_range V root ->
  exists t O,
    minimum_spanning_tree weights MinimumSpanningTree g w root = Ret t /\
    cls t = Tree /\ root_vertex t = Some root /\
    adjacency_array t = np_array_of_pairs O /\
    n_vertices t = Ret V /\ Z.of_nat (n_edges t) = V - 1 /\
    has_cycles t = Ret false /\ is_tree t = Ret true /\
    (forall p c, (p, c) ∈ O -> (p, c) ∈ T \/ (c, p) ∈ T) /\
    NoDup (root :: O.*2) /\
    (forall v, in_range V v -> v = root \/ v ∈ O.*2) /\
    (forall i p c, O !! i = Some (p, c) ->
       p = root \/ exists j p', (j < i)%nat /\ O !! j = Some (p', p)) /\
    (forall p c, (p, c) ∈ O -> parent t c = Ret (Some p)) /\
    parent t root = Ret None /\
    (forall v, in_range V v -> exists d, depth_of_vertex t v = Ret d).
Proof.
  intros _ _ HT Hst HV Hroot.
  destruct (_correct_tree_edges_spanning T V root Hst HV Hroot)
    as (O & t & HO & Ht & Hcls & Hr & Harr & Hn & He & Hcyc & Hrest).
  exists t, O. unfold minimum_spanning_tree. rewrite HT. simpl.
  rewrite HO. simpl. repeat (split; [done|]). split; [|done].
  unfold is_tree. rewrite Hcyc. simpl. rewrite Hn. simpl.
  by rewrite bool_decide_true.
Qed.
End MinimumSpanningTreeCorrect.

Lemma C5_minimum_spanning_tree_witness :
  exists g t,
    Graph_init UndirectedGraph (np_array_of_pairs [(0, 1); (1, 2); (0, 2)])
      = Ret g /\
    minimum_spanning_tree unit (fun _ _ => Ret [(1, 2); (0, 1)]) g () 2
      = Ret t /\
    adjacency_array t = np_array_of_pairs [(2, 1); (1, 0)].
Proof.
  eexists.
  destruct (C5_minimum_spanning_tree unit (fun _ _ => Ret [(1, 2); (0, 1)])
              (np_array_of_pairs [(0, 1); (1, 2); (0, 2)]) _ () 2 3
              [(1, 2); (0, 1)] eq_refl eq_refl eq_refl)
    as (t & O & Ht & _).
  - split; [done|]. split.
    + intros e He. rewrite !elem_of_cons in He. unfold in_range.
      destruct He as [->|[->|He]]; [simpl; lia..|by apply elem_of_nil in He].
    + assert (linked [(1, 2); (0, 1)] 0 1) as H01.
      { apply linked_edge. left. right. left. }
      assert (linked [(1, 2); (0, 1)] 1 2) as H12.
      { apply linked_edge. left. left. }
      assert (forall v, in_range 3 v -> linked [(1, 2); (0, 1)] 0 v) as H0.
      { intros v Hv. unfold in_range in Hv.
        assert (v = 0 \/ v = 1 \/ v = 2) as [->|[->| ->]] by lia.
        - apply linked_refl.
        - done.
        - by eapply linked_trans. }
      intros u v Hu Hv. eapply linked_trans; [apply linked_sym|]; eauto.
  - lia.
  - unfold in_range. lia.
  - exists t. split; [reflexivity|]. split; [exact Ht|].
    vm_compute in Ht. injection Ht as <-. reflexivity.
Defined.

(** C5, as stated, fails on a graph with one vertex: its spanning tree has
    no edge, and [Tree.__init__] refuses an empty edge array. *)
Lemma C5_counterexample :
  ~ (forall (weights : Type)
            (MinimumSpanningTree : graph -> weights -> res (list (Z * Z)))
            (a : ndarray) (g : graph) (w : weights) (root V : Z)
            (T : list (Z * Z)),
       Graph_init UndirectedGraph a = Ret g ->
       n_vertices g = Ret V ->
       MinimumSpanningTree g w = Ret T ->
       spanning_tree V T -> in_range V root ->
       exists t,
         minimum_spanning_tree weights MinimumSpanningTree g w root = Ret t /\
         Z.of_nat (n_edges t) = V - 1).
Proof.
  intros H.
  destruct (H unit (fun _ _ => Ret []) (np_array_of_pairs [(0, 0)]) _ () 0 1 []
              eq_refl eq_refl eq_refl) as (t & Ht & _).
  - split; [done|]. split.
    + intros e He. by apply elem_of_nil in He.
    + intros u v Hu Hv. unfold in_range in *.
      assert (u = 0) as -> by lia. assert (v = 0) as -> by lia.
      apply linked_refl.
  - unfold in_range. lia.
  - vm_compute in Ht. discriminate.
Qed.

(* ################################################################## *)
(** * Further properties of the module *)

(* ================================================================== *)
(** ** Adjacency lists *)

Lemma has_edge_rows a p c :
  has_edge a p c <->
  exists r, r ∈ rows a /\ r !! 0%nat = Some p /\ r !! 1%nat = Some c.
Proof.
  unfold has_edge, nd_get. split.
  - intros (e & H0 & H1). destruct (rows a !! e) as [r|] eqn:Hr; [|discriminate].
    exists r. split; [eapply list_elem_of_lookup_2; eauto|].
    destruct (r !! 0%nat); [|discriminate]. destruct (r !! 1%nat); [|discriminate].
    by injection H0 as ->; injection H1 as ->.
  - intros (r & Hr & H0 & H1). apply list_elem_of_lookup in Hr as [e He].
    exists e. by rewrite He, H0, H1.
Qed.

Lemma has_edge_first_seen a p c :
  has_edge (NdArray 2 (first_seen (rows a))) p c <-> has_edge a p c.
Proof.
  rewrite !has_edge_rows. simpl. by setoid_rewrite first_seen_elem.
Qed.

Lemma has_edge_ravel a p c : has_edge a p c -> p ∈ ravel a /\ c ∈ ravel a.
Proof. intros (e & H0 & H1). split; eapply nd_get_elem; eauto. Qed.

Lemma py_append_at_nonneg adj i x adj' :
  0 <= i -> py_append_at adj i x = Ret adj' ->
  (Z.to_nat i < length adj)%nat /\
  adj' = alter (fun inner => inner ++ [x]) (Z.to_nat i) adj.
Proof.
  intros Hi. unfold py_append_at, py_norm_index.
  rewrite bool_decide_true by done. case_bool_decide; [|discriminate].
  intros [= <-]. split; [lia|done].
Qed.

Lemma total_degree_cons ys adj :
  total_degree (ys :: adj) = (length ys + total_degree adj)%nat.
Proof. done. Qed.

Lemma total_degree_alter adj k x :
  (k < length adj)%nat ->
  total_degree (alter (fun inner => inner ++ [x]) k adj) = S (total_degree adj).
Proof.
  revert k. induction adj as [|ys adj IH]; intros k Hk; [simpl in Hk; lia|].
  destruct k as [|k].
  - change (alter ?f 0%nat (ys :: adj)) with (f ys :: adj).
    rewrite !total_degree_cons, length_app. simpl. lia.
  - change (alter ?f (S k) (ys :: adj)) with (ys :: alter f k adj).
    rewrite !total_degree_cons, IH by (simpl in Hk; lia). lia.
Qed.

Lemma elem_of_alter_append (adj : list (list Z)) k (x : Z) (j : nat) (y : Z) :
  (k < length adj)%nat ->
  y ∈ default [] (alter (fun inner => inner ++ [x]) k adj !! j) <->
  y ∈ default [] (adj !! j) \/ (j = k /\ y = x).
Proof.
  intros Hk. destruct (decide (k = j)) as [->|Hne].
  - rewrite list_lookup_alter_eq.
    destruct (lookup_lt_is_Some_2 adj j Hk) as [ys ->]. simpl.
    rewrite elem_of_app, list_elem_of_singleton. tauto.
  - rewrite list_lookup_alter_ne by done. split; [auto|].
    intros [?|[-> _]]; done.
Qed.

(** What the loop of [_get_adjacency_list] adds, for the rows [l]. *)
Lemma _get_adjacency_list_loop c a l adj adj' :
  (forall x, x ∈ ravel a -> 0 <= x) ->
  for_each (fun adj e =>
      v1 ← nd_get a e 0;
      v2 ← nd_get a e 1;
      adj ← py_append_at adj v1 v2;
      if directed c then Ret adj else py_append_at adj v2 v1) l adj = Ret adj' ->
  length adj' = length adj /\
  total_degree adj'
  = (total_degree adj + (if directed c then 1 else 2) * length l)%nat /\
  forall (k : nat) y,
    y ∈ default [] (adj' !! k) <->
    y ∈ default [] (adj !! k) \/
    exists e v1 v2, e ∈ l /\ nd_get a e 0 = Ret v1 /\ nd_get a e 1 = Ret v2 /\
      ((Z.of_nat k = v1 /\ y = v2) \/
       (directed c = false /\ Z.of_nat k = v2 /\ y = v1)).
Proof.
  intros Hpos. revert adj. induction l as [|e l IH]; intros adj H.
  - simpl in H. injection H as <-. split; [done|]. split; [simpl; lia|].
    intros k y. split; [auto|]. intros [?|(e & v1 & v2 & He & _)]; [done|].
    by apply elem_of_nil in He.
  - simpl in H. inv_bind H as adj1 Hbody.
    inv_bind Hbody as v1 Hv1. inv_bind Hbody as v2 Hv2.
    inv_bind Hbody as adj0 Happ.
    pose proof (Hpos _ (nd_get_elem _ _ _ _ Hv1)) as Hp1.
    pose proof (Hpos _ (nd_get_elem _ _ _ _ Hv2)) as Hp2.
    apply py_append_at_nonneg in Happ as [Hk1 ->]; [|done].
    destruct (IH _ H) as (Hlen & Hdeg & Hmem). clear IH H.
    destruct (directed c) eqn:Hdir.
    + injection Hbody as <-. rewrite length_alter in Hlen.
      rewrite total_degree_alter in Hdeg by done.
      split; [done|]. split; [simpl; lia|].
      intros k y. rewrite Hmem, elem_of_alter_append by done. split.
      * intros [[H|[-> ->]]|(e' & w1 & w2 & He' & Hw)].
        -- by left.
        -- right. exists e, v1, v2. rewrite Z2Nat.id by done.
           split; [left|]. auto.
        -- right. exists e', w1, w2. split; [by right|done].
      * intros [H|(e' & w1 & w2 & He' & Hw1 & Hw2 & Hw)]; [auto|].
        apply elem_of_cons in He' as [->|He'].
        -- rewrite Hv1 in Hw1. rewrite Hv2 in Hw2.
           injection Hw1 as <-. injection Hw2 as <-.
           destruct Hw as [[Hk ->]|[? _]]; [|done].
           left. right. split; [lia|done].
        -- right. exists e', w1, w2. auto.
    + apply py_append_at_nonneg in Hbody as [Hk2 ->]; [|done].
      rewrite length_alter in Hk2. rewrite !length_alter in Hlen.
      rewrite !total_degree_alter in Hdeg by (by rewrite ?length_alter).
      split; [done|]. split; [simpl; lia|].
      intros k y.
      rewrite Hmem, !elem_of_alter_append by (by rewrite ?length_alter).
      split.
      * intros [[[H|[-> ->]]|[-> ->]]|(e' & w1 & w2 & He' & Hw)].
        -- by left.
        -- right. exists e, v1, v2. rewrite Z2Nat.id by done.
           split; [left|]. auto.
        -- right. exists e, v1, v2. rewrite Z2Nat.id by done.
           split; [left|]. auto 10.
        -- right. exists e', w1, w2. split; [by right|done].
      * intros [H|(e' & w1 & w2 & He' & Hw1 & Hw2 & Hw)]; [auto|].
        apply elem_of_cons in He' as [->|He'].
        -- rewrite Hv1 in Hw1. rewrite Hv2 in Hw2.
           injection Hw1 as <-. injection Hw2 as <-.
           destruct Hw as [[Hk ->]|(_ & Hk & ->)].
           ++ left. left. right. split; [lia|done].
           ++ left. right. split; [lia|done].
        -- right. exists e', w1, w2. auto.
Qed.

Lemma lookup_replicate_nil (n k : nat) (y : Z) :
  ~ y ∈ default [] (replicate n (@nil Z) !! k).
Proof.
  destruct (replicate n [] !! k) as [ys|] eqn:H; simpl.
  - apply lookup_replicate in H as [-> _]. apply not_elem_of_nil.
  - apply not_elem_of_nil.
Qed.

Lemma total_degree_replicate_nil (n : nat) :
  total_degree (replicate n []) = 0%nat.
Proof.
  induction n as [|n IH]; [done|].
  change (replicate (S n) (@nil Z)) with (@nil Z :: replicate n []).
  by rewrite total_degree_cons, IH.
Qed.

(** The adjacency list of a graph accepted by construction, in terms of
    the rows of its edge array. *)
Lemma Graph_init_adjacency c a g :
  Graph_init c a = Ret g ->
  exists n, graph_ok g n /\ 1 <= n /\
    total_degree (adjacency_list g)
    = ((if directed c then 1 else 2) * n_edges g)%nat /\
    forall (k : nat) y,
      y ∈ default [] (adjacency_list g !! k) <->
      has_edge (adjacency_array g) (Z.of_nat k) y \/
      (directed c = false /\ has_edge (adjacency_array g) y (Z.of_nat k)).
Proof.
  intros H. pose proof (Graph_init_ok _ _ _ H) as (n & Hok & Hn1 & _ & Hmin).
  apply Graph_init_inv in H as (_ & _ & _ & _ & _ & _ & Ha & Hadj).
  exists n. split; [done|]. split; [done|].
  unfold _get_adjacency_list in Hadj. inv_bind Hadj as n' Hn'.
  apply _get_adjacency_list_loop in Hadj as (_ & Hdeg & Hmem).
  2:{ intros x. rewrite Ha, ravel_first_seen. apply Hmin. }
  rewrite total_degree_replicate_nil, length_seq in Hdeg. split; [done|].
  intros k y. rewrite Hmem. unfold has_edge. split.
  - intros [Hk|(e & v1 & v2 & _ & H1 & H2 & [[-> ->]|(Hd & -> & ->)])].
    + by apply lookup_replicate_nil in Hk.
    + left. eauto.
    + right. eauto.
  - intros [(e & H1 & H2)|(Hd & e & H1 & H2)].
    + right. exists e, (Z.of_nat k), y. split; [|auto].
      apply elem_of_seq. unfold nd_get in H1.
      destruct (rows (adjacency_array g) !! e) eqn:E; [|discriminate].
      apply lookup_lt_Some in E. unfold n_edges_of, shape0. lia.
    + right. exists e, y, (Z.of_nat k). split; [|auto 10].
      apply elem_of_seq. unfold nd_get in H1.
      destruct (rows (adjacency_array g) !! e) eqn:E; [|discriminate].
      apply lookup_lt_Some in E. unfold n_edges_of, shape0. lia.
Qed.

Lemma _check_vertex_in_range g n v :
  n_vertices g = Ret n -> in_range n v -> _check_vertex g v = Ret ().
Proof.
  intros Hn Hv. unfold _check_vertex, in_range in *. rewrite Hn. simpl.
  by rewrite bool_decide_false by lia.
Qed.

Lemma _check_vertex_out_of_range g n v :
  n_vertices g = Ret n -> ~ in_range n v ->
  _check_vertex g v = Raise (ValueError BadVertex).
Proof.
  intros Hn Hv. unfold _check_vertex, in_range in *. rewrite Hn. simpl.
  by rewrite bool_decide_true by lia.
Qed.

Lemma _check_vertex_Ret g n v :
  n_vertices g = Ret n -> _check_vertex g v = Ret () -> in_range n v.
Proof.
  intros Hn Hc. destruct (decide (in_range n v)) as [|Hv]; [done|].
  rewrite (_check_vertex_out_of_range g n v Hn Hv) in Hc. discriminate.
Qed.

Lemma graph_ok_getitem g n v :
  graph_ok g n -> in_range n v ->
  exists l, py_getitem (adjacency_list g) v = Ret l /\
            adjacency_list g !! Z.to_nat v = Some l.
Proof.
  intros (_ & _ & Hlen & _) Hv. unfold in_range in Hv.
  apply py_getitem_in_range. lia.
Qed.

(** The entries of the adjacency list of an accepted graph, against the
    rows of the array it was built from. *)
Lemma Graph_init_neighbours c a g n u :
  Graph_init c a = Ret g -> n_vertices g = Ret n -> in_range n u ->
  exists l, py_getitem (adjacency_list g) u = Ret l /\
    forall v, v ∈ l <->
      has_edge a u v \/ (directed c = false /\ has_edge a v u).
Proof.
  intros H Hn Hu.
  pose proof (Graph_init_inv _ _ _ H) as (_ & _ & _ & _ & _ & _ & Ha & _).
  destruct (Graph_init_adjacency _ _ _ H) as (n' & Hok & _ & _ & Hmem).
  destruct Hok as [Hn' Hok]. rewrite Hn in Hn'. injection Hn' as <-.
  destruct (graph_ok_getitem g n u (conj Hn Hok) Hu) as (l & Hl & Hlk).
  exists l. split; [done|]. intros v.
  specialize (Hmem (Z.to_nat u) v). rewrite Hlk in Hmem. simpl in Hmem.
  unfold in_range in Hu. rewrite Z2Nat.id in Hmem by lia.
  rewrite Hmem, Ha, !has_edge_first_seen. done.
Qed.

(** The arcs of the adjacency list of an accepted graph are its edges. *)
Lemma Graph_init_arc c a g u y :
  Graph_init c a = Ret g ->
  arc (adjacency_list g) u y <->
  has_edge a u y \/ (directed c = false /\ has_edge a y u).
Proof.
  intros H.
  destruct (Graph_init_adjacency _ _ _ H) as (n & _ & _ & _ & Hmem).
  pose proof (Graph_init_ok _ _ _ H) as (_ & _ & _ & _ & [_ Hmin]).
  pose proof (Graph_init_inv _ _ _ H) as (_ & _ & _ & _ & _ & _ & Ha & _).
  rewrite Ha in Hmem. setoid_rewrite has_edge_first_seen in Hmem.
  split.
  - intros (Hu & ys & Hys & Hy). specialize (Hmem (Z.to_nat u) y).
    rewrite Hys, Z2Nat.id in Hmem by done. by apply Hmem.
  - intros Hedge.
    assert (0 <= u) as Hu.
    { apply Hmin. destruct Hedge as [He|[_ He]];
        apply has_edge_ravel in He; tauto. }
    specialize (Hmem (Z.to_nat u) y). rewrite Z2Nat.id in Hmem by done.
    apply Hmem in Hedge. split; [done|].
    destruct (adjacency_list g !! Z.to_nat u) as [ys|]; [eauto|].
    by apply elem_of_nil in Hedge.
Qed.

(** X1. [UndirectedGraph.neighbours] on an accepted undirected graph: at
    a vertex [u] of the graph it returns a list that holds exactly the
    vertices [v] for which [[u, v]] or [[v, u]] is a row of the edge array;
    at any other integer it raises the [ValueError] of [_check_vertex]; and
    the relation is symmetric: [v] is a neighbour of [u] exactly when [u]
    is a neighbour of [v]. *)
Theorem neighbours_spec (a : ndarray) (g : graph) (n u : Z) :
  Graph_init UndirectedGraph a = Ret g -> n_vertices g = Ret n ->
  (in_range n u ->
     exists l, neighbours g u = Ret l /\
       forall v, v ∈ l <-> has_edge a u v \/ has_edge a v u) /\
  (~ in_range n u -> neighbours g u = Raise (ValueError BadVertex)) /\
  (forall v lu lv,
     neighbours g u = Ret lu -> neighbours g v = Ret lv ->
     (v ∈ lu <-> u ∈ lv)).
Proof.
  intros H Hn.
  assert (forall u lu, neighbours g u = Ret lu ->
            forall v, v ∈ lu <-> has_edge a u v \/ has_edge a v u) as Hret.
  { clear u. intros u lu Hu. unfold neighbours in Hu.
    inv_bind Hu as x Hx. destruct x.
    pose proof (_check_vertex_Ret g n u Hn Hx) as Hr.
    destruct (Graph_init_neighbours _ _ _ _ _ H Hn Hr) as (l & Hl & Hmem).
    rewrite Hu in Hl. injection Hl as <-.
    intros v. rewrite Hmem. simpl. tauto. }
  split; [|split].
  - intros Hu. unfold neighbours.
    rewrite (_check_vertex_in_range g n u) by done. simpl.
    destruct (Graph_init_neighbours _ _ _ _ _ H Hn Hu) as (l & Hl & Hmem).
    exists l. split; [done|]. intros v. rewrite Hmem. simpl. tauto.
  - intros Hu. unfold neighbours.
    by rewrite (_check_vertex_out_of_range g n u).
  - intros v lu lv Hu Hv. rewrite (Hret u lu Hu v), (Hret v lv Hv u). tauto.
Qed.

Lemma neighbours_spec_witness :
  exists g,
    Graph_init UndirectedGraph (np_array_of_pairs [(0, 1); (1, 2)]) = Ret g /\
    neighbours g 3 = Raise (ValueError BadVertex) /\
    exists l, neighbours g 1 = Ret l /\ 0 ∈ l /\ 2 ∈ l.
Proof.
  eexists. split; [vm_compute; reflexivity|].
  destruct (neighbours_spec (np_array_of_pairs [(0, 1); (1, 2)]) _ 3 3
              eq_refl eq_refl) as (_ & Hout & _).
  destruct (neighbours_spec (np_array_of_pairs [(0, 1); (1, 2)]) _ 3 1
              eq_refl eq_refl) as (Hin & _ & _).
  split; [apply Hout; unfold in_range; lia|].
  destruct Hin as (l & Hl & Hmem); [unfold in_range; lia|].
  exists l. split; [exact Hl|]. split; apply Hmem.
  - right. exists 0%nat. split; reflexivity.
  - left. exists 1%nat. split; reflexivity.
Defined.

(** X2. [DirectedGraph.children] on an accepted directed graph or tree: at
    a vertex [p] it returns a list that holds exactly the vertices [v] for
    which [[p, v]] is a row of the edge array, and at any other integer it
    raises the [ValueError] of [_check_vertex]. *)
Theorem children_edges (c : klass) (a : ndarray) (g : graph) (n p : Z) :
  directed c = true ->
  Graph_init c a = Ret g -> n_vertices g = Ret n ->
  (in_range n p ->
     exists l, children g p = Ret l /\ forall v, v ∈ l <-> has_edge a p v) /\
  (~ in_range n p -> children g p = Raise (ValueError BadVertex)).
Proof.
  intros Hd H Hn. unfold children. split; intros Hu.
  - rewrite (_check_vertex_in_range g n p) by done. simpl.
    destruct (Graph_init_neighbours _ _ _ _ _ H Hn Hu) as (l & Hl & Hmem).
    exists l. split; [done|]. intros v. rewrite Hmem, Hd. split; [|auto].
    intros [?|[? _]]; done.
  - by rewrite (_check_vertex_out_of_range g n p).
Qed.

Lemma children_edges_witness :
  exists g,
    Graph_init DirectedGraph (np_array_of_pairs [(0, 1); (0, 2); (1, 3)])
      = Ret g /\
    children g (-1) = Raise (ValueError BadVertex) /\
    exists l, children g 0 = Ret l /\ 2 ∈ l.
Proof.
  eexists. split; [vm_compute; reflexivity|].
  destruct (children_edges DirectedGraph
              (np_array_of_pairs [(0, 1); (0, 2); (1, 3)]) _ 4 (-1)
              eq_refl eq_refl eq_refl) as [_ Hout].
  destruct (children_edges DirectedGraph
              (np_array_of_pairs [(0, 1); (0, 2); (1, 3)]) _ 4 0
              eq_refl eq_refl eq_refl) as [Hin _].
  split; [apply Hout; unfold in_range; lia|].
  destruct Hin as (l & Hl & Hmem); [unfold in_range; lia|].
  exists l. split; [exact Hl|]. apply Hmem. exists 1%nat. split; reflexivity.
Defined.

(* ================================================================== *)
(** ** Degrees *)

Lemma mapM_res_lookup_range {A B} (f : Z -> res B) (h : A -> B) (l : list A) :
  (forall (k : nat) x, l !! k = Some x -> f (Z.of_nat k) = Ret (h x)) ->
  mapM f (range (Z.of_nat (length l))) = Ret (h <$> l).
Proof.
  unfold range. rewrite Nat2Z.id. intros Hf.
  assert (forall (pre : list A),
    (forall (k : nat) x, l !! k = Some x ->
       f (Z.of_nat (length pre + k)) = Ret (h x)) ->
    mapM f (Z.of_nat <$> seq (length pre) (length l)) = Ret (h <$> l)) as Hgen.
  { clear Hf. induction l as [|x l IH]; intros pre Hf; [done|].
    change (seq (length pre) (length (x :: l)))
      with (length pre :: seq (S (length pre)) (length l)).
    rewrite !fmap_cons, mapM_res_cons.
    pose proof (Hf 0%nat x eq_refl) as H0. rewrite Nat.add_0_r in H0.
    rewrite H0. specialize (IH (pre ++ [x])).
    rewrite length_app in IH. simpl length in IH. rewrite Nat.add_1_r in IH.
    change (Ret (h x) ≫= ?k) with (k (h x)). cbv beta.
    rewrite IH; [done|]. intros k y Hk.
    replace (S (length pre) + k)%nat with (length pre + S k)%nat by lia.
    by apply Hf. }
  apply (Hgen []). intros k x Hk. by apply Hf.
Qed.

(** X3. The degrees of all vertices add up: [n_neighbours] returns at
    every vertex of an accepted undirected graph and the results sum to
    twice [n_edges]; [n_children] returns at every vertex of an accepted
    directed graph and the results sum to [n_edges]. *)
Theorem degree_sum (c : klass) (a : ndarray) (g : graph) (n : Z) :
  Graph_init c a = Ret g -> n_vertices g = Ret n ->
  exists degrees,
    mapM (if directed c then n_children g else n_neighbours g) (range n)
      = Ret degrees /\
    sum_list degrees = ((if directed c then 1 else 2) * n_edges g)%nat.
Proof.
  intros H Hn.
  destruct (Graph_init_adjacency _ _ _ H) as (n' & Hok & _ & Hdeg & _).
  pose proof Hok as [Hn' (Hn0 & Hlen & _)].
  rewrite Hn in Hn'. injection Hn' as <-.
  exists (length <$> adjacency_list g). split; [|exact Hdeg].
  replace n with (Z.of_nat (length (adjacency_list g))) by lia.
  apply mapM_res_lookup_range. intros k l Hk.
  assert (in_range n (Z.of_nat k)) as Hr.
  { apply lookup_lt_Some in Hk. unfold in_range. lia. }
  assert (py_getitem (adjacency_list g) (Z.of_nat k) = Ret l) as Hget.
  { destruct (graph_ok_getitem g n _ Hok Hr) as (l' & Hl' & Hlk).
    rewrite Nat2Z.id in Hlk. congruence. }
  destruct (directed c); unfold n_children, children, n_neighbours, neighbours;
    rewrite (_check_vertex_in_range g n _ Hn Hr); simpl; by rewrite Hget.
Qed.

Lemma degree_sum_witness :
  exists g degrees,
    Graph_init UndirectedGraph (np_array_of_pairs [(0, 1); (1, 2)]) = Ret g /\
    mapM (n_neighbours g) (range 3) = Ret degrees /\
    sum_list degrees = 4%nat.
Proof.
  eexists.
  destruct (degree_sum UndirectedGraph (np_array_of_pairs [(0, 1); (1, 2)]) _ 3
              eq_refl eq_refl) as (degrees & Hd & Hsum).
  exists degrees. split; [vm_compute; reflexivity|]. split; [exact Hd|].
  exact Hsum.
Defined.

(* ================================================================== *)
(** ** [is_edge] *)

(** X4. [UndirectedGraph.is_edge] on an accepted undirected graph: for
    two vertices it returns whether [[u, v]] or [[v, u]] is a row of the
    edge array; when one of the two is not a vertex it raises the
    [ValueError] of [_check_vertex]; and it does the same on [(u, v)] and
    [(v, u)]. *)
Theorem UndirectedGraph_is_edge_spec (a : ndarray) (g : graph) (n u v : Z) :
  Graph_init UndirectedGraph a = Ret g -> n_vertices g = Ret n ->
  (in_range n u -> in_range n v ->
     exists b, UndirectedGraph_is_edge g u v = Ret b /\
               (b = true <-> has_edge a u v \/ has_edge a v u)) /\
  (~ in_range n u \/ ~ in_range n v ->
     UndirectedGraph_is_edge g u v = Raise (ValueError BadVertex)) /\
  UndirectedGraph_is_edge g u v = UndirectedGraph_is_edge g v u.
Proof.
  intros H Hn.
  assert (forall u v, in_range n u -> in_range n v ->
     exists b, UndirectedGraph_is_edge g u v = Ret b /\
               (b = true <-> has_edge a u v \/ has_edge a v u)) as Hin.
  { clear u v. intros u v Hu Hv. unfold UndirectedGraph_is_edge.
    rewrite !(_check_vertex_in_range g n) by done. simpl.
    destruct (Graph_init_neighbours _ _ _ _ _ H Hn Hu) as (lu & -> & Hmu).
    destruct (Graph_init_neighbours _ _ _ _ _ H Hn Hv) as (lv & -> & Hmv).
    simpl in *. case_bool_decide as Huv.
    - exists true. split; [done|]. split; [|done]. intros _.
      apply Hmv in Huv. tauto.
    - exists (bool_decide (v ∈ lu)). split; [done|].
      rewrite bool_decide_eq_true, Hmu. tauto. }
  assert (forall u v, ~ in_range n u \/ ~ in_range n v ->
     UndirectedGraph_is_edge g u v = Raise (ValueError BadVertex)) as Hout.
  { clear u v. intros u v Huv. unfold UndirectedGraph_is_edge.
    destruct (decide (in_range n u)) as [Hu|Hu].
    - rewrite (_check_vertex_in_range g n u) by done. simpl.
      rewrite (_check_vertex_out_of_range g n v) by tauto. done.
    - by rewrite (_check_vertex_out_of_range g n u). }
  split; [auto|]. split; [auto|].
  destruct (decide (in_range n u)) as [Hu|Hu];
    [|rewrite !Hout by tauto; done].
  destruct (decide (in_range n v)) as [Hv|Hv];
    [|rewrite !Hout by tauto; done].
  destruct (Hin u v Hu Hv) as (b & -> & Hb).
  destruct (Hin v u Hv Hu) as (b' & -> & Hb'). f_equal.
  apply eq_true_iff_eq. rewrite Hb, Hb'. tauto.
Qed.

Lemma UndirectedGraph_is_edge_spec_witness :
  exists g,
    Graph_init UndirectedGraph (np_array_of_pairs [(0, 1); (1, 2)]) = Ret g /\
    UndirectedGraph_is_edge g 2 1 = Ret true /\
    UndirectedGraph_is_edge g 2 3 = Raise (ValueError BadVertex).
Proof.
  eexists. split; [vm_compute; reflexivity|].
  destruct (UndirectedGraph_is_edge_spec
              (np_array_of_pairs [(0, 1); (1, 2)]) _ 3 2 1 eq_refl eq_refl)
    as (Hin & _ & _).
  destruct (UndirectedGraph_is_edge_spec
              (np_array_of_pairs [(0, 1); (1, 2)]) _ 3 2 3 eq_refl eq_refl)
    as (_ & Hout & _).
  split; [|apply Hout; right; unfold in_range; lia].
  destruct Hin as (b & Hb & Hiff); [unfold in_range; lia..|].
  refine (eq_trans Hb _). f_equal. apply Hiff. right. exists 1%nat. split; reflexivity.
Defined.

(** X5. [DirectedGraph.is_edge] on an accepted directed graph: for two
    vertices it returns whether [[parent, child]] is a row of the edge
    array, and when one of the two is not a vertex it raises the
    [ValueError] of [_check_vertex]. *)
Theorem DirectedGraph_is_edge_spec (c : klass) (a : ndarray) (g : graph)
    (n p v : Z) :
  directed c = true ->
  Graph_init c a = Ret g -> n_vertices g = Ret n ->
  (in_range n p -> in_range n v ->
     exists b, DirectedGraph_is_edge g p v = Ret b /\
               (b = true <-> has_edge a p v)) /\
  (~ in_range n p \/ ~ in_range n v ->
     DirectedGraph_is_edge g p v = Raise (ValueError BadVertex)).
Proof.
  intros Hd H Hn. unfold DirectedGraph_is_edge. split.
  - intros Hp Hv. rewrite !(_check_vertex_in_range g n) by done. simpl.
    destruct (Graph_init_neighbours _ _ _ _ _ H Hn Hp) as (l & -> & Hm).
    simpl. eexists. split; [done|]. rewrite bool_decide_eq_true, Hm, Hd.
    split; [|auto]. intros [?|[? _]]; done.
  - intros Hpv. destruct (decide (in_range n p)) as [Hp|Hp].
    + rewrite (_check_vertex_in_range g n p) by done. simpl.
      rewrite (_check_vertex_out_of_range g n v) by tauto. done.
    + by rewrite (_check_vertex_out_of_range g n p).
Qed.

Lemma DirectedGraph_is_edge_spec_witness :
  exists g,
    Graph_init DirectedGraph (np_array_of_pairs [(0, 1); (0, 2); (1, 3)])
      = Ret g /\
    DirectedGraph_is_edge g 1 3 = Ret true /\
    DirectedGraph_is_edge g 4 0 = Raise (ValueError BadVertex).
Proof.
  eexists. split; [vm_compute; reflexivity|].
  destruct (DirectedGraph_is_edge_spec DirectedGraph
              (np_array_of_pairs [(0, 1); (0, 2); (1, 3)]) _ 4 1 3
              eq_refl eq_refl eq_refl) as [Hin _].
  destruct (DirectedGraph_is_edge_spec DirectedGraph
              (np_array_of_pairs [(0, 1); (0, 2); (1, 3)]) _ 4 4 0
              eq_refl eq_refl eq_refl) as [_ Hout].
  split; [|apply Hout; left; unfold in_range; lia].
  destruct Hin as (b & Hb & Hiff); [unfold in_range; lia..|].
  refine (eq_trans Hb _). f_equal. apply Hiff. exists 2%nat. split; reflexivity.
Defined.

(* ================================================================== *)
(** ** The adjacency matrix and the parents in a directed graph *)

Lemma mat_at_insert mat (r c i j : nat) row :
  mat !! r = Some row -> (c < length row)%nat ->
  mat_at (<[r := <[c := true]> row]> mat) i j
  = mat_at mat i j || (bool_decide (i = r) && bool_decide (j = c)).
Proof.
  intros Hr Hc. unfold mat_at. pose proof (lookup_lt_Some _ _ _ Hr) as Hlt.
  destruct (decide (i = r)) as [->|Hne].
  - rewrite list_lookup_insert_eq by done. rewrite Hr. simpl.
    rewrite (bool_decide_true (r = r)) by done. simpl.
    destruct (decide (j = c)) as [->|Hnc].
    + rewrite list_lookup_insert_eq by done. simpl.
      rewrite bool_decide_true by done. by rewrite orb_true_r.
    + rewrite list_lookup_insert_ne by done.
      rewrite (bool_decide_false (j = c)) by done. by rewrite orb_false_r.
  - rewrite list_lookup_insert_ne by done.
    rewrite (bool_decide_false (i = r)) by done. simpl. by rewrite orb_false_r.
Qed.

Lemma mat_set_in_range n mat (i j : Z) :
  square n mat -> 0 <= i < Z.of_nat n -> 0 <= j < Z.of_nat n ->
  exists mat', mat_set mat i j = Ret mat' /\ square n mat' /\
    forall i' j', mat_at mat' i' j'
      = mat_at mat i' j'
        || (bool_decide (i' = Z.to_nat i) && bool_decide (j' = Z.to_nat j)).
Proof.
  intros [Hlen Hrows] Hi Hj. unfold mat_set.
  rewrite py_norm_index_in_range by lia.
  destruct (lookup_lt_is_Some_2 mat (Z.to_nat i)) as [row Hrow]; [lia|].
  rewrite Hrow. pose proof (Forall_lookup_1 _ _ _ _ Hrows Hrow) as Hrl.
  simpl in Hrl. rewrite py_norm_index_in_range by lia.
  eexists. split; [done|]. split.
  - split; [by rewrite length_insert|].
    apply Forall_insert; [done|]. by rewrite length_insert.
  - intros i' j'. apply mat_at_insert; [done|lia].
Qed.

Lemma get_adjacency_matrix_loop (dir : bool) a n l mat :
  square n mat ->
  Forall (fun e => exists v1 v2,
            nd_get a e 0 = Ret v1 /\ nd_get a e 1 = Ret v2 /\
            0 <= v1 < Z.of_nat n /\ 0 <= v2 < Z.of_nat n) l ->
  exists mat',
    for_each (fun mat e =>
        v1 ← nd_get a e 0;
        v2 ← nd_get a e 1;
        mat ← mat_set mat v1 v2;
        if dir then Ret mat else mat_set mat v2 v1) l mat = Ret mat' /\
    square n mat' /\
    forall i j : nat,
      mat_at mat' i j = true <->
      mat_at mat i j = true \/
      exists e v1 v2, e ∈ l /\ nd_get a e 0 = Ret v1 /\ nd_get a e 1 = Ret v2 /\
        ((Z.of_nat i = v1 /\ Z.of_nat j = v2) \/
         (dir = false /\ Z.of_nat i = v2 /\ Z.of_nat j = v1)).
Proof.
  intros Hsq Hl. revert mat Hsq.
  induction Hl as [|e l (v1 & v2 & Hv1 & Hv2 & Hr1 & Hr2) _ IH]; intros mat Hsq.
  - exists mat. split; [done|]. split; [done|]. intros i j. split; [auto|].
    intros [?|(e & ? & ? & He & _)]; [done|]. by apply elem_of_nil in He.
  - simpl. rewrite Hv1, Hv2. simpl.
    destruct (mat_set_in_range n mat v1 v2 Hsq Hr1 Hr2) as (m1 & -> & Hsq1 & Hm1).
    simpl.
    assert (exists m2,
      (if dir then Ret m1 else mat_set m1 v2 v1) = Ret m2 /\ square n m2 /\
      forall i j : nat, mat_at m2 i j = true <->
        mat_at mat i j = true \/
        (Z.of_nat i = v1 /\ Z.of_nat j = v2) \/
        (dir = false /\ Z.of_nat i = v2 /\ Z.of_nat j = v1))
      as (m2 & -> & Hsq2 & Hm2).
    { destruct dir.
      - exists m1. split; [done|]. split; [done|]. intros i j.
        rewrite Hm1, orb_true_iff, andb_true_iff, !bool_decide_eq_true.
        split; [intros [?|[? ?]]; [auto|right; left; lia]|].
        intros [?|[[? ?]|[? _]]]; [auto|right; lia|done].
      - destruct (mat_set_in_range n m1 v2 v1 Hsq1 Hr2 Hr1)
          as (m2 & -> & Hsq2 & Hm2).
        exists m2. split; [done|]. split; [done|]. intros i j.
        rewrite Hm2, Hm1, !orb_true_iff, !andb_true_iff, !bool_decide_eq_true.
        split.
        + intros [[?|[? ?]]|[? ?]]; [auto|right; left; lia|right; right].
          split; [done|lia].
        + intros [?|[[? ?]|(_ & ? & ?)]]; [auto|left; right; lia|right; lia]. }
    simpl. destruct (IH m2 Hsq2) as (mat' & -> & Hsq' & Hmat').
    exists mat'. split; [done|]. split; [done|]. intros i j.
    rewrite Hmat', Hm2. split.
    + intros [[?|Hnew]|(e' & w1 & w2 & He' & Hw)]; [auto| |].
      * right. exists e, v1, v2. split; [left|]. auto.
      * right. exists e', w1, w2. split; [by right|done].
    + intros [?|(e' & w1 & w2 & He' & Hw1 & Hw2 & Hw)]; [auto|].
      apply elem_of_cons in He' as [->|He'].
      * rewrite Hv1 in Hw1. rewrite Hv2 in Hw2.
        injection Hw1 as <-. injection Hw2 as <-. auto.
      * right. exists e', w1, w2. auto.
Qed.

Lemma mat_at_replicate (n i j : nat) :
  mat_at (replicate n (replicate n false)) i j = false.
Proof.
  unfold mat_at. destruct (replicate n (replicate n false) !! i) eqn:Hi;
    [|done]. apply lookup_replicate in Hi as [-> _]. simpl.
  destruct (replicate n false !! j) eqn:Hj; [|done].
  by apply lookup_replicate in Hj as [-> _].
Qed.

Lemma square_replicate (n : nat) : square n (replicate n (replicate n false)).
Proof.
  split; [by rewrite length_replicate|].
  apply Forall_replicate. by rewrite length_replicate.
Qed.

(** Every row number of an accepted array holds two vertices. *)
Lemma Graph_init_rows c a g n :
  Graph_init c a = Ret g -> n_vertices g = Ret n ->
  Forall (fun e => exists v1 v2,
            nd_get (adjacency_array g) e 0 = Ret v1 /\
            nd_get (adjacency_array g) e 1 = Ret v2 /\
            0 <= v1 < n /\ 0 <= v2 < n)
         (seq 0 (n_edges g)).
Proof.
  intros H Hn.
  pose proof (Graph_init_inv _ _ _ H) as (_ & _ & _ & _ & _ & _ & Ha & Hadj).
  destruct (Graph_init_ok _ _ _ H) as (n' & [Hn' _] & _ & Hmax & Hmin).
  rewrite Hn in Hn'. injection Hn' as <-.
  assert (forall x, x ∈ ravel (adjacency_array g) -> 0 <= x < n) as Hr.
  { intros x. rewrite Ha, ravel_first_seen. intros Hx.
    destruct Hmax as [_ Hmax], Hmin as [_ Hmin].
    pose proof (Hmax _ Hx). pose proof (Hmin _ Hx). lia. }
  unfold _get_adjacency_list in Hadj. inv_bind Hadj as n' Hn'.
  unfold n_edges. generalize dependent (replicate (Z.to_nat n') (@nil Z)).
  induction (seq 0 (n_edges_of (adjacency_array g))) as [|e l IH];
    intros adj Hadj; [constructor|].
  simpl in Hadj. inv_bind Hadj as adj1 Hbody.
  inv_bind Hbody as v1 Hv1. inv_bind Hbody as v2 Hv2.
  constructor; [|by eapply IH].
  exists v1, v2. split; [done|]. split; [done|].
  split; apply Hr; eapply nd_get_elem; eauto.
Qed.

Lemma get_adjacency_matrix_entries (c : klass) (a : ndarray) (g : graph)
    (n : Z) :
  Graph_init c a = Ret g -> n_vertices g = Ret n ->
  exists mat,
    get_adjacency_matrix g = Ret mat /\
    square (Z.to_nat n) mat /\
    (forall i j : nat,
       mat_at mat i j = true <->
       has_edge a (Z.of_nat i) (Z.of_nat j) \/
       (directed c = false /\ has_edge a (Z.of_nat j) (Z.of_nat i))) /\
    (directed c = false -> forall i j, mat_at mat i j = mat_at mat j i).
Proof.
  intros H Hn.
  pose proof (Graph_init_inv _ _ _ H) as (_ & _ & _ & Hc & _ & _ & Ha & _).
  destruct (Graph_init_ok _ _ _ H) as (n' & [Hn' _] & Hn1 & _).
  rewrite Hn in Hn'. injection Hn' as <-.
  pose proof (Graph_init_rows _ _ _ _ H Hn) as Hrows.
  unfold get_adjacency_matrix. rewrite Hn, Hc. simpl.
  destruct (get_adjacency_matrix_loop (directed c) (adjacency_array g)
              (Z.to_nat n) (seq 0 (n_edges g))
              (replicate (Z.to_nat n) (replicate (Z.to_nat n) false)))
    as (mat & Hmat & Hsq & Hspec).
  { apply square_replicate. }
  { eapply Forall_impl; [exact Hrows|]. intros e (v1 & v2 & ? & ? & ? & ?).
    exists v1, v2. rewrite Z2Nat.id by lia. done. }
  exists mat. split; [exact Hmat|]. split; [done|].
  assert (forall i j : nat,
     mat_at mat i j = true <->
     has_edge a (Z.of_nat i) (Z.of_nat j) \/
     (directed c = false /\ has_edge a (Z.of_nat j) (Z.of_nat i))) as Hchar.
  { intros i j. rewrite Hspec, mat_at_replicate.
    rewrite <- !(has_edge_first_seen a), <- Ha. unfold has_edge. split.
    - intros [?|(e & v1 & v2 & _ & H1 & H2 & [[-> ->]|(Hd & -> & ->)])];
        [done|left; eauto|right; eauto].
    - intros [(e & H1 & H2)|(Hd & e & H1 & H2)]; right.
      + exists e, (Z.of_nat i), (Z.of_nat j). split; [|auto].
        apply elem_of_seq. unfold nd_get in H1.
        destruct (rows (adjacency_array g) !! e) eqn:E; [|discriminate].
        apply lookup_lt_Some in E. unfold n_edges, n_edges_of, shape0. lia.
      + exists e, (Z.of_nat j), (Z.of_nat i). split; [|auto 10].
        apply elem_of_seq. unfold nd_get in H1.
        destruct (rows (adjacency_array g) !! e) eqn:E; [|discriminate].
        apply lookup_lt_Some in E. unfold n_edges, n_edges_of, shape0. lia. }
  split; [done|]. intros Hd i j.
  apply eq_true_iff_eq. rewrite !Hchar. tauto.
Qed.

Lemma mapM_res_fmap {A B} (f : A -> res B) (h : A -> B) (l : list A) :
  (forall x, x ∈ l -> f x = Ret (h x)) -> mapM f l = Ret (h <$> l).
Proof.
  induction l as [|x l IH]; intros Hf; [done|].
  rewrite mapM_res_cons, (Hf x) by left.
  rewrite IH by (intros y Hy; apply Hf; by right). done.
Qed.

Lemma elem_of_np_where_from (i : Z) (column : list bool) (p : Z) :
  p ∈ np_where_from i column <->
  exists k : nat, column !! k = Some true /\ p = i + Z.of_nat k.
Proof.
  revert i. induction column as [|b column IH]; intros i; simpl.
  - split; [intros Hp; by apply elem_of_nil in Hp|]. by intros (k & ? & _).
  - assert (p ∈ np_where_from (i + 1) column <->
            exists k : nat, (b :: column) !! S k = Some true /\
                            p = i + Z.of_nat (S k)) as Htl.
    { rewrite IH. split; intros (k & Hk & ->); exists k; (split; [done|lia]). }
    destruct b.
    + rewrite elem_of_cons, Htl. split.
      * intros [->|(k & Hk & ->)]; [exists 0%nat; split; [done|lia]|eauto].
      * intros ([|k] & Hk & ->); [left; lia|right; eauto].
    + rewrite Htl. split; [intros (k & ? & ?); eauto|].
      intros ([|k] & Hk & ->); [done|eauto].
Qed.

Lemma np_where_from_sorted (i : Z) (column : list bool) :
  StronglySorted Z.lt (np_where_from i column).
Proof.
  revert i. induction column as [|b column IH]; intros i; simpl;
    [constructor|].
  destruct b; [|apply IH]. constructor; [apply IH|].
  apply Forall_forall. intros p [k [_ ->]]%elem_of_np_where_from. lia.
Qed.

(** X6. [get_adjacency_matrix] on an accepted graph returns a square
    boolean matrix of side [n_vertices] whose entry [(i, j)] is true
    exactly when [[i, j]] is a row of the edge array or, in an undirected
    graph, [[j, i]] is; the matrix of an undirected graph is symmetric;
    and the matrix agrees with the adjacency list: the entry [(i, j)] is
    true exactly when [j] is in [adjacency_list[i]]. *)
Theorem get_adjacency_matrix_spec (c : klass) (a : ndarray) (g : graph)
    (n : Z) :
  Graph_init c a = Ret g -> n_vertices g = Ret n ->
  exists mat,
    get_adjacency_matrix g = Ret mat /\
    square (Z.to_nat n) mat /\
    (forall i j : nat,
       mat_at mat i j = true <->
       has_edge a (Z.of_nat i) (Z.of_nat j) \/
       (directed c = false /\ has_edge a (Z.of_nat j) (Z.of_nat i))) /\
    (directed c = false -> forall i j, mat_at mat i j = mat_at mat j i) /\
    (forall i j : nat,
       mat_at mat i j = true <->
       exists l, adjacency_list g !! i = Some l /\ Z.of_nat j ∈ l).
Proof.
  intros H Hn.
  destruct (get_adjacency_matrix_entries c a g n H Hn)
    as (mat & Hmat & Hsq & Hat & Hsym).
  exists mat. do 4 (split; [done|]). intros i j.
  rewrite Hat, <- (Graph_init_arc c a g _ _ H). unfold arc.
  rewrite Nat2Z.id. split.
  - intros (_ & l & Hl & Hj). eauto.
  - intros (l & Hl & Hj). split; [lia|eauto].
Qed.

Lemma get_adjacency_matrix_spec_witness :
  exists g mat,
    Graph_init UndirectedGraph (np_array_of_pairs [(0, 1); (1, 2)]) = Ret g /\
    get_adjacency_matrix g = Ret mat /\
    mat_at mat 2 1 = true /\ mat_at mat 1 2 = true.
Proof.
  eexists.
  destruct (get_adjacency_matrix_spec UndirectedGraph
              (np_array_of_pairs [(0, 1); (1, 2)]) _ 3 eq_refl eq_refl)
    as (mat & Hmat & _ & Hat & Hsym & _).
  exists mat. split; [vm_compute; reflexivity|]. split; [exact Hmat|].
  assert (mat_at mat 1 2 = true) as H12.
  { apply Hat. left. exists 1%nat. split; reflexivity. }
  split; [|exact H12]. rewrite (Hsym eq_refl 2%nat 1%nat). exact H12.
Defined.

(** X7. [DirectedGraph.parent] on an accepted directed graph: at a vertex
    [v] it returns the strictly increasing list of the vertices [p] for
    which [[p, v]] is a row of the edge array, and at any other integer it
    raises the [ValueError] of [_check_vertex]. *)
Theorem DirectedGraph_parent_spec (c : klass) (a : ndarray) (g : graph)
    (n v : Z) :
  directed c = true ->
  Graph_init c a = Ret g -> n_vertices g = Ret n ->
  (in_range n v ->
     exists l, DirectedGraph_parent g v = Ret l /\
       (forall p, p ∈ l <-> has_edge a p v) /\
       StronglySorted Z.lt l) /\
  (~ in_range n v -> DirectedGraph_parent g v = Raise (ValueError BadVertex)).
Proof.
  intros Hd H Hn. unfold DirectedGraph_parent. split; intros Hv.
  - rewrite (_check_vertex_in_range g n v) by done. simpl.
    destruct (get_adjacency_matrix_entries _ _ _ _ H Hn)
      as (mat & -> & [Hlen Hrows] & Hmat & _).
    simpl. unfold in_range in Hv.
    rewrite (mapM_res_fmap _ (fun row => default false (row !! Z.to_nat v))).
    2:{ intros row Hrow. rewrite Forall_forall in Hrows.
        destruct (py_getitem_in_range row v) as (x & -> & ->);
          [rewrite (Hrows _ Hrow); lia|done]. }
    simpl. eexists. split; [done|]. split; [|apply np_where_from_sorted].
    intros p. unfold np_where. rewrite elem_of_np_where_from. split.
    + intros (k & Hk & ->). rewrite list_lookup_fmap in Hk.
      destruct (mat !! k) as [row|] eqn:Hrow; [|done]. simpl in Hk.
      injection Hk as Hk.
      assert (mat_at mat k (Z.to_nat v) = true) as Hat.
      { unfold mat_at. rewrite Hrow. exact Hk. }
      apply Hmat in Hat as [Hat|[Hd' _]]; [|congruence].
      rewrite Z2Nat.id in Hat by lia. exact Hat.
    + intros Hp.
      assert (0 <= p < n) as Hpn.
      { destruct (Graph_init_ok _ _ _ H) as (n' & [Hn' _] & _ & Hmax & Hmin).
        rewrite Hn in Hn'. injection Hn' as <-.
        apply has_edge_ravel in Hp as [Hp _].
        destruct Hmax as [_ Hmax], Hmin as [_ Hmin].
        pose proof (Hmax _ Hp). pose proof (Hmin _ Hp). lia. }
      exists (Z.to_nat p). split; [|lia].
      assert (mat_at mat (Z.to_nat p) (Z.to_nat v) = true) as Hat.
      { apply Hmat. left. by rewrite !Z2Nat.id by lia. }
      unfold mat_at in Hat. rewrite list_lookup_fmap.
      destruct (mat !! Z.to_nat p) as [row|]; [|done]. simpl in *.
      by rewrite Hat.
  - by rewrite (_check_vertex_out_of_range g n v).
Qed.

Lemma DirectedGraph_parent_spec_witness :
  exists g,
    Graph_init DirectedGraph (np_array_of_pairs [(0, 1); (0, 2); (1, 3)])
      = Ret g /\
    DirectedGraph_parent g 4 = Raise (ValueError BadVertex) /\
    exists l, DirectedGraph_parent g 3 = Ret l /\ 1 ∈ l.
Proof.
  eexists. split; [vm_compute; reflexivity|].
  destruct (DirectedGraph_parent_spec DirectedGraph
              (np_array_of_pairs [(0, 1); (0, 2); (1, 3)]) _ 4 4
              eq_refl eq_refl eq_refl) as [_ Hout].
  destruct (DirectedGraph_parent_spec DirectedGraph
              (np_array_of_pairs [(0, 1); (0, 2); (1, 3)]) _ 4 3
              eq_refl eq_refl eq_refl) as [Hin _].
  split; [apply Hout; unfold in_range; lia|].
  destruct Hin as (l & Hl & Hmem & _); [unfold in_range; lia|].
  exists l. split; [exact Hl|]. apply Hmem. exists 2%nat. split; reflexivity.
Defined.

(* ================================================================== *)
(** ** The search for cycles *)

Lemma dag_on_rtc adj X u y :
  dag_on adj X -> u ∈ X -> rtc (arc adj) u y -> y ∈ X.
Proof.
  intros [Hcl _] Hu Hr. induction Hr as [|u v y Huv _ IH]; [done|].
  apply IH. by apply (Hcl u).
Qed.

Lemma dag_on_exit adj X node :
  dag_on adj X -> node ∉ X ->
  (forall y, arc adj node y -> y ∈ X) ->
  dag_on adj ({[node]} ∪ X).
Proof.
  intros Hdag Hnode Hys. split.
  - intros u y Hu Huy. apply elem_of_union. right.
    apply elem_of_union in Hu as [Hu|Hu].
    + apply elem_of_singleton in Hu as ->. by apply Hys.
    + destruct Hdag as [Hcl _]. by apply (Hcl u).
  - intros u Hu Hcyc.
    assert (exists y, arc adj u y /\ rtc (arc adj) y u) as (y & Huy & Hyu).
    { inversion Hcyc as [? ? Hxy|? y ? Hxy Hrest]; subst.
      - exists u. split; [done|apply rtc_refl].
      - exists y. split; [done|by apply tc_rtc]. }
    apply elem_of_union in Hu as [Hu|Hu].
    + apply elem_of_singleton in Hu as ->.
      apply Hnode. apply (dag_on_rtc adj X y node); [done| |done].
      by apply Hys.
    + destruct Hdag as [_ Hac]. by apply (Hac u).
Qed.

Lemma dfs_classify_run d node y s :
  entered (dfs_classify d node y s) = entered s /\
  exited (dfs_classify d node y s) = exited s /\
  (back_edges s ≠ ∅ -> back_edges (dfs_classify d node y s) ≠ ∅) /\
  (d = true -> back_edges (dfs_classify d node y s) = ∅ ->
   y ∉ entered s \/ y ∈ exited s) /\
  (d = true -> back_edges (dfs_classify d node y s) ≠ ∅ ->
   back_edges s ≠ ∅ \/ active s y).
Proof.
  unfold dfs_classify. case_bool_decide as Hy.
  - simpl. repeat split; auto.
  - destruct (_ || _) eqn:Hb; simpl.
    + repeat split; auto.
      * intros _. apply insert_non_empty.
      * intros _ He. by apply insert_non_empty in He.
      * intros -> _. right. simpl in Hb.
        apply bool_decide_eq_true in Hb. split; [|done].
        destruct (decide (y ∈ entered s)); [done|tauto].
    + repeat split; auto. intros -> _. simpl in Hb.
      apply bool_decide_eq_false in Hb. right.
      destruct (decide (y ∈ exited s)); [done|tauto].
Qed.

Lemma dfs_run_refl adj d node st :
  exited st ⊆ entered st -> dfs_run adj d node st st.
Proof.
  intros Hsub. split; [done|]. split; [done|]. split; [done|].
  split; [auto|]. split; [auto|]. split; auto.
Qed.

Section Dfs.
Variable adj : list (list Z).
Variable n : Z.
Variable d : bool.
Hypothesis Hadj : adjacency_ok adj n.

Lemma dfs_spec fuel node st :
  in_range n node -> exited st ⊆ entered st ->
  (unentered n st < fuel)%nat ->
  exists st', dfs fuel adj d node st = Ret st' /\
    dfs_run adj d node st st' /\
    node ∈ entered st' /\
    (d = true -> back_edges st' = ∅ -> dag_on adj (exited st) ->
     dag_on adj (exited st') /\ (node ∉ entered st -> node ∈ exited st')).
Proof.
  revert node st.
  induction fuel as [|fuel IH]; intros node st Hnode Hsub Hfuel; [lia|].
  simpl. case_bool_decide as Hent.
  2:{ exists st.
      assert (node ∈ entered st) as Hin.
      { destruct (decide (node ∈ entered st)); [done|tauto]. }
      split; [done|]. split; [by apply dfs_run_refl|]. split; [done|].
      intros _ _ Hdag. split; [done|]. intros Hn. done. }
  destruct Hadj as (Hn & Hlen & Hall).
  destruct (py_getitem_in_range adj node) as (ys & -> & Hys);
    [unfold in_range in Hnode; lia|].
  simpl.
  set (st1 := DfsState ({[node]} ∪ entered st) (exited st)
                       (tree_edges st) (back_edges st)).
  assert (Forall (fun y => in_range n y /\ arc adj node y) ys) as Hys'.
  { apply Forall_forall. intros y Hy. split.
    - pose proof (Forall_lookup_1 _ _ _ _ Hall Hys) as H.
      rewrite Forall_forall in H. by apply H.
    - split; [unfold in_range in Hnode; lia|]. eauto. }
  pose proof (unentered_enter n st node Hnode Hent) as Hlt. fold st1 in Hlt.
  (* the loop over the children *)
  assert (forall s,
    exited s ⊆ entered s -> entered st1 ⊆ entered s ->
    exists s',
      for_each (fun st y => dfs fuel adj d y (dfs_classify d node y st))
               ys s = Ret s' /\
      dfs_run adj d node s s' /\
      (d = true -> back_edges s' = ∅ -> dag_on adj (exited s) ->
       dag_on adj (exited s') /\ forall y, y ∈ ys -> y ∈ exited s')) as Hloop.
  { clear Hys. induction ys as [|y ys IHys]; intros s Hs Hsub1.
    - simpl. exists s. split; [done|]. split.
      + by apply dfs_run_refl.
      + intros _ _ Hdag. split; [done|]. intros y Hy.
        by apply elem_of_nil in Hy.
    - inversion Hys' as [|? ? [Hy Harc] Hys'']; subst. simpl.
      destruct (dfs_classify_run d node y s)
        as (He0 & Hx0 & Hb0 & Hdag0 & Hsnd0).
      destruct (IH y (dfs_classify d node y s))
        as (s1 & Hs1 & Hrun1 & Hy1 & Hdag1).
      + done.
      + by rewrite He0, Hx0.
      + assert (entered st1 ⊆ entered (dfs_classify d node y s)) as Hsub0
          by (by rewrite He0).
        pose proof (unentered_mono n st1 _ Hsub0). lia.
      + rewrite Hs1. simpl.
        destruct Hrun1 as (Hen1 & Hex1 & Hsub1' & Hold1 & Hact1 & Hbk1 & Hsnd1).
        rewrite He0 in Hen1, Hold1. rewrite Hx0 in Hex1, Hold1.
        destruct (IHys Hys'' s1) as (s' & Hs' & Hrun' & Hdag'); [done| |].
        { by transitivity (entered s). }
        exists s'. split; [done|].
        destruct Hrun' as (Hen' & Hex' & Hsub' & Hold' & Hact' & Hbk' & Hsnd').
        assert (forall z, active s1 z -> active s z) as Hact1'.
        { intros z Hz. apply Hact1 in Hz. unfold active in *.
          by rewrite He0, Hx0 in Hz. }
        split.
        * split; [by transitivity (entered s1)|].
          split; [by transitivity (exited s1)|].
          split; [done|].
          split; [intros z Hz Hze; apply Hold1; [|done];
                  apply Hold'; [done|by apply Hen1]|].
          split; [auto|]. split; [auto|].
          intros Hd Hreach Hne.
          destruct (Hsnd' Hd) as [Hne1|?]; [auto|done| |by right].
          destruct (Hsnd1 Hd) as [Hne0|?]; [|done| |by right].
          { intros z Hz. unfold active in Hz. rewrite He0, Hx0 in Hz.
            eapply rtc_r; [by apply Hreach|done]. }
          destruct (Hsnd0 Hd Hne0) as [?|Hya]; [by left|]. right.
          exists y. eapply tc_rtc_l; [by apply Hreach|]. by apply tc_once.
        * intros Hd Hemp Hdag.
          assert (back_edges s1 = ∅) as Hemp1.
          { destruct (decide (back_edges s1 = ∅)); [done|].
            exfalso. by apply Hbk'. }
          assert (back_edges (dfs_classify d node y s) = ∅) as Hemp0.
          { destruct (decide (back_edges (dfs_classify d node y s) = ∅));
              [done|]. exfalso. by apply Hbk1. }
          destruct (Hdag1 Hd Hemp1) as [Hdag1' Hyex]; [by rewrite Hx0|].
          destruct (Hdag' Hd Hemp Hdag1') as [Hdag'' Hall'].
          split; [done|]. intros y' Hy'.
          apply elem_of_cons in Hy' as [->|Hy']; [|by apply Hall'].
          apply Hex'.
          destruct (Hdag0 Hd Hemp0) as [Hye|Hyx];
            [apply Hyex; by rewrite He0|by apply Hex1]. }
  destruct (Hloop st1) as (s' & -> & Hrun & Hdag).
  { simpl. transitivity (entered st); [done|]. apply union_subseteq_r. }
  { done. }
  destruct Hrun as (Hen & Hex & Hsub' & Hold & Hact & Hbk & Hsnd).
  simpl in Hen, Hex, Hold, Hbk, Hsnd.
  assert (node ∈ entered s') as Hnode'.
  { apply Hen. apply elem_of_union. left. by apply elem_of_singleton. }
  assert (node ∉ exited s') as Hnx.
  { intros Hx. apply Hent, Hsub, Hold; [done|].
    apply elem_of_union. left. by apply elem_of_singleton. }
  simpl. eexists. split; [done|]. split; [|split; [done|]].
  - split; simpl.
    { transitivity ({[node]} ∪ entered st); [apply union_subseteq_r|done]. }
    split. { transitivity (exited s'); [done|apply union_subseteq_r]. }
    split. { apply union_least; [by apply singleton_subseteq_l|done]. }
    split.
    { intros z Hz Hze. apply elem_of_union in Hz as [Hz|Hz].
      - apply elem_of_singleton in Hz as ->. done.
      - apply Hold; [done|]. apply elem_of_union. by right. }
    split.
    { intros z [Hz Hzx]. simpl in Hz, Hzx.
      rewrite not_elem_of_union, not_elem_of_singleton in Hzx.
      destruct Hzx as [Hzn Hzx].
      destruct (Hact z (conj Hz Hzx)) as [Hz1 Hz2]. simpl in Hz1, Hz2.
      split; [|done]. apply elem_of_union in Hz1 as [Hz1|Hz1]; [|done].
      by apply elem_of_singleton in Hz1. }
    split; [done|].
    intros Hd Hreach Hne. apply Hsnd; [done| |done].
    intros z [Hz Hzx]. simpl in Hz, Hzx.
    apply elem_of_union in Hz as [Hz|Hz].
    + apply elem_of_singleton in Hz as ->. apply rtc_refl.
    + by apply Hreach.
  - simpl. intros Hd Hemp Hdag0.
    destruct (Hdag Hd Hemp Hdag0) as [Hdag' Hall'].
    split; [|intros _; apply elem_of_union; left; by apply elem_of_singleton].
    apply (dag_on_exit adj (exited s') node); [done|done|].
    intros y (_ & ys' & Hys2 & Hy). rewrite Hys in Hys2.
    injection Hys2 as <-. by apply Hall'.
Qed.

Lemma _has_cycles_loop_spec xs :
  Forall (in_range n) xs ->
  exists b, _has_cycles_loop (S (length adj)) adj d xs = Ret b /\
    (d = true ->
     (b = true -> cyclic adj) /\
     (b = false -> forall x, x ∈ xs -> ~ tc (arc adj) x x)).
Proof.
  induction xs as [|x xs IH]; intros Hxs.
  - exists false. split; [done|]. intros _. split; [done|].
    intros _ x Hx. by apply elem_of_nil in Hx.
  - inversion Hxs as [|? ? Hx Hxs']; subst. rewrite _has_cycles_loop_cons.
    destruct (dfs_spec (S (length adj)) x dfs_empty Hx)
      as (st & -> & Hrun & _ & Hdag).
    { done. }
    { destruct Hadj as (_ & Hlen & _). unfold unentered. rewrite Hlen.
      apply Nat.lt_succ_r. rewrite <- (length_range n). apply length_filter. }
    simpl. destruct Hrun as (_ & _ & _ & _ & _ & _ & Hsnd).
    case_bool_decide as Hb.
    + exists true. split; [done|]. intros Hd. split; [|done]. intros _.
      destruct (Hsnd Hd) as [?|?]; [|done|done|done].
      intros z [Hz _]. simpl in Hz. by apply elem_of_empty in Hz.
    + destruct (IH Hxs') as (b & -> & Hspec). exists b. split; [done|].
      intros Hd. destruct (Hspec Hd) as [Htrue Hfalse]. split; [done|].
      intros Hbf y Hy. apply elem_of_cons in Hy as [->|Hy]; [|by apply Hfalse].
      assert (back_edges st = ∅) as Hemp.
      { destruct (decide (back_edges st = ∅)); [done|tauto]. }
      destruct (Hdag Hd Hemp) as [[_ Hac] Hin].
      { split; simpl.
        - intros u y Hu. by apply elem_of_empty in Hu.
        - intros u Hu. by apply elem_of_empty in Hu. }
      apply Hac, Hin. simpl. apply not_elem_of_empty.
Qed.

Lemma _has_cycles_spec :
  exists b, _has_cycles adj d = Ret b /\
            (d = true -> (b = true <-> cyclic adj)).
Proof.
  unfold _has_cycles.
  destruct (_has_cycles_loop_spec (range (Z.of_nat (length adj))))
    as (b & Hb & Hspec).
  { destruct Hadj as (Hn & Hlen & _). apply Forall_forall. intros x Hx.
    apply elem_of_range in Hx. unfold in_range. lia. }
  exists b. split; [done|]. intros Hd.
  destruct (Hspec Hd) as [Htrue Hfalse]. split; [done|].
  intros [x Hx]. destruct b; [done|]. exfalso.
  apply (Hfalse eq_refl x); [|done]. apply elem_of_range.
  assert (exists y, arc adj x y) as (y & Hx0 & ys & Hys & _).
  { inversion Hx; eauto. }
  apply lookup_lt_Some in Hys. lia.
Qed.
End Dfs.

Lemma tc_iff {A} (R R' : relation A) x y :
  (forall x y, R x y <-> R' x y) -> tc R x y <-> tc R' x y.
Proof.
  intros HR. split; induction 1 as [x y Hxy|x y z Hxy _ IH].
  - apply tc_once. by apply HR.
  - eapply tc_l; [|exact IH]. by apply HR.
  - apply tc_once. by apply HR.
  - eapply tc_l; [|exact IH]. by apply HR.
Qed.

Lemma Graph_init_cyclic (c : klass) (a : ndarray) (g : graph) :
  Graph_init c a = Ret g -> directed c = true ->
  cyclic (adjacency_list g) <-> exists x, tc (has_edge a) x x.
Proof.
  intros H Hd. unfold cyclic.
  split; intros [x Hx]; exists x; revert Hx; apply tc_iff; intros u y;
    rewrite (Graph_init_arc c a g u y H), Hd; split; auto;
    intros [?|[? _]]; done.
Qed.

Lemma has_cycles_cyclic (c : klass) (a : ndarray) (g : graph) :
  Graph_init c a = Ret g ->
  exists b, has_cycles g = Ret b /\
    (directed c = true -> (b = true <-> exists x, tc (has_edge a) x x)).
Proof.
  intros H.
  pose proof (Graph_init_ok _ _ _ H) as (n & [_ Hok] & _).
  pose proof (Graph_init_inv _ _ _ H) as (_ & _ & _ & Hc & _).
  unfold has_cycles. rewrite Hc.
  destruct (_has_cycles_spec (adjacency_list g) n (directed c) Hok)
    as (b & Hb & Hspec).
  exists b. split; [done|]. intros Hd.
  by rewrite (Hspec Hd), (Graph_init_cyclic c a g H Hd).
Qed.

(** X8. [has_cycles] returns on every accepted graph: its depth-first
    search ends and raises nothing.  On a directed graph or tree it returns
    [True] exactly when some vertex reaches itself along one edge or more,
    and then [is_tree] returns [False]. *)
Theorem has_cycles_spec (c : klass) (a : ndarray) (g : graph) :
  Graph_init c a = Ret g ->
  exists b, has_cycles g = Ret b /\
    (directed c = true -> (b = true <-> exists x, tc (has_edge a) x x)) /\
    (b = true -> is_tree g = Ret false).
Proof.
  intros H.
  pose proof (Graph_init_ok _ _ _ H) as (n & [_ Hok] & _).
  pose proof (Graph_init_inv _ _ _ H) as (_ & _ & _ & Hc & _).
  destruct (_has_cycles_spec (adjacency_list g) n (directed c) Hok)
    as (b & Hb & Hspec).
  assert (has_cycles g = Ret b) as Hcy.
  { unfold has_cycles. by rewrite Hc. }
  exists b. split; [done|]. split.
  - intros Hd. by rewrite (Hspec Hd), (Graph_init_cyclic c a g H Hd).
  - intros ->. unfold is_tree. by rewrite Hcy.
Qed.

Lemma has_cycles_spec_witness :
  exists g,
    Graph_init DirectedGraph (np_array_of_pairs [(0, 1); (1, 0)]) = Ret g /\
    has_cycles g = Ret true.
Proof.
  eexists. split; [vm_compute; reflexivity|].
  destruct (has_cycles_spec DirectedGraph
              (np_array_of_pairs [(0, 1); (1, 0)]) _ eq_refl)
    as (b & Hb & Hiff & _).
  refine (eq_trans Hb _). f_equal. apply (Hiff eq_refl). exists 0.
  apply (tc_l _ 0 1 0).
  - exists 0%nat. split; reflexivity.
  - apply tc_once. exists 1%nat. split; reflexivity.
Defined.

(* ================================================================== *)
(** ** Trees: parents and depths *)

Lemma py_setitem_nonneg {A} (l : list A) i x l' :
  0 <= i -> py_setitem l i x = Ret l' ->
  (Z.to_nat i < length l)%nat /\ l' = <[Z.to_nat i := x]> l.
Proof.
  intros Hi. unfold py_setitem, py_norm_index.
  rewrite bool_decide_true by done. case_bool_decide; [|discriminate].
  intros [= <-]. split; [lia|done].
Qed.

(** The entries of the predecessors list after the loop over the rows [l]:
    an entry is a parent written by a row of [l], or the entry of before;
    and a vertex that is the child of a row of [l] has a parent. *)
Lemma _get_predecessors_list_loop a l s s' :
  (forall x, x ∈ ravel a -> 0 <= x) ->
  for_each (fun preds e =>
      parent ← nd_get a e 0;
      child ← nd_get a e 1;
      py_setitem preds child (Some parent)) l s = Ret s' ->
  forall c : nat,
    (forall p, s' !! c = Some (Some p) ->
       s !! c = Some (Some p) \/
       exists e, e ∈ l /\ nd_get a e 0 = Ret p /\ nd_get a e 1 = Ret (Z.of_nat c))
    /\
    ((exists p, s !! c = Some (Some p)) \/
     (exists e, e ∈ l /\ nd_get a e 1 = Ret (Z.of_nat c)) ->
     exists p, s' !! c = Some (Some p)).
Proof.
  intros Hpos. revert s. induction l as [|e l IH]; intros s H c.
  - injection H as <-. split; [auto|].
    intros [?|(e & He & _)]; [done|]. by apply elem_of_nil in He.
  - simpl in H. inv_bind H as s1 Hbody.
    inv_bind Hbody as p0 Hp0. inv_bind Hbody as c0 Hc0.
    assert (0 <= c0) as Hc0' by (eapply Hpos, nd_get_elem; eauto).
    apply py_setitem_nonneg in Hbody as [Hlt ->]; [|done].
    destruct (IH _ H c) as [IH1 IH2]. split.
    + intros p Hp. destruct (IH1 p Hp) as [Hs1|(e' & He' & Hrest)].
      * destruct (decide (c = Z.to_nat c0)) as [->|Hne].
        -- rewrite list_lookup_insert_eq in Hs1 by done.
           injection Hs1 as <-. right. exists e. split; [left|].
           by rewrite Z2Nat.id.
        -- rewrite list_lookup_insert_ne in Hs1 by done. by left.
      * right. exists e'. split; [by right|done].
    + intros Hsome. apply IH2.
      destruct (decide (c = Z.to_nat c0)) as [->|Hne].
      * left. exists p0. by rewrite list_lookup_insert_eq.
      * destruct Hsome as [[p Hp]|(e' & He' & Hch)].
        -- left. exists p. by rewrite list_lookup_insert_ne.
        -- apply elem_of_cons in He' as [->|He'].
           ++ rewrite Hc0 in Hch. injection Hch as ->. lia.
           ++ right. eauto.
Qed.

(** An accepted tree is an accepted graph of class [Tree] with the two
    attributes of a tree. *)
Lemma Tree_init_graph a root t :
  Tree_init a root = Ret t ->
  exists g preds,
    Graph_init Tree a = Ret g /\
    adjacency_array t = adjacency_array g /\
    adjacency_list t = adjacency_list g /\
    cls t = Tree /\
    n_vertices t = n_vertices g /\ n_edges t = n_edges g /\
    root_vertex t = Some root /\ predecessors_list t = Some preds /\
    _get_predecessors_list (adjacency_array g) = Ret preds /\
    has_cycles g = Ret false.
Proof.
  unfold Tree_init. intros H. inv_bind H as g Hg.
  inv_bind H as tr Htr. inv_bind H as ok Hedges.
  destruct ok; [|discriminate]. simpl in H.
  inv_bind H as u Hchk. inv_bind H as preds Hpreds. injection H as <-.
  exists g, preds. simpl. repeat (split; [done|]).
  destruct tr; [|discriminate].
  unfold is_tree in Htr. inv_bind Htr as cy Hcy. by destruct cy.
Qed.

(** The edges of an accepted tree: no directed cycle, one edge fewer than
    vertices, and the predecessors list holds, for each vertex that is a
    child, one of its parents. *)
Lemma Tree_init_edges a root t :
  Tree_init a root = Ret t ->
  exists n preds,
    n_vertices t = Ret n /\ in_range n root /\
    root_vertex t = Some root /\ predecessors_list t = Some preds /\
    preds_ok preds n /\
    Z.of_nat (n_edges t) = n - 1 /\
    (forall x, ~ tc (has_edge a) x x) /\
    (forall (c : nat) p, preds !! c = Some (Some p) ->
                         has_edge a p (Z.of_nat c)) /\
    (forall c p, has_edge a p c ->
                 exists p', preds !! Z.to_nat c = Some (Some p')).
Proof.
  intros H.
  destruct (Tree_init_graph _ _ _ H)
    as (g & preds & Hg & Ha & Hl & Hc & Hn & He & Hr & Hp & Hpreds & Hcyc).
  destruct (Tree_init_inv _ _ _ H)
    as (n & preds' & Hnt & Hroot & _ & Hp' & Hok & _ & _ & _ & _ & _ & _ & Hne).
  rewrite Hp in Hp'. injection Hp' as <-.
  exists n, preds. repeat (split; [done|]).
  pose proof (Graph_init_ok _ _ _ Hg) as (_ & _ & _ & _ & [_ Hmin]).
  pose proof (Graph_init_inv _ _ _ Hg) as (_ & _ & _ & _ & _ & _ & Hag & _).
  split.
  { destruct (has_cycles_cyclic _ _ _ Hg) as (b & Hb & Hspec).
    rewrite Hcyc in Hb. injection Hb as <-.
    intros x Hx. assert (false = true) as Hf; [|discriminate].
    apply (Hspec eq_refl). eauto. }
  unfold _get_predecessors_list in Hpreds. inv_bind Hpreds as n' Hn'.
  assert (forall x, x ∈ ravel (adjacency_array g) -> 0 <= x) as Hpos.
  { intros x. rewrite Hag, ravel_first_seen. apply Hmin. }
  pose proof (_get_predecessors_list_loop _ _ _ _ Hpos Hpreds) as Hloop.
  split.
  - intros c p Hcp. destruct (Hloop c) as [Hl1 _].
    destruct (Hl1 p Hcp) as [Hrep|(e & _ & H0 & H1)].
    + apply lookup_replicate in Hrep as [? _]. done.
    + rewrite <- (has_edge_first_seen a), <- Hag. by exists e.
  - intros c p Hpc. rewrite <- (has_edge_first_seen a), <- Hag in Hpc.
    destruct Hpc as (e & H0 & H1).
    assert (0 <= c) as Hc0 by (eapply Hpos, nd_get_elem; eauto).
    destruct (Hloop (Z.to_nat c)) as [_ Hl2]. apply Hl2. right.
    exists e. rewrite Z2Nat.id by done. split; [|done].
    apply elem_of_seq. unfold nd_get in H0.
    destruct (rows (adjacency_array g) !! e) eqn:E; [|discriminate].
    apply lookup_lt_Some in E. unfold n_edges_of, shape0. lia.
Qed.

(** X9. [Tree.parent] on an accepted tree: at a vertex [v] it returns a
    vertex [p] with the edge [[p, v]], or [None], and [None] exactly when
    no edge has [v] as its child; at any other integer it raises the
    [ValueError] of [_check_vertex]. *)
Theorem Tree_parent_spec (a : ndarray) (root : Z) (t : graph) (n v : Z) :
  Tree_init a root = Ret t -> n_vertices t = Ret n ->
  (in_range n v ->
     exists o, parent t v = Ret o /\
       (forall p, o = Some p -> has_edge a p v) /\
       (o = None <-> forall p, ~ has_edge a p v)) /\
  (~ in_range n v -> parent t v = Raise (ValueError BadVertex)).
Proof.
  intros H Hn.
  destruct (Tree_init_edges _ _ _ H)
    as (n' & preds & Hn' & _ & _ & Hp & [Hlen _] & _ & _ & Hpe & Hep).
  rewrite Hn in Hn'. injection Hn' as <-.
  unfold parent, get_predecessors_list. rewrite Hp. split; intros Hv.
  - rewrite (_check_vertex_in_range t n v) by done. simpl.
    unfold in_range in Hv.
    destruct (py_getitem_in_range preds v) as (o & -> & Ho); [lia|].
    exists o. split; [done|]. split.
    + intros p ->. apply Hpe in Ho. by rewrite Z2Nat.id in Ho by lia.
    + split.
      * intros -> p Hpv. destruct (Hep _ _ Hpv) as (p' & Hp').
        rewrite Ho in Hp'. discriminate.
      * intros Hno. destruct o as [p|]; [|done]. exfalso.
        apply (Hno p). apply Hpe in Ho. by rewrite Z2Nat.id in Ho by lia.
  - by rewrite (_check_vertex_out_of_range t n v).
Qed.

Lemma Tree_parent_spec_witness :
  exists t,
    Tree_init (np_array_of_pairs [(0, 1); (0, 2); (1, 3)]) 0 = Ret t /\
    parent t 4 = Raise (ValueError BadVertex) /\
    exists o, parent t 3 = Ret o /\ forall p, o = Some p -> p = 1.
Proof.
  eexists. split; [vm_compute; reflexivity|].
  destruct (Tree_parent_spec (np_array_of_pairs [(0, 1); (0, 2); (1, 3)]) 0 _
              4 4 eq_refl eq_refl) as [_ Hout].
  destruct (Tree_parent_spec (np_array_of_pairs [(0, 1); (0, 2); (1, 3)]) 0 _
              4 3 eq_refl eq_refl) as [Hin _].
  split; [apply Hout; unfold in_range; lia|].
  destruct Hin as (o & Ho & _); [unfold in_range; lia|].
  exists o. split; [exact Ho|]. intros p ->.
  vm_compute in Ho. injection Ho as <-. reflexivity.
Defined.

(** X10. [n_parent] never returns on an accepted tree: [Tree] inherits it
    from [DirectedGraph], where it takes [len] of [self.parent(vertex)],
    and [Tree.parent] returns an integer or [None]; so it raises
    [TypeError] at every vertex, and the [ValueError] of [_check_vertex] at
    any other integer. *)
Theorem n_parent_tree_raises (a : ndarray) (root : Z) (t : graph) (n v : Z) :
  Tree_init a root = Ret t -> n_vertices t = Ret n ->
  n_parent t v
  = Raise (if bool_decide (in_range n v) then TypeError
           else ValueError BadVertex).
Proof.
  intros H Hn.
  destruct (Tree_init_edges _ _ _ H)
    as (n' & preds & Hn' & _ & _ & Hp & [Hlen _] & _).
  rewrite Hn in Hn'. injection Hn' as <-.
  destruct (Tree_init_graph _ _ _ H) as (_ & _ & _ & _ & _ & Hc & _).
  unfold n_parent. case_bool_decide as Hv.
  - rewrite (_check_vertex_in_range t n v) by done. simpl. rewrite Hc.
    unfold parent, get_predecessors_list.
    rewrite (_check_vertex_in_range t n v), Hp by done. simpl.
    unfold in_range in Hv.
    destruct (py_getitem_in_range preds v) as (o & -> & _); [lia|]. done.
  - by rewrite (_check_vertex_out_of_range t n v).
Qed.

Lemma n_parent_tree_raises_witness :
  exists t,
    Tree_init (np_array_of_pairs [(0, 1); (0, 2); (1, 3)]) 0 = Ret t /\
    n_parent t 3 = Raise TypeError /\
    n_parent t 4 = Raise (ValueError BadVertex).
Proof.
  eexists. split; [vm_compute; reflexivity|].
  split.
  - exact (n_parent_tree_raises
             (np_array_of_pairs [(0, 1); (0, 2); (1, 3)]) 0 _ 4 3
             eq_refl eq_refl).
  - exact (n_parent_tree_raises
             (np_array_of_pairs [(0, 1); (0, 2); (1, 3)]) 0 _ 4 4
             eq_refl eq_refl).
Defined.

Lemma depth_loop_S fuel root preds parent depth :
  depth_loop (S fuel) root preds parent depth
  = if decide (parent = Some root) then Ret depth
    else match parent with
         | None => Raise TypeError
         | Some current =>
             p ← py_getitem preds current;
             depth_loop fuel root preds p (depth + 1)
         end.
Proof. done. Qed.

Section DepthLoop.
Variable a : ndarray.
Variable root n : Z.
Variable preds : list (option Z).
Hypothesis Hok : preds_ok preds n.
Hypothesis Hacyclic : forall x, ~ tc (has_edge a) x x.
Hypothesis Hedges :
  forall (c : nat) p, preds !! c = Some (Some p) -> has_edge a p (Z.of_nat c).

Lemma depth_loop_total fuel x k (l : list Z) :
  in_range n x -> NoDup l -> Forall (in_range n) l ->
  (forall z, z ∈ l -> tc (has_edge a) x z) ->
  (Z.to_nat n < fuel + length l)%nat ->
  (exists d, depth_loop fuel root preds (Some x) k = Ret d) \/
  depth_loop fuel root preds (Some x) k = Raise TypeError.
Proof.
  revert x k l. induction fuel as [|fuel IH]; intros x k l Hx Hnd Hl Hreach Hf.
  - pose proof (NoDup_in_range_length n l Hnd Hl). simpl in Hf. lia.
  - rewrite depth_loop_S. destruct (decide (Some x = Some root)); [eauto|].
    assert (x ∉ l) as Hxl.
    { intros Hin. by apply (Hacyclic x), Hreach. }
    assert (length (x :: l) <= Z.to_nat n)%nat as Hlen.
    { apply NoDup_in_range_length; [by constructor|by constructor]. }
    simpl in Hlen. destruct Hok as [Hplen Hpall].
    destruct (py_getitem_in_range preds x) as (o & -> & Ho);
      [unfold in_range in Hx; lia|].
    simpl. destruct o as [p|].
    + apply (IH p (k + 1) (x :: l)).
      * apply (Forall_lookup_1 _ _ _ _ Hpall Ho). done.
      * by constructor.
      * by constructor.
      * apply Hedges in Ho. unfold in_range in Hx.
        rewrite Z2Nat.id in Ho by lia.
        intros z Hz. apply elem_of_cons in Hz as [->|Hz]; [by apply tc_once|].
        eapply tc_l; [exact Ho|by apply Hreach].
      * simpl. lia.
    + right. destruct fuel as [|fuel]; [lia|]. rewrite depth_loop_S.
      destruct (decide (None = Some root)); done.
Qed.

Lemma walk_nsteps x m :
  in_range n x -> walk root preds (Some x) m ->
  nsteps (has_edge a) m root x.
Proof.
  intros Hx Hw. remember (Some x) as ox eqn:E. revert x E Hx.
  induction Hw as [|x y m Hxr Hy Hw IH]; intros x' [= <-] Hx.
  - constructor.
  - assert (exists y', y = Some y') as [y' ->] by (inversion Hw; eauto).
    destruct Hok as [Hplen Hpall].
    destruct (py_getitem_in_range preds x) as (o & Ho1 & Ho);
      [unfold in_range in Hx; lia|].
    rewrite Hy in Ho1. injection Ho1 as <-.
    eapply nsteps_r.
    + apply (IH y' eq_refl). apply (Forall_lookup_1 _ _ _ _ Hpall Ho). done.
    + apply Hedges in Ho. unfold in_range in Hx.
      by rewrite Z2Nat.id in Ho by lia.
Qed.
End DepthLoop.

Lemma depth_of_vertex_in_range (a : ndarray) (root : Z) (t : graph)
    (n v : Z) :
  Tree_init a root = Ret t -> n_vertices t = Ret n -> in_range n v ->
  (exists d, depth_of_vertex t v = Ret d /\ 0 <= d < n /\
             (d = 0 <-> v = root) /\
             nsteps (has_edge a) (Z.to_nat d) root v) \/
  depth_of_vertex t v = Raise TypeError.
Proof.
  intros H Hn Hv.
  destruct (Tree_init_edges _ _ _ H)
    as (n' & preds & Hn' & Hroot & Hr & Hp & Hok & _ & Hac & Hpe & _).
  rewrite Hn in Hn'. injection Hn' as <-.
  unfold depth_of_vertex, get_root_vertex, get_predecessors_list.
  rewrite Hr, Hp.
  rewrite (_check_vertex_in_range t n v) by done. simpl.
  destruct (depth_loop_total a root n preds Hok Hac Hpe
              (S (length preds)) v 0 [])
    as [[d Hd]|Hraise]; [done|constructor|constructor| | |left|by right].
  { intros z Hz. by apply elem_of_nil in Hz. }
  { destruct Hok as [-> _]. simpl. lia. }
  exists d. split; [done|].
  pose proof (depth_loop_walk _ _ _ _ _ _ Hd) as (m & Hw & -> & _).
  pose proof (walk_bound _ _ _ _ _ Hok Hroot Hw Hv) as Hb.
  split; [lia|]. split.
  - split.
    + intros Hm. assert (m = 0%nat) as -> by lia.
      inversion Hw. done.
    + intros ->.
      rewrite (walk_functional root preds (Some root) m 0%nat Hw);
        [done|constructor].
  - replace (Z.to_nat (0 + Z.of_nat m)) with m by lia.
    by apply (walk_nsteps a root n preds Hok Hpe).
Qed.

(** X11. [depth_of_vertex] on an accepted tree with [n] vertices: at a
    vertex [v] it either returns a depth [d] with [0 <= d < n], which is 0
    exactly at the root and is the length of a walk along [d] edges from
    the root to [v], or it raises [TypeError] (the walk up the predecessors
    meets [None]); its loop always ends.  At any other integer it raises
    the [ValueError] of [_check_vertex]. *)
Theorem depth_of_vertex_spec (a : ndarray) (root : Z) (t : graph) (n v : Z) :
  Tree_init a root = Ret t -> n_vertices t = Ret n ->
  (in_range n v ->
     (exists d, depth_of_vertex t v = Ret d /\ 0 <= d < n /\
                (d = 0 <-> v = root) /\
                nsteps (has_edge a) (Z.to_nat d) root v) \/
     depth_of_vertex t v = Raise TypeError) /\
  (~ in_range n v -> depth_of_vertex t v = Raise (ValueError BadVertex)).
Proof.
  intros H Hn. split; intros Hv.
  - by apply depth_of_vertex_in_range.
  - unfold depth_of_vertex. by rewrite (_check_vertex_out_of_range t n v).
Qed.

Lemma depth_of_vertex_spec_witness :
  exists t,
    Tree_init (np_array_of_pairs [(0, 1); (0, 2); (1, 3)]) 0 = Ret t /\
    depth_of_vertex t 4 = Raise (ValueError BadVertex) /\
    ((exists d, depth_of_vertex t 3 = Ret d /\ 0 <= d < 4 /\
                (d = 0 <-> 3 = 0) /\
                nsteps (has_edge (np_array_of_pairs [(0, 1); (0, 2); (1, 3)]))
                       (Z.to_nat d) 0 3) \/
     depth_of_vertex t 3 = Raise TypeError).
Proof.
  eexists. split; [vm_compute; reflexivity|].
  destruct (depth_of_vertex_spec
              (np_array_of_pairs [(0, 1); (0, 2); (1, 3)]) 0 _ 4 4
              eq_refl eq_refl) as [_ Hout].
  destruct (depth_of_vertex_spec
              (np_array_of_pairs [(0, 1); (0, 2); (1, 3)]) 0 _ 4 3
              eq_refl eq_refl) as [Hin _].
  split; [apply Hout; unfold in_range; lia|].
  apply Hin. unfold in_range. lia.
Defined.

(* ================================================================== *)
(** ** Trees: leaves and levels *)

Lemma StronglySorted_range n : StronglySorted Z.lt (range n).
Proof.
  unfold range. generalize 0%nat.
  induction (Z.to_nat n) as [|k IH]; intros i; simpl; constructor; [apply IH|].
  apply Forall_forall. intros x Hx. apply list_elem_of_fmap in Hx as (j & -> & Hj).
  apply elem_of_seq in Hj. lia.
Qed.

Lemma StronglySorted_filter {A} (R : relation A) (P : A -> Prop)
    `{forall x, Decision (P x)} l :
  StronglySorted R l -> StronglySorted R (filter P l).
Proof.
  induction 1 as [|x l Hl IH Hx]; [constructor|].
  rewrite filter_cons. destruct (decide (P x)); [|done].
  constructor; [done|]. apply Forall_forall. intros y Hy.
  apply list_elem_of_filter in Hy as [_ Hy]. rewrite Forall_forall in Hx. auto.
Qed.

(** The loops that collect, and that count, the items at which a test
    holds. *)
Lemma for_each_collect {A B} (f : A -> res B) (h : A -> B) (p : B -> bool)
    (l acc : list A) :
  (forall x, x ∈ l -> f x = Ret (h x)) ->
  for_each (fun acc v => b ← f v; if p b then Ret (acc ++ [v]) else Ret acc)
           l acc
  = Ret (acc ++ filter (fun v => p (h v) = true) l).
Proof.
  revert acc. induction l as [|x l IH]; intros acc Hf; simpl.
  - by rewrite app_nil_r.
  - rewrite (Hf x) by left. simpl. rewrite filter_cons.
    destruct (p (h x)) eqn:E; simpl.
    + rewrite IH by (intros y Hy; apply Hf; by right).
      by rewrite <- app_assoc.
    + apply IH. intros y Hy. apply Hf. by right.
Qed.

Lemma for_each_count {A B} (f : A -> res B) (h : A -> B) (p : B -> bool)
    (l : list A) (k : Z) :
  (forall x, x ∈ l -> f x = Ret (h x)) ->
  for_each (fun k v => b ← f v; if p b then Ret (k + 1) else Ret k) l k
  = Ret (k + Z.of_nat (length (filter (fun v => p (h v) = true) l))).
Proof.
  revert k. induction l as [|x l IH]; intros k Hf; simpl.
  - f_equal. lia.
  - rewrite (Hf x) by left. simpl. rewrite filter_cons.
    destruct (p (h x)) eqn:E; simpl.
    + rewrite IH by (intros y Hy; apply Hf; by right).
      f_equal. simpl. lia.
    + apply IH. intros y Hy. apply Hf. by right.
Qed.

(** A loop that returns has called its test with success at every item. *)
Lemma for_each_collect_inv {A B S} (f : A -> res B) (k : S -> A -> B -> res S)
    (l : list A) (s s' : S) :
  for_each (fun s v => b ← f v; k s v b) l s = Ret s' ->
  forall x, x ∈ l -> exists b, f x = Ret b.
Proof.
  revert s. induction l as [|y l IH]; intros s H x Hx.
  - by apply elem_of_nil in Hx.
  - simpl in H. inv_bind H as s1 Hbody. inv_bind Hbody as b Hb.
    apply elem_of_cons in Hx as [->|Hx]; [eauto|]. by eapply IH.
Qed.

Lemma is_leaf_children (a : ndarray) (root : Z) (t : graph) (n v : Z) :
  Tree_init a root = Ret t -> n_vertices t = Ret n -> in_range n v ->
  exists b, is_leaf t v = Ret b /\ (b = true <-> forall c, ~ has_edge a v c).
Proof.
  intros H Hn Hv.
  destruct (Tree_init_graph _ _ _ H) as (g & _ & Hg & _ & Hl & _ & Hng & _).
  rewrite Hn in Hng. symmetry in Hng.
  destruct (Graph_init_neighbours _ _ _ _ _ Hg Hng Hv) as (l & Hget & Hmem).
  unfold is_leaf, children.
  rewrite (_check_vertex_in_range t n v) by done. simpl.
  rewrite Hl, Hget. simpl. eexists. split; [done|].
  rewrite bool_decide_eq_true. split.
  - intros Hlen c Hc. apply length_zero_iff_nil in Hlen. subst l.
    assert (c ∈ @nil Z) as Hin by (apply Hmem; by left).
    by apply elem_of_nil in Hin.
  - intros Hno. destruct l as [|c l]; [done|]. exfalso.
    assert (c ∈ c :: l) as Hin by left.
    apply Hmem in Hin as [Hin|[Hd _]]; [by apply (Hno c)|done].
Qed.

(** X12. [Tree.is_leaf] on an accepted tree: at a vertex it returns whether
    no edge has the vertex as its parent, and at any other integer it
    raises the [ValueError] of [_check_vertex]. *)
Theorem is_leaf_spec (a : ndarray) (root : Z) (t : graph) (n v : Z) :
  Tree_init a root = Ret t -> n_vertices t = Ret n ->
  (in_range n v ->
     exists b, is_leaf t v = Ret b /\
               (b = true <-> forall c, ~ has_edge a v c)) /\
  (~ in_range n v -> is_leaf t v = Raise (ValueError BadVertex)).
Proof.
  intros H Hn. split; intros Hv.
  - by apply (is_leaf_children a root t n v).
  - unfold is_leaf. by rewrite (_check_vertex_out_of_range t n v).
Qed.

Lemma is_leaf_spec_witness :
  exists t,
    Tree_init (np_array_of_pairs [(0, 1); (0, 2); (1, 3)]) 0 = Ret t /\
    is_leaf t (-1) = Raise (ValueError BadVertex) /\
    is_leaf t 1 = Ret false.
Proof.
  eexists. split; [vm_compute; reflexivity|].
  destruct (is_leaf_spec (np_array_of_pairs [(0, 1); (0, 2); (1, 3)]) 0 _
              4 (-1) eq_refl eq_refl) as [_ Hout].
  destruct (is_leaf_spec (np_array_of_pairs [(0, 1); (0, 2); (1, 3)]) 0 _
              4 1 eq_refl eq_refl) as [Hin _].
  split; [apply Hout; unfold in_range; lia|].
  destruct Hin as (b & Hb & Hiff); [unfold in_range; lia|].
  refine (eq_trans Hb _). f_equal. destruct b; [|reflexivity]. exfalso.
  apply (proj1 Hiff eq_refl 3). exists 2%nat. split; reflexivity.
Defined.

Lemma total_degree_ge adj :
  Forall (fun ys : list Z => ys ≠ []) adj ->
  (length adj <= total_degree adj)%nat.
Proof.
  induction 1 as [|ys adj Hys _ IH]; [done|].
  rewrite total_degree_cons. destruct ys; [done|]. simpl. lia.
Qed.

(** X13. [Tree.leaves] and [Tree.n_leaves] on an accepted tree: [leaves]
    returns the strictly increasing list of the vertices that are the
    parent of no edge, [n_leaves] returns its length, and there is at
    least one leaf. *)
Theorem leaves_spec (a : ndarray) (root : Z) (t : graph) (n : Z) :
  Tree_init a root = Ret t -> n_vertices t = Ret n ->
  exists l,
    leaves t = Ret l /\ n_leaves t = Ret (Z.of_nat (length l)) /\
    StronglySorted Z.lt l /\
    (forall v, v ∈ l <-> in_range n v /\ forall c, ~ has_edge a v c) /\
    l ≠ [].
Proof.
  intros H Hn.
  set (h := fun v => match is_leaf t v with Ret b => b | _ => false end).
  assert (forall v, v ∈ range n -> is_leaf t v = Ret (h v)) as Hh.
  { intros v Hv. apply elem_of_range in Hv.
    destruct (is_leaf_children a root t n v H Hn Hv) as (b & Hb & _).
    unfold h. by rewrite Hb. }
  assert (forall v, in_range n v ->
            (h v = true <-> forall c, ~ has_edge a v c)) as Hleaf.
  { intros v Hv.
    destruct (is_leaf_children a root t n v H Hn Hv) as (b & Hb & Hspec).
    unfold h. by rewrite Hb. }
  exists (filter (fun v => h v = true) (range n)).
  unfold leaves, n_leaves. rewrite Hn. simpl.
  split; [exact (for_each_collect (is_leaf t) h (fun b => b) (range n) [] Hh)|].
  split; [exact (for_each_count (is_leaf t) h (fun b => b) (range n) 0 Hh)|].
  split; [apply StronglySorted_filter, StronglySorted_range|].
  assert (forall v, v ∈ filter (fun v => h v = true) (range n) <->
                    in_range n v /\ forall c, ~ has_edge a v c) as Hmem.
  { intros v. rewrite list_elem_of_filter, elem_of_range. split.
    - intros [Hv Hr]. split; [done|]. by apply Hleaf.
    - intros [Hr Hv]. split; [|done]. by apply Hleaf. }
  split; [done|].
  (* a vertex without children: there are fewer edges than vertices *)
  destruct (Tree_init_graph _ _ _ H)
    as (g & _ & Hg & _ & _ & _ & Hng & Heg & _).
  destruct (Tree_init_edges _ _ _ H) as (n' & _ & Hn' & _ & _ & _ & _ & Hne & _).
  rewrite Hn in Hn'. injection Hn' as <-.
  destruct (Graph_init_adjacency _ _ _ Hg) as (n' & [Hn' Hok] & _ & Hdeg & Hadj).
  rewrite <- Hng, Hn in Hn'. injection Hn' as <-.
  destruct Hok as (Hn0 & Hlen & _). simpl in Hdeg.
  destruct (decide (Forall (fun ys : list Z => ys ≠ []) (adjacency_list g)))
    as [Hall|Hex].
  { apply total_degree_ge in Hall. rewrite Heg in Hne. lia. }
  apply not_Forall_Exists in Hex; [|apply _].
  apply Exists_exists in Hex as (ys & Hys & Hnil).
  apply list_elem_of_lookup_1 in Hys as [k Hk].
  assert (ys = []) as -> by (destruct ys; [done|by destruct Hnil]).
  intros Hempty.
  assert (Z.of_nat k ∈ filter (fun v => h v = true) (range n)) as Hin.
  { apply Hmem. pose proof (lookup_lt_Some _ _ _ Hk) as Hklt.
    split; [unfold in_range; lia|].
    intros c Hc. specialize (Hadj k c). rewrite Hk in Hadj. simpl in Hadj.
    pose proof (Graph_init_inv _ _ _ Hg) as (_ & _ & _ & _ & _ & _ & Ha & _).
    rewrite Ha in Hadj. setoid_rewrite has_edge_first_seen in Hadj.
    assert (c ∈ @nil Z) as Hc' by (apply Hadj; by left).
    by apply elem_of_nil in Hc'. }
  rewrite Hempty in Hin. by apply elem_of_nil in Hin.
Qed.

Lemma leaves_spec_witness :
  exists t l,
    Tree_init (np_array_of_pairs [(0, 1); (0, 2); (1, 3)]) 0 = Ret t /\
    leaves t = Ret l /\ n_leaves t = Ret (Z.of_nat (length l)) /\ l ≠ [].
Proof.
  eexists.
  destruct (leaves_spec (np_array_of_pairs [(0, 1); (0, 2); (1, 3)]) 0 _ 4
              eq_refl eq_refl) as (l & Hl & Hn & _ & _ & Hne).
  exists l. split; [vm_compute; reflexivity|]. split; [exact Hl|].
  split; [exact Hn|exact Hne].
Defined.

Lemma depth_of_vertex_Ret t n v d :
  n_vertices t = Ret n -> depth_of_vertex t v = Ret d -> in_range n v.
Proof.
  intros Hn H. unfold depth_of_vertex in H. inv_bind H as u Hu.
  destruct u. by apply (_check_vertex_Ret t).
Qed.

(** X14. [vertices_at_depth] returns exactly when [depth_of_vertex]
    returns at every vertex; the list it returns is strictly increasing and
    holds exactly the vertices at which [depth_of_vertex] returns [depth],
    and [n_vertices_at_depth] returns its length. *)
Theorem vertices_at_depth_spec (t : graph) (n depth : Z) :
  n_vertices t = Ret n ->
  ((exists l, vertices_at_depth t depth = Ret l) <->
   (forall v, in_range n v -> exists d, depth_of_vertex t v = Ret d)) /\
  (forall l, vertices_at_depth t depth = Ret l ->
     n_vertices_at_depth t depth = Ret (Z.of_nat (length l)) /\
     StronglySorted Z.lt l /\
     forall v, v ∈ l <-> depth_of_vertex t v = Ret depth).
Proof.
  intros Hn. unfold vertices_at_depth, n_vertices_at_depth. rewrite Hn. simpl.
  set (h := fun v => match depth_of_vertex t v with Ret d => d | _ => 0 end).
  set (p := fun d : Z => bool_decide (d = depth)).
  assert ((forall v, in_range n v -> exists d, depth_of_vertex t v = Ret d) ->
          forall v, v ∈ range n -> depth_of_vertex t v = Ret (h v)) as Hh.
  { intros Hall v Hv. apply elem_of_range in Hv.
    destruct (Hall v Hv) as [d Hd]. unfold h. by rewrite Hd. }
  assert (forall l,
    for_each (fun ver v =>
        d ← depth_of_vertex t v;
        if bool_decide (d = depth) then Ret (ver ++ [v]) else Ret ver)
      (range n) [] = Ret l ->
    forall v, in_range n v -> exists d, depth_of_vertex t v = Ret d) as Hinv.
  { intros l Hl v Hv.
    apply (for_each_collect_inv (depth_of_vertex t)
             (fun ver v d => if bool_decide (d = depth)
                             then Ret (ver ++ [v]) else Ret ver)
             (range n) [] l Hl).
    by apply elem_of_range. }
  split.
  - split; [intros [l Hl]; by apply (Hinv l)|].
    intros Hall. eexists.
    exact (for_each_collect (depth_of_vertex t) h p (range n) [] (Hh Hall)).
  - intros l Hl. pose proof (Hh (Hinv l Hl)) as Hh'.
    pose proof (for_each_collect (depth_of_vertex t) h p (range n) [] Hh')
      as Hl'.
    unfold p in Hl' at 1. rewrite Hl in Hl'. injection Hl' as ->.
    split;
      [exact (for_each_count (depth_of_vertex t) h p (range n) 0 Hh')|].
    split; [apply StronglySorted_filter, StronglySorted_range|].
    intros v. rewrite list_elem_of_filter. unfold p.
    rewrite bool_decide_eq_true. split.
    + intros [Hd Hv]. rewrite (Hh' v Hv). by f_equal.
    + intros Hd.
      pose proof (depth_of_vertex_Ret t n v depth Hn Hd) as Hv.
      apply elem_of_range in Hv. split; [|done].
      rewrite (Hh' v Hv) in Hd. by injection Hd.
Qed.

Lemma vertices_at_depth_spec_witness :
  let t := Graph Tree (np_array_of_pairs [(0, 1); (0, 2); (1, 3)])
             [[1; 2]; [3]; []; []] (Some 0)
             (Some [None; Some 0; Some 0; Some 1]) in
  Tree_init (np_array_of_pairs [(0, 1); (0, 2); (1, 3)]) 0 = Ret t /\
  forall l, vertices_at_depth t 1 = Ret l ->
            n_vertices_at_depth t 1 = Ret (Z.of_nat (length l)) /\
            (1 ∈ l <-> depth_of_vertex t 1 = Ret 1).
Proof.
  intros t. split; [vm_compute; reflexivity|].
  destruct (vertices_at_depth_spec t 4 1 eq_refl) as [_ Hl].
  intros l Hlv. destruct (Hl l Hlv) as (Hn & _ & Hmem).
  split; [exact Hn|apply Hmem].
Defined.

(** X15. [maximum_depth] on an accepted tree with [n] vertices at each of
    which [depth_of_vertex] returns: it returns the depth of some vertex,
    no vertex is deeper, and it lies in [0 .. n-1]. *)
Theorem maximum_depth_spec (a : ndarray) (root : Z) (t : graph) (n : Z) :
  Tree_init a root = Ret t -> n_vertices t = Ret n ->
  (forall v, in_range n v -> exists d, depth_of_vertex t v = Ret d) ->
  exists m,
    maximum_depth t = Ret m /\ 0 <= m < n /\
    (exists v, depth_of_vertex t v = Ret m) /\
    (forall v d, depth_of_vertex t v = Ret d -> d <= m).
Proof.
  intros H Hn Hall.
  set (h := fun v => match depth_of_vertex t v with Ret d => d | _ => 0 end).
  assert (forall v, v ∈ range n -> depth_of_vertex t v = Ret (h v)) as Hh.
  { intros v Hv. apply elem_of_range in Hv.
    destruct (Hall v Hv) as [d Hd]. unfold h. by rewrite Hd. }
  destruct (Tree_init_edges _ _ _ H) as (n' & _ & Hn' & Hroot & _).
  rewrite Hn in Hn'. injection Hn' as <-.
  unfold maximum_depth. rewrite Hn. simpl.
  rewrite (mapM_res_fmap (depth_of_vertex t) h (range n) Hh). simpl.
  destruct (h <$> range n) as [|x l] eqn:E.
  { apply fmap_nil_inv in E.
    assert (root ∈ range n) as Hr by (by apply elem_of_range).
    rewrite E in Hr. by apply elem_of_nil in Hr. }
  simpl. eexists. split; [done|].
  pose proof (foldl_max_is_max x l) as [Hin Hle]. rewrite <- E in Hin, Hle.
  apply list_elem_of_fmap in Hin as (v & Hm & Hv).
  pose proof (Hh v Hv) as Hd. rewrite <- Hm in Hd.
  apply elem_of_range in Hv.
  split.
  - destruct (depth_of_vertex_in_range a root t n v H Hn Hv)
      as [(d & Hd' & Hb & _)|Hraise]; [|congruence].
    rewrite Hd in Hd'. injection Hd' as ->. done.
  - split; [eauto|]. intros w d Hw.
    pose proof (depth_of_vertex_Ret t n w d Hn Hw) as Hwr.
    apply elem_of_range in Hwr. apply Hle.
    apply list_elem_of_fmap. exists w. split; [|done].
    rewrite (Hh w Hwr) in Hw. by injection Hw.
Qed.

Lemma maximum_depth_spec_witness :
  exists t m,
    Tree_init (np_array_of_pairs [(0, 1); (0, 2); (1, 3)]) 0 = Ret t /\
    maximum_depth t = Ret m /\ 0 <= m < 4.
Proof.
  eexists.
  destruct (maximum_depth_spec (np_array_of_pairs [(0, 1); (0, 2); (1, 3)]) 0
              _ 4 eq_refl eq_refl) as (m & Hm & Hb & _).
  { intros v Hv.
    assert (v = 0 \/ v = 1 \/ v = 2 \/ v = 3) as [->|[->|[->| ->]]]
      by (unfold in_range in Hv; lia);
      eexists; vm_compute; reflexivity. }
  exists m. split; [vm_compute; reflexivity|]. split; [exact Hm|exact Hb].
Defined.

(* ================================================================== *)
(** ** The search for paths *)

Lemma chain_iff (R R' : Z -> Z -> Prop) u q e :
  (forall x y, R x y <-> R' x y) -> chain R u q e <-> chain R' u q e.
Proof.
  intros HR. revert u. induction q as [|y q IH]; intros u; simpl; [done|].
  by rewrite HR, IH.
Qed.

Lemma chain_last R u q e : chain R u q e -> q ≠ [] -> e ∈ q.
Proof.
  revert u. induction q as [|y q IH]; intros u; simpl; [done|].
  intros [_ Hc] _. destruct q as [|z q].
  - simpl in Hc. subst. left.
  - right. by apply (IH y).
Qed.

(** The loop of [find_all_paths] appends the results of the calls at the
    neighbours that are not on the path, in their order. *)
Lemma find_all_paths_loop_spec rec path vs paths ps :
  find_all_paths_loop rec path vs paths = Ret ps ->
  (forall v, v ∈ vs -> v ∉ path -> exists r, rec v = Ret r) /\
  forall p, p ∈ ps <->
    p ∈ paths \/
    exists v r, v ∈ vs /\ (v ∉ path) /\ rec v = Ret r /\ p ∈ r.
Proof.
  revert paths. induction vs as [|v vs IH]; simpl; intros paths H.
  - injection H as <-. split.
    + intros v Hv. by apply elem_of_nil in Hv.
    + intros p. split; [auto|]. intros [?|(v & _ & Hv & _)]; [done|].
      by apply elem_of_nil in Hv.
  - destruct (decide (v ∈ path)) as [Hvp|Hvp].
    + destruct (IH _ H) as [Htot Hmem]. split.
      * intros w Hw Hwp. apply elem_of_cons in Hw as [->|Hw]; [done|auto].
      * intros p. rewrite Hmem. split.
        -- intros [?|(w & r & Hw & Hrest)]; [auto|].
           right. exists w, r. split; [by right|done].
        -- intros [?|(w & r & Hw & Hwp & Hrest)]; [auto|].
           apply elem_of_cons in Hw as [->|Hw]; [done|].
           right. exists w, r. auto.
    + inv_bind H as r Hr. destruct (IH _ H) as [Htot Hmem]. split.
      * intros w Hw Hwp. apply elem_of_cons in Hw as [->|Hw]; [eauto|auto].
      * intros p. rewrite Hmem, elem_of_app. split.
        -- intros [[?|Hp]|(w & r' & Hw & Hrest)]; [auto| |].
           ++ right. exists v, r. split; [left|done].
           ++ right. exists w, r'. split; [by right|done].
        -- intros [?|(w & r' & Hw & Hwp & Hr' & Hp)]; [auto|].
           apply elem_of_cons in Hw as [->|Hw].
           ++ rewrite Hr in Hr'. injection Hr' as <-. auto.
           ++ right. exists w, r'. auto.
Qed.

Lemma find_all_paths_rec_spec g n end_ fuel start path ps :
  graph_ok g n ->
  find_all_paths_rec fuel g start end_ path = Ret ps ->
  forall p, p ∈ ps <->
    exists q, p = path ++ start :: q /\
              chain (arc (adjacency_list g)) start q end_ /\
              NoDup (start :: q) /\ forall x, x ∈ q -> x ∉ path.
Proof.
  intros Hok. revert start path ps.
  induction fuel as [|fuel IH]; intros start path ps H; [discriminate|].
  simpl in H. case_bool_decide as Hse.
  { injection H as <-. intros p. rewrite list_elem_of_singleton. split.
    - intros ->. exists []. split; [done|]. split; [done|].
      split; [apply NoDup_singleton|]. intros x Hx. by apply elem_of_nil in Hx.
    - intros (q & -> & Hc & Hnd & _). destruct q as [|y q]; [done|]. exfalso.
      pose proof (chain_last _ _ _ _ Hc ltac:(done)) as Hin.
      subst end_. apply NoDup_cons in Hnd as [Hnd _]. done. }
  destruct Hok as [Hn (Hn0 & Hlen & Hall)] eqn:E. rewrite Hn in H.
  simpl in H. case_bool_decide as Hr.
  { injection H as <-. intros p. split; [intros Hp; by apply elem_of_nil in Hp|].
    intros (q & _ & Hc & _). destruct q as [|y q]; [done|].
    destruct Hc as [(Hs0 & ys & Hys & _) _]. apply lookup_lt_Some in Hys.
    lia. }
  destruct (py_getitem_in_range (adjacency_list g) start)
    as (vs & Hvs & Hlk); [lia|].
  rewrite Hvs in H. simpl in H.
  apply find_all_paths_loop_spec in H as [Htot Hmem].
  intros p. rewrite Hmem. split.
  - intros [Hp|(v & r & Hv & Hvp & Hrec & Hp)]; [by apply elem_of_nil in Hp|].
    apply (IH _ _ _ Hrec) in Hp as (q & -> & Hc & Hnd & Hdis).
    exists (v :: q). rewrite <- app_assoc. split; [done|].
    rewrite not_elem_of_app, list_elem_of_singleton in Hvp.
    destruct Hvp as [Hvp Hvs'].
    split; [split; [|done]; split; [lia|eauto]|].
    split.
    + apply NoDup_cons. split; [|done].
      intros Hin. apply elem_of_cons in Hin as [?|Hin]; [done|].
      apply (Hdis _ Hin). apply elem_of_app. right. left.
    + intros x Hx Hxp. apply elem_of_cons in Hx as [->|Hx]; [done|].
      apply (Hdis _ Hx). apply elem_of_app. by left.
  - intros (q & -> & Hc & Hnd & Hdis). right.
    destruct q as [|v q]; [done|]. destruct Hc as [(_ & ys & Hys & Hv) Hc].
    rewrite Hlk in Hys. injection Hys as <-.
    apply NoDup_cons in Hnd as [Hsq Hnd].
    assert (v ∉ path ++ [start]) as Hvp.
    { rewrite not_elem_of_app, list_elem_of_singleton. split.
      - apply Hdis. left.
      - intros ->. apply Hsq. left. }
    destruct (Htot v Hv Hvp) as [r Hrec]. exists v, r.
    repeat (split; [done|]). apply (IH _ _ _ Hrec). exists q.
    rewrite <- app_assoc. split; [done|]. split; [done|]. split; [done|].
    intros x Hx Hxp. apply elem_of_app in Hxp as [Hxp|Hxp].
    + apply (Hdis x); [by right|done].
    + apply list_elem_of_singleton in Hxp as ->. apply Hsq. by right.
Qed.

Lemma find_all_paths_simple (c : klass) (a : ndarray) (g : graph)
    (start end_ : Z) :
  Graph_init c a = Ret g ->
  exists ps,
    find_all_paths g start end_ = Ret ps /\
    forall p, p ∈ ps <-> simple_path (joined c a) start end_ p.
Proof.
  intros H. pose proof (Graph_init_ok _ _ _ H) as (n & Hok & _).
  destruct (find_all_paths_rec_total g n end_ (search_fuel g) start [] Hok)
    as [ps Hps]; [apply not_elem_of_nil|by apply search_fuel_enough|].
  exists ps. unfold find_all_paths. split; [done|]. intros p.
  rewrite (find_all_paths_rec_spec g n end_ _ start [] ps Hok Hps).
  unfold simple_path. split.
  - intros (q & -> & Hc & Hnd & _). exists q. split; [done|]. split; [|done].
    revert Hc. apply chain_iff. intros u y. symmetry.
    by apply Graph_init_arc.
  - intros (q & -> & Hc & Hnd). exists q. split; [done|]. split.
    + revert Hc. apply chain_iff. intros u y. by apply Graph_init_arc.
    + split; [done|]. intros x _. apply not_elem_of_nil.
Qed.

(** X16. [find_all_paths] on an accepted graph returns, for all integers
    [start] and [end], a list that holds exactly the paths without repeated
    vertices from [start] to [end] along the edges (in both directions in
    an undirected graph); [n_paths] returns its length. *)
Theorem find_all_paths_spec (c : klass) (a : ndarray) (g : graph)
    (start end_ : Z) :
  Graph_init c a = Ret g ->
  exists ps,
    find_all_paths g start end_ = Ret ps /\
    n_paths g start end_ = Ret (length ps) /\
    forall p, p ∈ ps <-> simple_path (joined c a) start end_ p.
Proof.
  intros H.
  destruct (find_all_paths_simple c a g start end_ H) as (ps & Hps & Hmem).
  exists ps. unfold n_paths. rewrite Hps. done.
Qed.

Lemma find_all_paths_spec_witness :
  exists g ps,
    Graph_init UndirectedGraph (np_array_of_pairs [(0, 1); (1, 2)]) = Ret g /\
    find_all_paths g 0 2 = Ret ps /\ n_paths g 0 2 = Ret (length ps) /\
    [0; 1; 2] ∈ ps.
Proof.
  eexists.
  destruct (find_all_paths_spec UndirectedGraph
              (np_array_of_pairs [(0, 1); (1, 2)]) _ 0 2 eq_refl)
    as (ps & Hps & Hn & Hmem).
  exists ps. split; [vm_compute; reflexivity|]. split; [exact Hps|].
  split; [exact Hn|]. apply Hmem. exists [1; 2]. split; [reflexivity|]. split.
  - split; [left; exists 0%nat; split; reflexivity|].
    split; [left; exists 1%nat; split; reflexivity|reflexivity].
  - apply (bool_decide_unpack _). vm_compute. exact I.
Defined.

Lemma find_all_paths_rec_nonempty g n end_ fuel start path ps :
  graph_ok g n ->
  find_all_paths_rec fuel g start end_ path = Ret ps -> [] ∉ ps.
Proof.
  intros Hok H Hin.
  apply (find_all_paths_rec_spec g n end_ fuel start path ps Hok H) in Hin
    as (q & Hq & _).
  by destruct path.
Qed.

(** *** The first path *)

Lemma find_path_loop_head rec1 rec2 path vs paths ps :
  (forall v r, rec2 v = Ret r -> rec1 v = Ret (head r) /\ [] ∉ r) ->
  find_all_paths_loop rec2 path vs paths = Ret ps ->
  exists ps', ps = paths ++ ps' /\
              find_path_loop rec1 path vs = Ret (head ps').
Proof.
  intros Hrec. revert paths. induction vs as [|v vs IH]; simpl; intros paths H.
  - injection H as <-. exists []. by rewrite app_nil_r.
  - destruct (decide (v ∈ path)); [by apply IH|].
    inv_bind H as r Hr. destruct (Hrec v r Hr) as [-> Hne].
    destruct (IH _ H) as (ps' & -> & Hloop). exists (r ++ ps').
    rewrite app_assoc. split; [done|]. simpl.
    destruct r as [|p r]; [done|].
    destruct p as [|x p]; [exfalso; apply Hne; left|]. done.
Qed.

Lemma find_path_rec_head g n end_ fuel start path ps :
  graph_ok g n ->
  find_all_paths_rec fuel g start end_ path = Ret ps ->
  find_path_rec fuel g start end_ path = Ret (head ps).
Proof.
  intros Hok. revert start path ps.
  induction fuel as [|fuel IH]; intros start path ps H; [discriminate|].
  simpl in *. case_bool_decide; [by injection H as <-|].
  destruct (n_vertices g) as [n'| |]; [|discriminate..]. simpl in *.
  case_bool_decide; [by injection H as <-|].
  destruct (py_getitem (adjacency_list g) start) as [vs| |];
    [|discriminate..]. simpl in *.
  destruct (find_path_loop_head
              (fun v => find_path_rec fuel g v end_ (path ++ [start]))
              (fun v => find_all_paths_rec fuel g v end_ (path ++ [start]))
              (path ++ [start]) vs [] ps) as (ps' & -> & Hloop); [|done|done].
  intros v r Hr. split; [by apply IH|].
  by apply (find_all_paths_rec_nonempty g n end_ fuel v (path ++ [start])).
Qed.

(** X17. [find_path] on an accepted graph returns the first path of
    [find_all_paths], or [None] when that list is empty: so a returned path
    is a path without repeated vertices from [start] to [end], and [None]
    is returned exactly when there is no such path. *)
Theorem find_path_spec (c : klass) (a : ndarray) (g : graph)
    (start end_ : Z) :
  Graph_init c a = Ret g ->
  exists r ps,
    find_path g start end_ = Ret r /\
    find_all_paths g start end_ = Ret ps /\ r = head ps /\
    (forall p, r = Some p -> simple_path (joined c a) start end_ p) /\
    (r = None <-> forall p, ~ simple_path (joined c a) start end_ p).
Proof.
  intros H. pose proof (Graph_init_ok _ _ _ H) as (n & Hok & _).
  destruct (find_all_paths_simple c a g start end_ H) as (ps & Hps & Hmem).
  exists (head ps), ps. split.
  { by apply (find_path_rec_head g n). }
  split; [done|]. split; [done|]. split.
  - intros p Hp. apply Hmem. destruct ps as [|p' ps]; [done|].
    injection Hp as ->. left.
  - split.
    + intros Hnone p Hp. apply Hmem in Hp. destruct ps; [|done].
      by apply elem_of_nil in Hp.
    + intros Hno. destruct ps as [|p ps]; [done|]. exfalso.
      apply (Hno p), Hmem. left.
Qed.

Lemma find_path_spec_witness :
  exists g r ps,
    Graph_init UndirectedGraph (np_array_of_pairs [(0, 1); (1, 2)]) = Ret g /\
    find_path g 0 2 = Ret r /\ find_all_paths g 0 2 = Ret ps /\ r = head ps.
Proof.
  eexists.
  destruct (find_path_spec UndirectedGraph
              (np_array_of_pairs [(0, 1); (1, 2)]) _ 0 2 eq_refl)
    as (r & ps & Hr & Hps & Hhead & _).
  exists r, ps. split; [vm_compute; reflexivity|]. split; [exact Hr|].
  split; [exact Hps|exact Hhead].
Defined.

(** *** The shortest path *)

Lemma find_shortest_path_loop_cons rec path v vs shortest :
  find_shortest_path_loop rec path (v :: vs) shortest
  = if decide (v ∈ path) then find_shortest_path_loop rec path vs shortest
    else newpath ← rec v;
         find_shortest_path_loop rec path vs (keep_shorter shortest newpath).
Proof.
  simpl. destruct (decide (v ∈ path)); [done|].
  destruct (rec v) as [newpath| |]; [|done..]. simpl. unfold keep_shorter.
  destruct (truthy newpath); [|done]. by destruct (negb _ || _).
Qed.

Lemma keep_shorter_pick (b : option (list Z)) (p : list Z)
    (x : option (list Z)) :
  b ≠ Some [] -> p ≠ [] -> x ≠ Some [] ->
  keep_shorter (pick b p) x = keep_shorter b (keep_shorter (Some p) x).
Proof.
  intros Hb Hp Hx. unfold keep_shorter.
  destruct b as [[|b0 bl]|]; [done| |];
    destruct p as [|p0 pl]; try done;
    destruct x as [[|x0 xl]|]; try done; simpl;
    repeat (case_decide || case_bool_decide); simpl in *;
    try done; try lia.
Qed.

Lemma pick_nonempty b p : b ≠ Some [] -> p ≠ [] -> pick b p ≠ Some [].
Proof.
  intros Hb Hp. destruct b as [b|]; simpl; [|congruence].
  case_decide; congruence.
Qed.

Lemma foldl_pick_nonempty b ps :
  b ≠ Some [] -> [] ∉ ps -> foldl pick b ps ≠ Some [].
Proof.
  revert b. induction ps as [|p ps IH]; intros b Hb Hps; [done|]. simpl.
  apply not_elem_of_cons in Hps as [Hp Hps].
  apply IH; [|done]. apply pick_nonempty; [done|congruence].
Qed.

Lemma foldl_pick_keep_shorter b ps :
  b ≠ Some [] -> [] ∉ ps ->
  foldl pick b ps = keep_shorter b (first_shortest ps).
Proof.
  unfold first_shortest. revert b.
  induction ps as [|p ps IH]; intros b Hb Hps; [done|].
  apply not_elem_of_cons in Hps as [Hp Hps]. simpl.
  rewrite (IH (pick b p)) by (try apply pick_nonempty; congruence).
  rewrite (IH (Some p)) by congruence.
  apply keep_shorter_pick; [done|congruence|].
  by apply foldl_pick_nonempty.
Qed.

Lemma first_shortest_spec ps :
  match first_shortest ps with
  | None => ps = []
  | Some p =>
      p ∈ ps /\ forall p', p' ∈ ps -> (length p <= length p')%nat
  end.
Proof.
  unfold first_shortest.
  assert (forall b,
    match foldl pick b ps with
    | None => b = None /\ ps = []
    | Some p =>
        (b = Some p \/ p ∈ ps) /\
        (forall b', b = Some b' -> (length p <= length b')%nat) /\
        forall p', p' ∈ ps -> (length p <= length p')%nat
    end) as Hgen.
  { induction ps as [|q ps IH]; intros b; simpl.
    - destruct b as [b|]; [|done]. split; [by left|]. split.
      + by intros b' [= <-].
      + intros p' Hp'. by apply elem_of_nil in Hp'.
    - specialize (IH (pick b q)).
      destruct (foldl pick (pick b q) ps) as [p|].
      + destruct IH as (Hin & Hb & Hall).
        assert (length p <= length q)%nat as Hq.
        { destruct b as [b|]; simpl in Hb; [|by apply Hb].
          case_decide; [by apply Hb|].
          pose proof (Hb b eq_refl). lia. }
        split; [|split].
        * destruct Hin as [Hin|Hin]; [|right; by right].
          destruct b as [b|]; simpl in Hin.
          -- case_decide; injection Hin as <-; [right; left|by left].
          -- injection Hin as <-. right. left.
        * intros b' ->. simpl in Hb. case_decide; [|by apply Hb].
          pose proof (Hb q eq_refl). lia.
        * intros p' Hp'. apply elem_of_cons in Hp' as [->|Hp']; auto.
      + destruct IH as [Hpick _]. destruct b; simpl in Hpick; [|done].
        by case_decide. }
  specialize (Hgen None). destruct (foldl pick None ps) as [p|].
  - destruct Hgen as ([?|?] & _ & ?); done.
  - by destruct Hgen.
Qed.

Lemma find_shortest_path_loop_first rec1 rec2 path vs paths ps :
  (forall v r, rec2 v = Ret r -> rec1 v = Ret (first_shortest r) /\ [] ∉ r) ->
  [] ∉ paths ->
  find_all_paths_loop rec2 path vs paths = Ret ps ->
  find_shortest_path_loop rec1 path vs (first_shortest paths)
  = Ret (first_shortest ps).
Proof.
  intros Hrec. revert paths.
  induction vs as [|v vs IH]; intros paths Hne H.
  - simpl in *. by injection H as <-.
  - rewrite find_shortest_path_loop_cons. simpl in H.
    destruct (decide (v ∈ path)); [by apply IH|].
    inv_bind H as r Hr. destruct (Hrec v r Hr) as [-> Hner]. simpl.
    assert (keep_shorter (first_shortest paths) (first_shortest r)
            = first_shortest (paths ++ r)) as ->.
    { unfold first_shortest at 3. rewrite foldl_app.
      symmetry. apply foldl_pick_keep_shorter; [|done].
      by apply foldl_pick_nonempty. }
    apply IH; [|done]. rewrite not_elem_of_app. done.
Qed.

Lemma find_shortest_path_rec_first g n end_ fuel start path ps :
  graph_ok g n ->
  find_all_paths_rec fuel g start end_ path = Ret ps ->
  find_shortest_path_rec fuel g start end_ path = Ret (first_shortest ps).
Proof.
  intros Hok. revert start path ps.
  induction fuel as [|fuel IH]; intros start path ps H; [discriminate|].
  simpl in *. case_bool_decide; [by injection H as <-|].
  destruct (n_vertices g) as [n'| |]; [|discriminate..]. simpl in *.
  case_bool_decide; [by injection H as <-|].
  destruct (py_getitem (adjacency_list g) start) as [vs| |];
    [|discriminate..]. simpl in *.
  apply (find_shortest_path_loop_first
           (fun v => find_shortest_path_rec fuel g v end_ (path ++ [start]))
           (fun v => find_all_paths_rec fuel g v end_ (path ++ [start]))
           (path ++ [start]) vs [] ps); [|apply not_elem_of_nil|done].
  intros v r Hr. split; [by apply IH|].
  by apply (find_all_paths_rec_nonempty g n end_ fuel v (path ++ [start])).
Qed.

(** X18. [find_shortest_path] on an accepted graph returns the first of
    the shortest paths of [find_all_paths], or [None] when that list is
    empty: so a returned path is a path without repeated vertices from
    [start] to [end] and no such path is shorter, and [None] is returned
    exactly when there is no such path. *)
Theorem find_shortest_path_spec (c : klass) (a : ndarray) (g : graph)
    (start end_ : Z) :
  Graph_init c a = Ret g ->
  exists r ps,
    find_shortest_path g start end_ = Ret r /\
    find_all_paths g start end_ = Ret ps /\ r = first_shortest ps /\
    (forall p, r = Some p ->
       simple_path (joined c a) start end_ p /\
       forall p', simple_path (joined c a) start end_ p' ->
                  (length p <= length p')%nat) /\
    (r = None <-> forall p, ~ simple_path (joined c a) start end_ p).
Proof.
  intros H. pose proof (Graph_init_ok _ _ _ H) as (n & Hok & _).
  destruct (find_all_paths_simple c a g start end_ H) as (ps & Hps & Hmem).
  exists (first_shortest ps), ps. split.
  { by apply (find_shortest_path_rec_first g n). }
  split; [done|]. split; [done|].
  pose proof (first_shortest_spec ps) as Hfs. split.
  - intros p Hp. rewrite Hp in Hfs. destruct Hfs as [Hin Hmin].
    split; [by apply Hmem|]. intros p' Hp'. by apply Hmin, Hmem.
  - split.
    + intros Hnone p Hp. rewrite Hnone in Hfs. apply Hmem in Hp.
      rewrite Hfs in Hp. by apply elem_of_nil in Hp.
    + intros Hno. destruct (first_shortest ps) as [p|]; [|done]. exfalso.
      destruct Hfs as [Hin _]. by apply (Hno p), Hmem.
Qed.

Lemma find_shortest_path_spec_witness :
  exists g r ps,
    Graph_init UndirectedGraph (np_array_of_pairs example_edges) = Ret g /\
    find_shortest_path g 0 4 = Ret r /\ find_all_paths g 0 4 = Ret ps /\
    r = first_shortest ps.
Proof.
  eexists.
  destruct (find_shortest_path_spec UndirectedGraph
              (np_array_of_pairs example_edges) _ 0 4 eq_refl)
    as (r & ps & Hr & Hps & Hfirst & _).
  exists r, ps. split; [vm_compute; reflexivity|]. split; [exact Hr|].
  split; [exact Hps|exact Hfirst].
Defined.

(* ================================================================== *)
(** ** Construction *)







(** X20. [tojson] round trip: building a graph of the same class from
    [np.array(tojson()['adjacency_array'])] gives the same graph again,
    with the same edge array and the same adjacency list. *)
Theorem tojson_round_trip (c : klass) (a : ndarray) (g : graph) :
  nd_wf a -> Graph_init c a = Ret g ->
  Graph_init c (np_array (json_adjacency_array (tojson g))) = Ret g.
Proof.
  intros Hwf H.
  pose proof (Graph_init_inv _ _ _ H)
    as (Hs & Hne & Hmin & Hc & Hroot & Hpreds & Ha & Hadj).
  assert (np_array (json_adjacency_array (tojson g)) = adjacency_array g)
    as ->.
  { unfold np_array, tojson. simpl. rewrite Ha. simpl. f_equal.
    destruct (first_seen (rows a)) as [|r rs] eqn:E.
    - exfalso. destruct (rows a) as [|r rs]; [done|].
      assert (r ∈ first_seen (r :: rs)) as Hr
        by (apply (proj2 (first_seen_elem _ _)); left).
      rewrite E in Hr. by apply elem_of_nil in Hr.
    - simpl. rewrite <- Hs.
      apply (proj1 (Forall_forall _ _) Hwf).
      apply (proj1 (first_seen_elem _ _)). rewrite E. left. }
  unfold Graph_init. rewrite Ha. unfold nd_size, shape0. simpl.
  rewrite bool_decide_false.
  2:{ destruct (first_seen (rows a)) as [|r rs] eqn:E; [|simpl; lia].
      exfalso. destruct (rows a) as [|r rs]; [done|].
      assert (r ∈ first_seen (r :: rs)) as Hr
        by (apply (proj2 (first_seen_elem _ _)); left).
      rewrite E in Hr. by apply elem_of_nil in Hr. }
  assert (nd_min (NdArray 2 (first_seen (rows a))) = Ret 0) as ->.
  { apply nd_min_Ret. apply nd_min_Ret in Hmin. destruct Hmin as [Hin Hle].
    split; [by apply (proj2 (ravel_first_seen a 0))|].
    intros y Hy. apply Hle. by apply (proj1 (ravel_first_seen a y)). }
  simpl. rewrite _unique_array_rows_spec. simpl.
  assert (first_seen (first_seen (rows a)) = first_seen (rows a)) as ->.
  { apply first_seen_from_NoDup_id; [apply first_seen_NoDup|].
    intros r _. apply not_elem_of_nil. }
  rewrite <- Ha, Hadj. simpl. destruct g; simpl in *. congruence.
Qed.

Lemma tojson_round_trip_witness :
  exists g,
    Graph_init DirectedGraph (np_array_of_pairs [(0, 1); (0, 1); (1, 2)])
      = Ret g /\
    Graph_init DirectedGraph (np_array (json_adjacency_array (tojson g)))
      = Ret g.
Proof.
  eexists. split; [vm_compute; reflexivity|].
  apply (tojson_round_trip DirectedGraph
           (np_array_of_pairs [(0, 1); (0, 1); (1, 2)])).
  - repeat constructor.
  - reflexivity.
Defined.

(* ================================================================== *)
(** ** [is_tree] and [Tree.__init__] *)

(** X21. [is_tree] returns on every accepted graph, and on a directed
    graph it returns [True] exactly when no vertex reaches itself along the
    edges and there is one edge fewer than vertices. *)
Theorem is_tree_spec (c : klass) (a : ndarray) (g : graph) (n : Z) :
  Graph_init c a = Ret g -> n_vertices g = Ret n ->
  exists b, is_tree g = Ret b /\
    (directed c = true ->
     (b = true <->
      (forall x, ~ tc (has_edge a) x x) /\ Z.of_nat (n_edges g) = n - 1)).
Proof.
  intros H Hn. destruct (has_cycles_cyclic c a g H) as (cy & Hcy & Hspec).
  unfold is_tree. rewrite Hcy. simpl. destruct cy; simpl.
  - exists false. split; [done|]. intros Hd. split; [done|].
    intros [Hno _]. destruct (proj1 (Hspec Hd) eq_refl) as [x Hx].
    by destruct (Hno x).
  - rewrite Hn. simpl. eexists. split; [done|]. intros Hd.
    rewrite bool_decide_eq_true. split.
    + intros He. split; [|done]. intros x Hx.
      assert (false = true) as Hf; [|discriminate].
      apply (Hspec Hd). eauto.
    + by intros [_ He].
Qed.

Lemma is_tree_spec_witness :
  exists g,
    Graph_init DirectedGraph (np_array_of_pairs [(0, 1); (1, 0)]) = Ret g /\
    is_tree g = Ret false.
Proof.
  eexists. split; [vm_compute; reflexivity|].
  destruct (is_tree_spec DirectedGraph (np_array_of_pairs [(0, 1); (1, 0)]) _
              2 eq_refl eq_refl) as (b & Hb & Hiff).
  refine (eq_trans Hb _). f_equal. destruct b; [|reflexivity]. exfalso.
  destruct (proj1 (Hiff eq_refl) eq_refl) as [_ He].
  vm_compute in He. discriminate.
Defined.

Lemma _get_predecessors_list_total c a g n :
  Graph_init c a = Ret g -> n_vertices g = Ret n ->
  exists preds, _get_predecessors_list (adjacency_array g) = Ret preds.
Proof.
  intros H Hn. pose proof (Graph_init_rows _ _ _ _ H Hn) as Hrows.
  destruct (Graph_init_ok _ _ _ H) as (n' & [Hn' _] & Hn1 & _).
  rewrite Hn in Hn'. injection Hn' as <-.
  unfold _get_predecessors_list. unfold n_vertices in Hn. rewrite Hn. simpl.
  destruct (for_each_total_inv
    (fun preds : list (option Z) => length preds = Z.to_nat n)
    (fun preds e =>
       parent ← nd_get (adjacency_array g) e 0;
       child ← nd_get (adjacency_array g) e 1;
       py_setitem preds child (Some parent))
    (fun e => exists v1 v2,
       nd_get (adjacency_array g) e 0 = Ret v1 /\
       nd_get (adjacency_array g) e 1 = Ret v2 /\
       0 <= v1 < n /\ 0 <= v2 < n)
    (seq 0 (n_edges_of (adjacency_array g)))
    (replicate (Z.to_nat n) None)) as (preds & Hp & _);
    [|exact Hrows|by rewrite length_replicate|eauto].
  intros s e (v1 & v2 & -> & -> & _ & Hv2) Hlen. simpl.
  unfold py_setitem. rewrite py_norm_index_in_range by lia.
  eexists. split; [done|]. by rewrite length_insert.
Qed.

(** X22. [Tree.__init__] on an array that [Graph.__init__] accepts: it
    raises 'The provided edges do not represent a tree.' when some vertex
    reaches itself along the edges or the number of edges is not
    [n_vertices - 1]; otherwise it raises the [ValueError] of
    [_check_vertex] when the root is not a vertex; otherwise it returns the
    tree with the edge array and adjacency list of the graph, the root, and
    the predecessors list computed from the edge array. *)
Theorem Tree_init_cases (a : ndarray) (root : Z) (g : graph) (n : Z) :
  Graph_init Tree a = Ret g -> n_vertices g = Ret n ->
  let is_a_tree :=
    (forall x, ~ tc (has_edge a) x x) /\ Z.of_nat (n_edges g) = n - 1 in
  (~ is_a_tree -> Tree_init a root = Raise (ValueError NotATree)) /\
  (is_a_tree -> ~ in_range n root ->
   Tree_init a root = Raise (ValueError BadVertex)) /\
  (is_a_tree -> in_range n root ->
   exists preds,
     Tree_init a root
     = Ret (Graph Tree (adjacency_array g) (adjacency_list g)
                  (Some root) (Some preds)) /\
     _get_predecessors_list (adjacency_array g) = Ret preds).
Proof.
  intros H Hn is_a_tree.
  destruct (has_cycles_cyclic Tree a g H) as (cy & Hcy & Hspec).
  specialize (Hspec eq_refl).
  assert (cy = false <-> forall x, ~ tc (has_edge a) x x) as Hacyc.
  { split.
    - intros -> x Hx. assert (false = true) as Hf; [|discriminate].
      apply Hspec. eauto.
    - intros Hno. destruct cy; [|done].
      destruct (proj1 Hspec eq_refl) as [x Hx]. by destruct (Hno x). }
  unfold Tree_init, is_tree. rewrite H. simpl. rewrite Hcy. simpl.
  split; [|split].
  - intros Hnot. destruct cy; simpl; [done|]. rewrite Hn. simpl.
    case_bool_decide as He; simpl; [|done].
    exfalso. apply Hnot. split; [by apply Hacyc|done].
  - intros [Hno He] Hroot. apply Hacyc in Hno. subst cy. simpl.
    rewrite Hn. simpl. rewrite !bool_decide_true by done. simpl.
    by rewrite (_check_vertex_out_of_range g n root).
  - intros [Hno He] Hroot. apply Hacyc in Hno. subst cy. simpl.
    rewrite Hn. simpl. rewrite !bool_decide_true by done. simpl.
    rewrite (_check_vertex_in_range g n root) by done. simpl.
    destruct (_get_predecessors_list_total Tree a g n H Hn) as [preds Hp].
    exists preds. rewrite Hp. done.
Qed.

Lemma Tree_init_cases_witness :
  Tree_init (np_array_of_pairs [(0, 1); (1, 0)]) 0
  = Raise (ValueError NotATree).
Proof.
  destruct (Tree_init_cases (np_array_of_pairs [(0, 1); (1, 0)]) 0 _ 2
              eq_refl eq_refl) as [Hnot _].
  apply Hnot. intros [_ He]. vm_compute in He. discriminate.
Defined.

(* ================================================================== *)
(** ** [_correct_tree_edges] on any list of edges *)

Lemma bfs_inv_linked T root P E Q O :
  bfs_inv T root P E Q O ->
  forall i p c, O !! i = Some (p, c) -> linked T root p /\ linked T root c.
Proof.
  intros Hinv.
  pose proof (inv_output _ _ _ _ _ _ Hinv) as Hout.
  pose proof (inv_ordered _ _ _ _ _ _ Hinv) as Hord.
  assert (forall i p c, O !! i = Some (p, c) -> linked T root p) as Hp.
  { intros i. induction (lt_wf i) as [i _ IH]. intros p c Hi.
    destruct (Hord i p c Hi) as [->|(j & p' & Hj & Hjp)]; [constructor|].
    apply (linked_step T root p').
    - by apply (IH j Hj p' p).
    - apply Hout. by eapply list_elem_of_lookup_2. }
  intros i p c Hi. split; [by apply (Hp i p c)|].
  apply (linked_step T root p); [by apply (Hp i p c)|].
  apply Hout. by eapply list_elem_of_lookup_2.
Qed.

Lemma bfs_inv_closed T root P E O :
  bfs_inv T root P E [] O ->
  root ∈ P /\ forall u v, linked T u v -> u ∈ P -> v ∈ P.
Proof.
  intros [Hlen Hpool Htaken Hout Hpop Hreach Hknown _].
  assert (forall v, v ∈ O.*2 -> v ∈ P) as Hchild.
  { intros v Hv. destruct (Hreach v (or_intror Hv)) as [H|H]; [done|].
    by apply elem_of_nil in H. }
  split.
  { destruct (Hreach root (or_introl eq_refl)) as [H|H]; [done|].
    by apply elem_of_nil in H. }
  intros u v Hl. induction Hl as [|u v w _ IH Hstep]; [done|].
  intros Hu. specialize (IH Hu).
  assert (forall a b, (a, b) ∈ T -> a ∈ P \/ b ∈ P -> a ∈ P /\ b ∈ P) as Hedge.
  { intros a b Hab Hor. destruct (Htaken _ Hab) as [HE|[HO|HO]].
    - exfalso. destruct Hor as [Ha|Hb].
      + apply (Hpop _ _ HE Ha). unfold in_pair. simpl.
        by rewrite bool_decide_true.
      + apply (Hpop _ _ HE Hb). unfold in_pair. simpl.
        rewrite (bool_decide_true (b = b)) by done. apply orb_True. by right.
    - split; [by apply (Hout a b)|].
      apply Hchild, list_elem_of_fmap. by exists (a, b).
    - simpl in HO. split; [|by apply (Hout b a)].
      apply Hchild, list_elem_of_fmap. by exists (b, a). }
  destruct Hstep as [Hs|Hs].
  - by apply (Hedge v w Hs (or_introl IH)).
  - by apply (Hedge w v Hs (or_intror IH)).
Qed.

(** X23. [_correct_tree_edges] returns on every list of edges and every
    root.  The output has at most as many edges as the input; each edge of
    the output is an edge of the input, as it is or turned round, and its
    parent is joined to the root; every edge of the input with an end
    joined to the root is in the output, as it is or turned round; and the
    parent of each edge of the output is the root or the child of an
    earlier edge. *)
Theorem correct_tree_edges_component (T : list (Z * Z)) (root : Z) :
  exists O,
    _correct_tree_edges T root = Ret O /\
    (length O <= length T)%nat /\
    (forall p c, (p, c) ∈ O ->
       ((p, c) ∈ T \/ (c, p) ∈ T) /\ linked T root p) /\
    (forall e, e ∈ T -> linked T root e.1 -> e ∈ O \/ (e.2, e.1) ∈ O) /\
    (forall i p c, O !! i = Some (p, c) ->
       p = root \/ exists j p', (j < i)%nat /\ O !! j = Some (p', p)).
Proof.
  unfold _correct_tree_edges.
  destruct (_correct_tree_edges_loop_run T root (S (length T)) [] T [root] [])
    as (O & P & E & Hrun & Hinv); [apply bfs_inv_init|simpl; lia|].
  exists O. split; [done|].
  pose proof (bfs_inv_linked _ _ _ _ _ _ Hinv) as Hlinked.
  destruct (bfs_inv_closed _ _ _ _ _ Hinv) as [Hroot Hclosed].
  destruct Hinv as [Hlen Hpool Htaken Hout Hpop Hreach Hknown Hord].
  split; [lia|]. split; [|split; [|done]].
  - intros p c Hpc. split; [by apply Hout|].
    apply list_elem_of_lookup_1 in Hpc as [i Hi]. by apply (Hlinked i p c).
  - intros e He Hl. destruct (Htaken e He) as [HE|?]; [|done]. exfalso.
    apply (Hpop e e.1 HE); [by apply (Hclosed root)|].
    unfold in_pair. by rewrite bool_decide_true.
Qed.

(* ================================================================== *)
(** ** Point-graphs *)

Lemma nd_max_first_seen a :
  nd_max (NdArray 2 (first_seen (rows a))) = nd_max a.
Proof.
  destruct (nd_max a) as [m|e|] eqn:Hm.
  - apply nd_max_Ret. apply nd_max_Ret in Hm.
    eapply is_max_ext; [|exact Hm]. intros x. symmetry. apply ravel_first_seen.
  - unfold nd_max in *. destruct (ravel a) as [|x l] eqn:E; [|discriminate].
    destruct (ravel (NdArray 2 (first_seen (rows a)))) as [|y l'] eqn:E';
      [done|].
    assert (y ∈ ravel a) as Hy.
    { apply (proj1 (ravel_first_seen a y)). rewrite E'. left. }
    rewrite E in Hy. by apply elem_of_nil in Hy.
  - unfold nd_max in Hm. destruct (ravel a); discriminate.
Qed.

Section PointGraphsCorrect.
Variable point : Type.
Variable point_sub : point -> point -> point.

Lemma n_vertices_raw c a g :
  Graph_init c a = Ret g -> n_vertices g = (m ← nd_max a; Ret (m + 1)).
Proof.
  intros Hg. apply Graph_init_inv in Hg as (_ & _ & _ & _ & _ & _ & Ha & _).
  unfold n_vertices, n_vertices_of. by rewrite Ha, nd_max_first_seen.
Qed.

Lemma _check_n_points_Ret (pts : list point) a :
  _check_n_points point pts a = Ret () <->
  (m ← nd_max a; Ret (m + 1)) = Ret (Z.of_nat (length pts)).
Proof.
  unfold _check_n_points. destruct (nd_max a) as [m| |]; simpl;
    [|split; discriminate..].
  case_bool_decide as Hm; split; try done.
  - intros [= Hm']. lia.
  - intros _. f_equal.
    destruct (decide (Z.of_nat (length pts) = m + 1)); [lia|].
    by destruct Hm.
Qed.

Lemma PointGraph_init_graph c (pts : list point) a pg :
  PointGraph_init point c pts a = Ret pg ->
  exists g, Graph_init c a = Ret g /\
            n_vertices g = Ret (Z.of_nat (length pts)) /\
            pg = PointGraph point g pts.
Proof.
  unfold PointGraph_init. intros H. inv_bind H as u Hu. destruct u.
  inv_bind H as g Hg. injection H as <-. exists g. split; [done|].
  split; [|done]. rewrite (n_vertices_raw c a g Hg).
  by apply _check_n_points_Ret.
Qed.

(** X24. The constructors of the point-graphs: [PointUndirectedGraph],
    [PointDirectedGraph] and [PointTree] return an instance exactly when
    the constructor of the graph class accepts the array and the number of
    points is [n_vertices] of the graph; the instance holds that graph and
    the points. *)
Theorem PointGraph_init_spec (c : klass) (pts : list point) (a : ndarray)
    (root : Z) (pg : pointgraph point) :
  (PointGraph_init point c pts a = Ret pg <->
   exists g, Graph_init c a = Ret g /\
             n_vertices g = Ret (Z.of_nat (length pts)) /\
             pg = PointGraph point g pts) /\
  (PointTree_init point pts a root = Ret pg <->
   exists t, Tree_init a root = Ret t /\
             n_vertices t = Ret (Z.of_nat (length pts)) /\
             pg = PointGraph point t pts).
Proof.
  split.
  - split; [apply PointGraph_init_graph|].
    intros (g & Hg & Hn & ->). rewrite (n_vertices_raw c a g Hg) in Hn.
    apply _check_n_points_Ret in Hn. unfold PointGraph_init.
    rewrite Hn. simpl. by rewrite Hg.
  - unfold PointTree_init. split.
    + intros H. inv_bind H as u Hu. destruct u. inv_bind H as t Ht.
      injection H as <-. exists t. split; [done|]. split; [|done].
      destruct (Tree_init_graph _ _ _ Ht) as (g & _ & Hg & _ & _ & _ & -> & _).
      rewrite (n_vertices_raw Tree a g Hg). by apply _check_n_points_Ret.
    + intros (t & Ht & Hn & ->).
      destruct (Tree_init_graph _ _ _ Ht) as (g & _ & Hg & _ & _ & _ & Hnt & _).
      rewrite Hnt, (n_vertices_raw Tree a g Hg) in Hn.
      apply _check_n_points_Ret in Hn. rewrite Hn. simpl. by rewrite Ht.
Qed.

Lemma mapM_res_Forall2 {A B} (f : A -> res B) (l : list A) :
  (forall x, x ∈ l -> exists y, f x = Ret y) ->
  exists k, mapM f l = Ret k /\ Forall2 (fun x y => f x = Ret y) l k.
Proof.
  induction l as [|x l IH]; intros Hf.
  - exists []. split; [done|constructor].
  - destruct (Hf x) as [y Hy]; [left|].
    destruct IH as (k & Hk & Hall); [intros z Hz; apply Hf; by right|].
    exists (y :: k). rewrite mapM_res_cons, Hy, Hk. split; [done|].
    by constructor.
Qed.

(** X25. [relative_location_edge] on an accepted directed point-graph:
    for two vertices with the edge [[parent, child]] it returns the
    difference of the point of the child and the point of the parent; for
    two vertices without that edge it raises 'not connected with an edge';
    and when one of the two is not a vertex it raises the [ValueError] of
    [_check_vertex]. *)
Theorem relative_location_edge_spec (c : klass) (pts : list point)
    (a : ndarray) (pg : pointgraph point) (p ch : Z) :
  directed c = true -> PointGraph_init point c pts a = Ret pg ->
  let n := Z.of_nat (length pts) in
  (in_range n p -> in_range n ch -> has_edge a p ch ->
   exists xp xc,
     pts !! Z.to_nat p = Some xp /\ pts !! Z.to_nat ch = Some xc /\
     relative_location_edge point point_sub pg p ch
     = Ret (point_sub xc xp)) /\
  (in_range n p -> in_range n ch -> ~ has_edge a p ch ->
   relative_location_edge point point_sub pg p ch
   = Raise (ValueError NotConnected)) /\
  (~ (in_range n p /\ in_range n ch) ->
   relative_location_edge point point_sub pg p ch
   = Raise (ValueError BadVertex)).
Proof.
  intros Hd H n.
  apply PointGraph_init_graph in H as (g & Hg & Hn & ->).
  unfold relative_location_edge, DirectedGraph_is_edge. simpl.
  split; [|split].
  - intros Hp Hch He.
    rewrite (_check_vertex_in_range g n p), (_check_vertex_in_range g n ch)
      by done. simpl.
    destruct (Graph_init_neighbours _ _ _ _ _ Hg Hn Hp) as (l & -> & Hmem).
    simpl. rewrite bool_decide_true by (apply Hmem; by left). simpl.
    unfold in_range, n in *.
    destruct (py_getitem_in_range pts ch) as (xc & -> & Hxc); [lia|].
    destruct (py_getitem_in_range pts p) as (xp & -> & Hxp); [lia|].
    simpl. eauto.
  - intros Hp Hch He.
    rewrite (_check_vertex_in_range g n p), (_check_vertex_in_range g n ch)
      by done. simpl.
    destruct (Graph_init_neighbours _ _ _ _ _ Hg Hn Hp) as (l & -> & Hmem).
    simpl. rewrite bool_decide_false; [done|].
    intros Hin. apply Hmem in Hin as [?|[Hd' _]]; [done|congruence].
  - intros Hnot. destruct (decide (in_range n p)) as [Hp|Hp].
    + rewrite (_check_vertex_in_range g n p) by done. simpl.
      rewrite (_check_vertex_out_of_range g n ch); [done|done|tauto].
    + by rewrite (_check_vertex_out_of_range g n p).
Qed.

(** X26. [relative_locations] on an accepted directed point-graph returns
    one entry for each row of the stored edge array, and the entry of the
    row [[p, c]] is what [relative_location_edge(p, c)] returns. *)
Theorem relative_locations_spec (c : klass) (pts : list point)
    (a : ndarray) (pg : pointgraph point) :
  directed c = true -> PointGraph_init point c pts a = Ret pg ->
  exists l,
    relative_locations point point_sub pg = Ret l /\
    length l = n_edges (base point pg) /\
    forall (e : nat) p ch x,
      nd_get (adjacency_array (base point pg)) e 0 = Ret p ->
      nd_get (adjacency_array (base point pg)) e 1 = Ret ch ->
      (l !! e = Some x <->
       relative_location_edge point point_sub pg p ch = Ret x).
Proof.
  intros Hd H.
  apply PointGraph_init_graph in H as (g & Hg & Hn & ->).
  pose proof (Graph_init_rows _ _ _ _ Hg Hn) as Hrows.
  pose proof (Graph_init_inv _ _ _ Hg) as (_ & _ & _ & _ & _ & _ & Ha & _).
  unfold relative_locations. simpl.
  set (n := Z.of_nat (length pts)) in *.
  (* every row holds two vertices *)
  assert (forall r, r ∈ rows (adjacency_array g) ->
            exists v1 v2, r !! 0%nat = Some v1 /\ r !! 1%nat = Some v2 /\
                          in_range n v1 /\ in_range n v2) as Hrow.
  { intros r Hr. apply list_elem_of_lookup_1 in Hr as [e He].
    rewrite Forall_forall in Hrows.
    destruct (Hrows e) as (v1 & v2 & H1 & H2 & Hr1 & Hr2).
    { apply elem_of_seq. apply lookup_lt_Some in He.
      unfold n_edges, n_edges_of, shape0. lia. }
    unfold nd_get in H1, H2. rewrite He in H1, H2.
    destruct (r !! 0%nat) as [x1|]; [|discriminate].
    destruct (r !! 1%nat) as [x2|]; [|discriminate].
    injection H1 as ->. injection H2 as ->. exists v1, v2. done. }
  assert (forall (r : list Z) (i : nat) v,
            r !! i = Some v -> py_getitem r (Z.of_nat i) = Ret v) as Hget.
  { intros r i v Hv. pose proof (lookup_lt_Some _ _ _ Hv).
    destruct (py_getitem_in_range r (Z.of_nat i)) as (x & -> & Hx); [lia|].
    rewrite Nat2Z.id in Hx. congruence. }
  destruct (mapM_res_Forall2 (fun r : list Z => py_getitem r 0)
              (rows (adjacency_array g))) as (parents & -> & Hparents).
  { intros r Hr. destruct (Hrow r Hr) as (v1 & _ & H1 & _).
    exists v1. by apply (Hget r 0%nat). }
  destruct (mapM_res_Forall2 (fun r : list Z => py_getitem r 1)
              (rows (adjacency_array g))) as (children & Hchildren' & Hchildren).
  { intros r Hr. destruct (Hrow r Hr) as (_ & v2 & _ & H2 & _).
    exists v2. by apply (Hget r 1%nat). }
  simpl. rewrite Hchildren'. simpl.
  assert (forall v, in_range n v -> exists x, py_getitem pts v = Ret x /\
                                              pts !! Z.to_nat v = Some x)
    as Hpt.
  { intros v Hv. apply py_getitem_in_range. exact Hv. }
  assert (forall (col : nat) vs,
    Forall2 (fun (r : list Z) y => py_getitem r (Z.of_nat col) = Ret y)
            (rows (adjacency_array g)) vs ->
    (col < 2)%nat -> Forall (in_range n) vs) as Hin.
  { intros col vs Hvs Hcol. apply Forall_forall. intros v Hv.
    apply list_elem_of_lookup_1 in Hv as [e He].
    destruct (Forall2_lookup_r _ _ _ _ _ Hvs He) as (r & Hr & Hrv).
    destruct (Hrow r) as (v1 & v2 & H1 & H2 & Hr1 & Hr2);
      [by eapply list_elem_of_lookup_2|].
    destruct col as [|[|col]]; [| |lia].
    - rewrite (Hget r 0%nat v1 H1) in Hrv. by injection Hrv as <-.
    - rewrite (Hget r 1%nat v2 H2) in Hrv. by injection Hrv as <-. }
  pose proof (Hin 0%nat parents Hparents ltac:(lia)) as Hpin.
  pose proof (Hin 1%nat children Hchildren ltac:(lia)) as Hcin.
  destruct (mapM_res_Forall2 (py_getitem pts) children) as (cs & -> & Hcs).
  { intros v Hv. rewrite Forall_forall in Hcin.
    destruct (Hpt v (Hcin v Hv)) as (x & Hx & _). eauto. }
  destruct (mapM_res_Forall2 (py_getitem pts) parents) as (ps & -> & Hps).
  { intros v Hv. rewrite Forall_forall in Hpin.
    destruct (Hpt v (Hpin v Hv)) as (x & Hx & _). eauto. }
  simpl. exists (zip_with point_sub cs ps). split; [done|].
  pose proof (Forall2_length _ _ _ Hparents) as Hl1.
  pose proof (Forall2_length _ _ _ Hchildren) as Hl2.
  pose proof (Forall2_length _ _ _ Hcs) as Hl3.
  pose proof (Forall2_length _ _ _ Hps) as Hl4.
  split.
  { rewrite length_zip_with. unfold n_edges, n_edges_of, shape0. lia. }
  intros e p ch x He0 He1.
  unfold nd_get in He0, He1.
  destruct (rows (adjacency_array g) !! e) as [r|] eqn:Hr; [|discriminate].
  destruct (r !! 0%nat) as [x1|] eqn:H1; [|discriminate].
  destruct (r !! 1%nat) as [x2|] eqn:H2; [|discriminate].
  injection He0 as ->. injection He1 as ->.
  destruct (Forall2_lookup_l _ _ _ _ _ Hparents Hr) as (p' & Hp' & Hrp).
  destruct (Forall2_lookup_l _ _ _ _ _ Hchildren Hr) as (c' & Hc' & Hrc).
  assert (py_getitem r 0 = Ret p) as Hg0 by exact (Hget r 0%nat p H1).
  assert (py_getitem r 1 = Ret ch) as Hg1 by exact (Hget r 1%nat ch H2).
  rewrite Hg0 in Hrp. injection Hrp as <-.
  rewrite Hg1 in Hrc. injection Hrc as <-.
  destruct (Forall2_lookup_l _ _ _ _ _ Hps Hp') as (xp & Hxp & Hgp).
  destruct (Forall2_lookup_l _ _ _ _ _ Hcs Hc') as (xc & Hxc & Hgc).
  rewrite lookup_zip_with, Hxc, Hxp. simpl.
  (* the same edge, seen by [relative_location_edge] *)
  assert (in_range n p /\ in_range n ch) as [Hp Hch].
  { destruct (Hrow r) as (v1 & v2 & H1' & H2' & ? & ?);
      [by eapply list_elem_of_lookup_2|].
    rewrite H1 in H1'. rewrite H2 in H2'.
    injection H1' as <-. injection H2' as <-. done. }
  assert (has_edge a p ch) as Hedge.
  { rewrite <- (has_edge_first_seen a), <- Ha. exists e.
    unfold nd_get. by rewrite Hr, H1, H2. }
  unfold relative_location_edge, DirectedGraph_is_edge. simpl.
  rewrite (_check_vertex_in_range g n p), (_check_vertex_in_range g n ch)
    by done. simpl.
  destruct (Graph_init_neighbours _ _ _ _ _ Hg Hn Hp) as (l & -> & Hmem).
  simpl. rewrite bool_decide_true by (apply Hmem; by left). simpl.
  rewrite Hgc, Hgp. simpl. split; congruence.
Qed.
End PointGraphsCorrect.

Lemma relative_location_edge_spec_witness :
  exists pg,
    PointGraph_init Z DirectedGraph [10; 30] (np_array_of_pairs [(0, 1)])
      = Ret pg /\
    relative_location_edge Z Z.sub pg 0 1 = Ret 20 /\
    relative_location_edge Z Z.sub pg 0 2 = Raise (ValueError BadVertex).
Proof.
  eexists. split; [vm_compute; reflexivity|].
  destruct (relative_location_edge_spec Z Z.sub DirectedGraph [10; 30]
              (np_array_of_pairs [(0, 1)]) _ 0 1 eq_refl eq_refl)
    as (Hedge & _ & _).
  destruct (relative_location_edge_spec Z Z.sub DirectedGraph [10; 30]
              (np_array_of_pairs [(0, 1)]) _ 0 2 eq_refl eq_refl)
    as (_ & _ & Hout).
  split; [|apply Hout; intros [_ H]; unfold in_range in H; simpl in H; lia].
  destruct Hedge as (xp & xc & Hxp & Hxc & Hrel).
  - unfold in_range. simpl. lia.
  - unfold in_range. simpl. lia.
  - exists 0%nat. split; reflexivity.
  - injection Hxp as <-. injection Hxc as <-. exact Hrel.
Defined.

Lemma relative_locations_spec_witness :
  exists pg l,
    PointGraph_init Z DirectedGraph [10; 30; 70]
      (np_array_of_pairs [(0, 1); (1, 2)]) = Ret pg /\
    relative_locations Z Z.sub pg = Ret l /\ length l = 2%nat.
Proof.
  eexists.
  destruct (relative_locations_spec Z Z.sub DirectedGraph [10; 30; 70]
              (np_array_of_pairs [(0, 1); (1, 2)]) _ eq_refl eq_refl)
    as (l & Hl & Hlen & _).
  exists l. split; [vm_compute; reflexivity|]. split; [exact Hl|exact Hlen].
Defined.

(* ================================================================== *)
(** ** What [from_mask] returns *)

Section FromMaskResult.
Variable point : Type.
Variable mask_adjacency_array : list bool -> ndarray -> res ndarray.
Variable mask_adjacency_array_tree :
  list bool -> ndarray -> list (list Z) -> list (option Z) -> Z ->
  res ndarray.
Variable reindex_adjacency_array : ndarray -> res ndarray.

(** X27. [from_mask] on an instance of the store: with a mask whose length
    is not the number of points it raises the [ValueError] on the mask and
    leaves the store as it is.  When it returns, the mask has the right
    length, the result is a new instance, every instance of before is
    unchanged, and the new instance has the class and the root of the
    original; with an all-true mask it has all attributes of the original;
    otherwise its points are the selected points, its adjacency list is
    computed from its new edge array, and for a directed graph or tree so
    is its predecessors list, which the original must have had. *)
Theorem from_mask_result (self : loc) (mask : list bool)
    (h : gmap loc (pointgraph point)) (o : pointgraph point) :
  h !! self = Some o ->
  let r := from_mask point mask_adjacency_array mask_adjacency_array_tree
             reindex_adjacency_array self mask h in
  (length mask ≠ n_points point o -> r = (Raise (ValueError BadMask), h)) /\
  (forall l, r.1 = Ret l ->
     length mask = n_points point o /\
     l = fresh (dom h) /\ h !! l = None /\ preserves h r.2 /\
     exists o',
       r.2 !! l = Some o' /\
       cls (base point o') = cls (base point o) /\
       root_vertex (base point o') = root_vertex (base point o) /\
       (np_all mask = true -> o' = o) /\
       (np_all mask = false ->
          points point o' = select_rows point (points point o) mask /\
          _get_adjacency_list (cls (base point o))
             (adjacency_array (base point o'))
          = Ret (adjacency_list (base point o')) /\
          (cls (base point o) ≠ UndirectedGraph ->
           predecessors_list (base point o) ≠ None /\
           exists preds,
             predecessors_list (base point o') = Some preds /\
             _get_predecessors_list (adjacency_array (base point o'))
             = Ret preds))).
Proof.
  intros Hself r. split.
  - intros Hlen. unfold r, from_mask. rewrite Hself.
    unfold PointUndirectedGraph_from_mask, PointDirectedGraph_from_mask,
      PointTree_from_mask, directed_from_mask, deref.
    rewrite Hself. simpl. rewrite bool_decide_true by done.
    by destruct (cls (base point o)).
  - intros l Hl.
    assert (preserves h r.2) as Hpres by apply from_mask_preserves.
    pose proof (fresh_not_in point h) as Hfresh.
    revert Hl Hpres. unfold r, from_mask. rewrite Hself.
    unfold PointUndirectedGraph_from_mask, PointDirectedGraph_from_mask,
      PointTree_from_mask, directed_from_mask, deref.
    rewrite Hself. simpl.
    rewrite (obj_copy_Some point self o h Hself). simpl.
    set (pg := fresh (dom h)) in *.
    destruct (cls (base point o)) eqn:Hcls.
    + (* undirected *)
      case_bool_decide as Hlen; [discriminate|].
      assert (length mask = n_points point o) as Hlen'.
      { destruct (decide (length mask = n_points point o)); [done|].
        by destruct Hlen. }
      destruct (np_all mask) eqn:Hall.
      { simpl. intros [= <-] Hpres. do 4 (split; [done|]).
        exists o. rewrite lookup_insert_eq. do 4 (split; [done|]).
        discriminate. }
      rewrite lookup_insert_eq. simpl.
      destruct (mask_adjacency_array mask (adjacency_array (base point o)))
        as [masked_adj| |]; simpl; [|discriminate..].
      case_bool_decide; [discriminate|].
      destruct (reindex_adjacency_array masked_adj) as [a| |]; simpl;
        [|discriminate..].
      destruct (_get_adjacency_list UndirectedGraph a) as [adj| |] eqn:Hadj;
        simpl; [|discriminate..].
      intros [= <-] Hpres. do 4 (split; [done|]).
      unfold set_points, set_adjacency_list, set_adjacency_array.
      rewrite !alter_insert_eq. simpl. rewrite lookup_insert_eq.
      eexists. split; [done|]. simpl. rewrite Hcls.
      do 2 (split; [done|]). split; [discriminate|]. intros _.
      do 2 (split; [done|]). done.
    + (* directed *)
      case_bool_decide as Hlen; [discriminate|].
      assert (length mask = n_points point o) as Hlen'.
      { destruct (decide (length mask = n_points point o)); [done|].
        by destruct Hlen. }
      destruct (np_all mask) eqn:Hall.
      { simpl. intros [= <-] Hpres. do 4 (split; [done|]).
        exists o. rewrite lookup_insert_eq. do 4 (split; [done|]).
        discriminate. }
      rewrite lookup_insert_eq. simpl.
      destruct (get_predecessors_list (base point o)) as [preds| |] eqn:Hp;
        simpl; [|discriminate..].
      destruct (get_root_vertex (base point o)) as [root| |]; simpl;
        [|discriminate..].
      destruct (mask_adjacency_array_tree mask
                  (adjacency_array (base point o))
                  (adjacency_list (base point o)) preds root)
        as [masked_adj| |]; simpl; [|discriminate..].
      case_bool_decide; [discriminate|].
      destruct (reindex_adjacency_array masked_adj) as [a| |]; simpl;
        [|discriminate..].
      unfold set_points, set_adjacency_list, set_adjacency_array,
        set_predecessors_list.
      rewrite !alter_insert_eq. simpl. rewrite Hcls.
      destruct (_get_adjacency_list DirectedGraph a) as [adj| |] eqn:Hadj;
        simpl; [|discriminate..].
      destruct (_get_predecessors_list a) as [preds'| |] eqn:Hpreds;
        simpl; [|discriminate..].
      intros [= <-] Hpres. do 4 (split; [done|]).
      rewrite !alter_insert_eq. simpl. rewrite lookup_insert_eq.
      eexists. split; [done|]. simpl.
      do 2 (split; [done|]). split; [discriminate|]. intros _.
      do 2 (split; [done|]). intros _. split; [|eauto].
      unfold get_predecessors_list in Hp.
      destruct (predecessors_list (base point o)); [done|discriminate].
    + (* tree *)
      case_bool_decide as Hlen; [discriminate|].
      assert (length mask = n_points point o) as Hlen'.
      { destruct (decide (length mask = n_points point o)); [done|].
        by destruct Hlen. }
      destruct (np_all mask) eqn:Hall.
      { simpl. intros [= <-] Hpres. do 4 (split; [done|]).
        exists o. rewrite lookup_insert_eq. do 4 (split; [done|]).
        discriminate. }
      rewrite lookup_insert_eq. simpl.
      destruct (get_predecessors_list (base point o)) as [preds| |] eqn:Hp;
        simpl; [|discriminate..].
      destruct (get_root_vertex (base point o)) as [root| |]; simpl;
        [|discriminate..].
      destruct (mask_adjacency_array_tree mask
                  (adjacency_array (base point o))
                  (adjacency_list (base point o)) preds root)
        as [masked_adj| |]; simpl; [|discriminate..].
      case_bool_decide; [discriminate|].
      destruct (reindex_adjacency_array masked_adj) as [a| |]; simpl;
        [|discriminate..].
      unfold set_points, set_adjacency_list, set_adjacency_array,
        set_predecessors_list.
      rewrite !alter_insert_eq. simpl. rewrite Hcls.
      destruct (_get_adjacency_list Tree a) as [adj| |] eqn:Hadj;
        simpl; [|discriminate..].
      destruct (_get_predecessors_list a) as [preds'| |] eqn:Hpreds;
        simpl; [|discriminate..].
      intros [= <-] Hpres. do 4 (split; [done|]).
      rewrite !alter_insert_eq. simpl. rewrite lookup_insert_eq.
      eexists. split; [done|]. simpl.
      do 2 (split; [done|]). split; [discriminate|]. intros _.
      do 2 (split; [done|]). intros _. split; [|eauto].
      unfold get_predecessors_list in Hp.
      destruct (predecessors_list (base point o)); [done|discriminate].
Qed.
End FromMaskResult.

Lemma from_mask_result_witness :
  let o := PointGraph Z
             (Graph UndirectedGraph (np_array_of_pairs [(0, 1)])
                    [[1]; [0]] None None) [10; 30] in
  from_mask Z (fun _ a => Ret a) (fun _ a _ _ _ => Ret a) (fun a => Ret a)
    0%nat [true] {[0%nat := o]}
  = (Raise (ValueError BadMask), {[0%nat := o]}).
Proof.
  intros o.
  destruct (from_mask_result Z (fun _ a => Ret a) (fun _ a _ _ _ => Ret a)
              (fun a => Ret a) 0%nat [true] {[0%nat := o]} o
              (lookup_singleton_eq _ _)) as [Hbad _].
  apply Hbad. discriminate.
Defined.

(* ================================================================== *)
(** ** Directed graphs: every path once *)

(** The loop of [DirectedGraph._get_adjacency_list] over rows that differ
    pairwise appends no vertex twice to a list. *)
Lemma _get_adjacency_list_loop_NoDup c a l adj adj' :
  directed c = true ->
  (forall x, x ∈ ravel a -> 0 <= x) ->
  NoDup l ->
  (forall e e' v1 v2, e ∈ l -> e' ∈ l ->
     nd_get a e 0 = Ret v1 -> nd_get a e 1 = Ret v2 ->
     nd_get a e' 0 = Ret v1 -> nd_get a e' 1 = Ret v2 -> e = e') ->
  (forall (k : nat) y e, y ∈ default [] (adj !! k) -> e ∈ l ->
     ~ (nd_get a e 0 = Ret (Z.of_nat k) /\ nd_get a e 1 = Ret y)) ->
  Forall NoDup adj ->
  for_each (fun adj e =>
      v1 ← nd_get a e 0;
      v2 ← nd_get a e 1;
      adj ← py_append_at adj v1 v2;
      if directed c then Ret adj else py_append_at adj v2 v1) l adj = Ret adj' ->
  Forall NoDup adj'.
Proof.
  intros Hd Hpos. revert adj.
  induction l as [|e l IH]; intros adj Hnd Hrows Hnew Hadj H.
  - simpl in H. by injection H as <-.
  - simpl in H. inv_bind H as adj1 Hbody.
    inv_bind Hbody as v1 Hv1. inv_bind Hbody as v2 Hv2.
    inv_bind Hbody as adj0 Happ. rewrite Hd in Hbody. injection Hbody as ->.
    assert (0 <= v1) as Hv1' by (eapply Hpos, nd_get_elem; eauto).
    apply py_append_at_nonneg in Happ as [Hlt ->]; [|done].
    apply NoDup_cons in Hnd as [He Hnd].
    apply (IH (alter (fun inner => inner ++ [v2]) (Z.to_nat v1) adj) Hnd);
      [| | |exact H].
    + intros e1 e2 w1 w2 H1 H2. apply Hrows; by right.
    + intros k y e' Hy He'.
      apply (elem_of_alter_append adj (Z.to_nat v1) v2 k y Hlt) in Hy
        as [Hy|[-> ->]].
      * apply (Hnew k y e' Hy). by right.
      * rewrite Z2Nat.id by done. intros [H1 H2]. apply He.
        rewrite (Hrows e e' v1 v2); [done|left|by right|done..].
    + apply Forall_alter; [done|]. intros ys Hys Hnd'.
      apply NoDup_app. split; [done|]. split; [|apply NoDup_singleton].
      intros y Hy Hy2. apply list_elem_of_singleton in Hy2 as ->.
      apply (Hnew (Z.to_nat v1) v2 e); [by rewrite Hys|left|].
      by rewrite Z2Nat.id.
Qed.

Lemma nd_get_row a e v1 v2 :
  nd_wf a -> shape1 a = 2%nat ->
  nd_get a e 0 = Ret v1 -> nd_get a e 1 = Ret v2 ->
  rows a !! e = Some [v1; v2].
Proof.
  intros Hwf Hs H0 H1. unfold nd_get in H0, H1.
  destruct (rows a !! e) as [r|] eqn:Hr; [|discriminate].
  pose proof (Forall_lookup_1 _ _ _ _ Hwf Hr) as Hlen. simpl in Hlen.
  rewrite Hs in Hlen. destruct r as [|x [|y [|z r]]]; try discriminate.
  simpl in H0, H1. by injection H0 as ->; injection H1 as ->.
Qed.

(** In a directed graph no vertex is twice a child of the same vertex. *)
Lemma Graph_init_adjacency_NoDup c a g :
  nd_wf a -> directed c = true -> Graph_init c a = Ret g ->
  Forall NoDup (adjacency_list g).
Proof.
  intros Hwf Hd H.
  pose proof (Graph_init_inv _ _ _ H) as (Hs & _ & _ & _ & _ & _ & Ha & Hadj).
  pose proof (Graph_init_ok _ _ _ H) as (_ & _ & _ & _ & [_ Hmin]).
  assert (nd_wf (adjacency_array g)) as Hwf'.
  { rewrite Ha. apply Forall_forall. intros r Hr. simpl in *.
    rewrite first_seen_elem in Hr.
    rewrite <- Hs. by apply (proj1 (Forall_forall _ _) Hwf). }
  assert (shape1 (adjacency_array g) = 2%nat) as Hs' by (by rewrite Ha).
  assert (NoDup (rows (adjacency_array g))) as Hnd.
  { rewrite Ha. apply first_seen_NoDup. }
  unfold _get_adjacency_list in Hadj. inv_bind Hadj as n Hn.
  eapply (_get_adjacency_list_loop_NoDup c (adjacency_array g));
    [exact Hd| | | | | |exact Hadj].
  - intros x. rewrite Ha, ravel_first_seen. apply Hmin.
  - apply NoDup_seq.
  - intros e e' v1 v2 _ _ H0 H1 H0' H1'.
    pose proof (nd_get_row _ _ _ _ Hwf' Hs' H0 H1) as Hr.
    pose proof (nd_get_row _ _ _ _ Hwf' Hs' H0' H1') as Hr'.
    by apply (NoDup_lookup _ _ _ _ Hnd Hr Hr').
  - intros k y e Hy _. destruct (replicate (Z.to_nat n) [] !! k) eqn:E.
    + apply lookup_replicate in E as [-> _]. by apply elem_of_nil in Hy.
    + by apply elem_of_nil in Hy.
  - apply Forall_replicate. constructor.
Qed.

(** The loop of [find_all_paths] over neighbours that differ pairwise
    keeps the list of paths free of repetitions. *)
Lemma find_all_paths_loop_NoDup rec path vs paths ps :
  NoDup vs -> NoDup paths ->
  (forall v r, v ∈ vs -> rec v = Ret r ->
     NoDup r /\ forall p, p ∈ r -> exists q, p = path ++ v :: q) ->
  (forall p v q, p ∈ paths -> v ∈ vs -> p ≠ path ++ v :: q) ->
  find_all_paths_loop rec path vs paths = Ret ps -> NoDup ps.
Proof.
  revert paths.
  induction vs as [|v vs IH]; simpl; intros paths Hvs Hpaths Hrec Hnew H.
  - by injection H as <-.
  - apply NoDup_cons in Hvs as [Hv Hvs].
    assert (forall w r, w ∈ vs -> rec w = Ret r ->
              NoDup r /\ forall p, p ∈ r -> exists q, p = path ++ w :: q)
      as Hrec'.
    { intros w r Hw. apply Hrec. by right. }
    destruct (decide (v ∈ path)).
    + apply (IH paths); [done..| |done].
      intros p w q Hp Hw. apply Hnew; [done|by right].
    + inv_bind H as r Hr. destruct (Hrec v r) as [Hndr Hform]; [left|done|].
      apply (IH (paths ++ r)); [done| |done| |done].
      * apply NoDup_app. split; [done|]. split; [|done].
        intros p Hp Hpr. destruct (Hform p Hpr) as [q ->].
        by apply (Hnew _ v q Hp); [left|].
      * intros p w q Hp Hw Heq. apply elem_of_app in Hp as [Hp|Hp].
        -- by apply (Hnew p w q Hp); [right|].
        -- destruct (Hform p Hp) as [q' ->].
           apply app_inv_head in Heq. injection Heq as -> _. done.
Qed.

Lemma find_all_paths_rec_NoDup g n end_ fuel start path ps :
  graph_ok g n -> Forall NoDup (adjacency_list g) ->
  find_all_paths_rec fuel g start end_ path = Ret ps -> NoDup ps.
Proof.
  intros Hok Hadj. revert start path ps.
  induction fuel as [|fuel IH]; intros start path ps H; [discriminate|].
  pose proof H as Hspec. simpl in H.
  case_bool_decide; [injection H as <-; apply NoDup_singleton|].
  destruct (n_vertices g) as [n'| |]; [|discriminate..]. simpl in H.
  case_bool_decide; [injection H as <-; apply NoDup_nil_2|].
  destruct (py_getitem (adjacency_list g) start) as [vs| |] eqn:Hvs;
    [|discriminate..]. simpl in H.
  assert (NoDup vs) as Hnd.
  { apply (proj1 (Forall_forall _ _) Hadj). by eapply py_getitem_elem. }
  apply (find_all_paths_loop_NoDup _ _ _ _ _ Hnd (NoDup_nil_2)) in H;
    [done| |].
  - intros v r _ Hr. split; [by apply (IH v (path ++ [start]))|].
    intros p Hp.
    apply (find_all_paths_rec_spec g n end_ fuel v _ r Hok Hr) in Hp
      as (q & -> & _). eauto.
  - intros p v q Hp. by apply elem_of_nil in Hp.
Qed.

(** X28. In a directed graph or tree accepted from a rectangular array,
    no list of children holds a vertex twice, and [find_all_paths] returns
    every path without repeated vertices from [start] to [end] exactly
    once: so [n_paths] is the number of these paths. *)
Theorem find_all_paths_once (c : klass) (a : ndarray) (g : graph)
    (start end_ : Z) :
  nd_wf a -> directed c = true -> Graph_init c a = Ret g ->
  (forall p l, children g p = Ret l -> NoDup l) /\
  exists ps,
    find_all_paths g start end_ = Ret ps /\
    n_paths g start end_ = Ret (length ps) /\
    NoDup ps /\
    forall p, p ∈ ps <-> simple_path (joined c a) start end_ p.
Proof.
  intros Hwf Hd H.
  pose proof (Graph_init_adjacency_NoDup c a g Hwf Hd H) as Hadj.
  pose proof (Graph_init_ok _ _ _ H) as (n & Hok & _).
  split.
  - intros p l Hl. unfold children in Hl. inv_bind Hl as u Hu.
    apply py_getitem_elem in Hl.
    by apply (proj1 (Forall_forall _ _) Hadj).
  - destruct (find_all_paths_simple c a g start end_ H) as (ps & Hps & Hmem).
    exists ps. unfold n_paths. rewrite Hps. split; [done|]. split; [done|].
    split; [|done].
    by apply (find_all_paths_rec_NoDup g n end_ (search_fuel g) start []).
Qed.

Lemma find_all_paths_once_witness :
  exists g ps,
    Graph_init DirectedGraph (np_array_of_pairs dag_edges) = Ret g /\
    find_all_paths g 0 2 = Ret ps /\ NoDup ps /\
    n_paths g 0 2 = Ret (length ps).
Proof.
  eexists.
  destruct (find_all_paths_once DirectedGraph (np_array_of_pairs dag_edges) _
              0 2 ltac:(repeat constructor) eq_refl eq_refl)
    as (_ & ps & Hps & Hn & Hnd & _).
  exists ps. split; [vm_compute; reflexivity|]. split; [exact Hps|].
  split; [exact Hnd|exact Hn].
Defined.
